(** * go-zip: the [Zip] operation of package [zipper]

  The repository holds two sibling versions of [Zip]:
  - [src/zipper.go]            (module [ZipperGo] below), and
  - [src/unnamed/part_000]     (module [Part000] below).

  Both call into Go's [path/filepath], [os] and [archive/zip].  Those
  packages are modelled first: the pure path functions on strings
  (Unix flavour: separator [/], no volume names), then a file system
  as a tree of directories and files against which the system calls
  are resolved, then the archive writer. *)

From Stdlib Require Import List Ascii String Bool Arith Lia.
From Stdlib Require Import Sorting.Sorted Sorting.Permutation.
From Stdlib Require Structures.OrderedTypeEx.
Import ListNotations.

Local Open Scope string_scope.
Local Open Scope list_scope.

(** ** Strings *)

Module Str.

(** [s[1:]], and [s] when [s] is empty. *)
Definition tail (s : string) : string :=
  match s with
  | EmptyString => EmptyString
  | String _ s' => s'
  end.

(** The bytes of [s] pushed on [acc], last byte first. *)
Fixpoint rev_onto (s : string) (acc : list ascii) : list ascii :=
  match s with
  | EmptyString => acc
  | String c s' => rev_onto s' (c :: acc)
  end.

Definition of_rev (l : list ascii) : string :=
  string_of_list_ascii (rev l).

Definition has (c : ascii) (s : string) : bool :=
  existsb (fun x => Ascii.eqb x c) (list_ascii_of_string s).

End Str.

(** ** path/filepath (Unix) *)

Module Filepath.

Definition Separator : ascii := "/"%char.

Definition IsPathSeparator (c : ascii) : bool := Ascii.eqb c Separator.

Arguments IsPathSeparator : simpl never.

(** [r == n || IsPathSeparator(path[r])], for the suffix [path[r:]]. *)
Definition endOrSep (s : string) : bool :=
  match s with
  | EmptyString => true
  | String c _ => IsPathSeparator c
  end.

(** [path[r] == '.' && (r+1 == n || IsPathSeparator(path[r+1]))] *)
Definition isDot (s : string) : bool :=
  match s with
  | String c s1 => Ascii.eqb c "."%char && endOrSep s1
  | EmptyString => false
  end.

(** [path[r] == '.' && path[r+1] == '.' &&
     (r+2 == n || IsPathSeparator(path[r+2]))]; it is only evaluated
    when [isDot] failed, so [path[r+1]] exists whenever [path[r]] is a
    dot. *)
Definition isDotDot (s : string) : bool :=
  match s with
  | String c (String c1 s2) =>
      Ascii.eqb c "."%char && Ascii.eqb c1 "."%char && endOrSep s2
  | _ => false
  end.

(** The [lazybuf] of [Clean]: the [w] bytes written so far, the last
    one written first, so that [append] is a cons and [out.w] is the
    length. *)
Definition lazybuf := list ascii.

(** [for ; r < n && !IsPathSeparator(path[r]); r++ { out.append(path[r]) }] *)
Fixpoint copyElement (path : string) (out : lazybuf) : string * lazybuf :=
  match path with
  | EmptyString => (path, out)
  | String c path' =>
      if IsPathSeparator c then (path, out)
      else copyElement path' (c :: out)
  end.

(** [out.w--; for out.w > dotdot && !IsPathSeparator(out.index(out.w)) { out.w-- }].
    The argument holds the bytes [0..w] of the buffer (the byte at
    index [w] is its head); the result holds the bytes [0..w-1] at the
    exit of the loop. *)
Fixpoint backtrack (dotdot : nat) (buf : lazybuf) : lazybuf :=
  match buf with
  | [] => []
  | c :: buf' =>
      if (dotdot <? List.length buf')%nat && negb (IsPathSeparator c)
      then backtrack dotdot buf'
      else buf'
  end.

(** The main loop of [Clean], [for r < n { switch ... }], on the
    suffix [path[r:]].  Every iteration reads at least one byte, so
    [n] iterations are enough; [fuel] counts them. *)
Fixpoint cleanLoop (fuel : nat) (rooted : bool) (path : string)
         (out : lazybuf) (dotdot : nat) : lazybuf :=
  match fuel with
  | 0 => out
  | S fuel' =>
      match path with
      | EmptyString => out
      | String c path1 =>
          if IsPathSeparator c then
            (* empty path element *)
            cleanLoop fuel' rooted path1 out dotdot
          else if isDot path then
            (* . element *)
            cleanLoop fuel' rooted path1 out dotdot
          else if isDotDot path then
            (* .. element: remove to last separator *)
            let path2 := Str.tail path1 in
            if (dotdot <? List.length out)%nat then
              (* can backtrack *)
              cleanLoop fuel' rooted path2 (backtrack dotdot out) dotdot
            else if negb rooted then
              (* cannot backtrack, but not rooted, so append .. element *)
              let out1 :=
                if (0 <? List.length out)%nat then Separator :: out else out in
              let out2 := "."%char :: "."%char :: out1 in
              cleanLoop fuel' rooted path2 out2 (List.length out2)
            else
              cleanLoop fuel' rooted path2 out dotdot
          else
            (* real path element; add slash if needed *)
            let out1 :=
              if (rooted && negb (List.length out =? 1)%nat)
                 || (negb rooted && negb (List.length out =? 0)%nat)
              then Separator :: out else out in
            let '(path', out2) := copyElement path out1 in
            cleanLoop fuel' rooted path' out2 dotdot
      end
  end.

Definition Clean (path : string) : string :=
  match path with
  | EmptyString => "."
  | String c path1 =>
      let n := String.length path in
      let out :=
        if IsPathSeparator c
        then cleanLoop n true path1 [Separator] 1
        else cleanLoop n false path [] 0 in
      (* Turn empty string into "." *)
      let out := match out with [] => ["."%char] | _ => out end in
      Str.of_rev out
  end.

Fixpoint dropSeps (l : list ascii) : list ascii :=
  match l with
  | c :: l' => if IsPathSeparator c then dropSeps l' else l
  | [] => []
  end.

Fixpoint takeElement (l : list ascii) : list ascii :=
  match l with
  | c :: l' => if IsPathSeparator c then [] else c :: takeElement l'
  | [] => []
  end.

(** [Base]: the bytes are scanned from the end, as the source does. *)
Definition Base (path : string) : string :=
  if (path =? "")%string then "." else
  (* Strip trailing slashes. *)
  let p := dropSeps (Str.rev_onto path []) in
  (* Find the last element *)
  let e := takeElement p in
  (* If empty now, it had only slashes. *)
  match e with
  | [] => String Separator EmptyString
  | _ => Str.of_rev e
  end.

(** [Join], for the two-element call [Join(path, name)] of [walkDir]:
    the first non-empty element starts the joined string. *)
Definition Join (a b : string) : string :=
  if (a =? "")%string then
    if (b =? "")%string then "" else Clean b
  else Clean (a ++ String Separator b)%string.

(** [for bi < bl && base[bi] != Separator { bi++ }]: the element
    [s[0:i]] and the rest [s[i:]]. *)
Fixpoint spanElement (s : string) : string * string :=
  match s with
  | EmptyString => (EmptyString, EmptyString)
  | String c s' =>
      if IsPathSeparator c then (EmptyString, s)
      else let '(e, r) := spanElement s' in (String c e, r)
  end.

(** The loop of [Rel] that positions [base[b0:bi]] and [targ[t0:ti]]
    at the first differing elements.  Its arguments are [base[b0:]]
    and [targ[t0:]] ([b0 = bi] and [t0 = ti] at the head of the loop);
    it returns [base[b0:bi]], [base[b0:]] and [targ[t0:]] at the
    exit. *)
Fixpoint relLoop (fuel : nat) (base targ : string)
  : string * string * string :=
  match fuel with
  | 0 => (EmptyString, base, targ)
  | S fuel' =>
      if (base =? "")%string || (targ =? "")%string
      then (EmptyString, base, targ)
      else
        let '(be, brest) := spanElement base in
        let '(te, trest) := spanElement targ in
        if negb (te =? be)%string then (be, base, targ)
        else relLoop fuel' (Str.tail brest) (Str.tail trest)
  end.

Fixpoint countSeps (s : string) : nat :=
  match s with
  | EmptyString => 0
  | String c s' => (if IsPathSeparator c then 1 else 0) + countSeps s'
  end.

Fixpoint upDirs (seps : nat) : string :=
  match seps with
  | 0 => ""
  | S k => (String Separator ".." ++ upDirs k)%string
  end.

(** [Rel]: [inl] is the relative path, [inr tt] the error
    "Rel: can't make targpath relative to basepath". *)
Definition Rel (basepath targpath : string) : string + unit :=
  let base := Clean basepath in
  let targ := Clean targpath in
  if (targ =? base)%string then inl "." else
  let base := if (base =? ".")%string then "" else base in
  let baseSlashed :=
    match base with String c _ => IsPathSeparator c | _ => false end in
  let targSlashed :=
    match targ with String c _ => IsPathSeparator c | _ => false end in
  if negb (Bool.eqb baseSlashed targSlashed) then inr tt else
  let '(be, b0, t0) := relLoop (S (String.length base)) base targ in
  if (be =? "..")%string then inr tt else
  if negb (b0 =? "")%string then
    (* Base elements left. Must go up before going down. *)
    let seps := countSeps b0 in
    inl (".." ++ upDirs seps ++
         (if negb (t0 =? "") then String Separator t0 else ""))%string
  else inl t0.

End Filepath.

(** ** Path elements: what [Clean] computes

    A cleaned path is kept as a stack of elements, the last element on
    top; [bufOf] is the buffer content of such a stack and [eltStep] the
    effect of one element of the input on it. *)

Module PathElems.
Import Filepath.

Definition sepfree (s : string) : bool := negb (Str.has Separator s).

(** A file name: not empty, not a dot marker, no separator. *)
Definition is_name (s : string) : bool :=
  negb (s =? "")%string && negb (s =? ".")%string
  && negb (s =? "..")%string && sepfree s.

Definition eltStep (rooted : bool) (st : list string) (t : string)
  : list string :=
  if (t =? "")%string || (t =? ".")%string then st
  else if (t =? "..")%string then
    match st with
    | top :: rest =>
        if (top =? "..")%string then (if rooted then st else t :: st)
        else rest
    | [] => if rooted then [] else [t]
    end
  else t :: st.

Definition rootBuf (rooted : bool) : lazybuf :=
  if rooted then [Separator] else [].

Fixpoint bufOf (rooted : bool) (st : list string) : lazybuf :=
  match st with
  | [] => rootBuf rooted
  | e :: st' =>
      Str.rev_onto e
        match st' with
        | [] => rootBuf rooted
        | _ => Separator :: bufOf rooted st'
        end
  end.

Definition upsOnly (st : list string) : bool :=
  forallb (fun e => (e =? "..")%string) st.

(** Names on top of [..] elements, and no [..] under a root. *)
Fixpoint stack_ok (rooted : bool) (st : list string) : bool :=
  match st with
  | [] => true
  | e :: st' =>
      (is_name e && stack_ok rooted st')
      || ((e =? "..")%string && negb rooted && upsOnly st')
  end.

Fixpoint upsPart (st : list string) : list string :=
  match st with
  | [] => []
  | e :: st' => if (e =? "..")%string then st else upsPart st'
  end.

Definition dotdotOf (rooted : bool) (st : list string) : nat :=
  List.length (bufOf rooted (upsPart st)).

(** The string of a stack; the empty relative stack is ["."]. *)
Definition render (rooted : bool) (st : list string) : string :=
  match bufOf rooted st with
  | [] => "."
  | out => Str.of_rev out
  end.

(** The elements of a path: the pieces between separators. *)
Fixpoint tokens (s : string) : list string :=
  match s with
  | EmptyString => [EmptyString]
  | String c s' =>
      if IsPathSeparator c then EmptyString :: tokens s'
      else match tokens s' with
           | t :: ts => String c t :: ts
           | [] => [String c EmptyString]
           end
  end.

Definition isRooted (s : string) : bool :=
  match s with
  | String c _ => IsPathSeparator c
  | EmptyString => false
  end.

Definition cleanStack (rooted : bool) (ts : list string) : list string :=
  fold_left (eltStep rooted) ts [].

(** [Clean] on the elements of its argument. *)
Definition cleanSem (s : string) : string :=
  render (isRooted s) (cleanStack (isRooted s) (tokens s)).

Definition slash : string := String Separator EmptyString.

Definition rootStr (rooted : bool) : string := if rooted then slash else "".

(** An element of a cleaned path. *)
Definition elem_ok (e : string) : Prop := e <> "" /\ sepfree e = true.

End PathElems.


(** ** Errors

    The error values that reach [Zip]: its own ["invalid path"], the
    errors of the system calls, of [Rel] and of the archive writer, and
    the two sentinels of [fs.WalkDirFunc]. *)

Inductive error : Type :=
| ErrInvalidPath   (* errors.New("invalid path") *)
| ErrNotExist      (* ENOENT *)
| ErrPermission    (* EACCES *)
| ErrIsDir         (* EISDIR *)
| ErrNotDir        (* ENOTDIR *)
| ErrNotEmpty      (* ENOTEMPTY *)
| ErrIO            (* a read or a write failed: EIO, ENOSPC, ... *)
| ErrRel           (* Rel: can't make targpath relative to basepath *)
| SkipDir          (* fs.SkipDir *)
| SkipAll.         (* fs.SkipAll *)

Definition isSkipDir (e : error) : bool :=
  match e with SkipDir => true | _ => false end.

Definition isSkipAll (e : error) : bool :=
  match e with SkipAll => true | _ => false end.

Inductive result (A : Type) : Type :=
| Ok (a : A)
| Err (e : error).

Arguments Ok {A} a.
Arguments Err {A} e.

(** ** The file system

    A tree: a file holds its bytes, a directory its entries by name,
    as a list in the order the directory keeps them ([os.ReadDir] sorts
    them).  The two flags are the read and write permission of the calling
    process on the node.  There are no symbolic links, and the search
    permission on directories is not modelled. *)

Module Fs.

Unset Elimination Schemes.

Inductive node : Type :=
| File (readable writable : bool) (data : list Byte.byte)
| Dir (readable writable : bool) (entries : list (string * node)).

Set Elimination Schemes.

(** Induction on a tree, with the property on every entry of a
    directory. *)
Fixpoint node_ind (P : node -> Prop)
         (HF : forall r w data, P (File r w data))
         (HD : forall r w es, Forall (fun e => P (snd e)) es -> P (Dir r w es))
         (n : node) {struct n} : P n :=
  match n with
  | File r w data => HF r w data
  | Dir r w es =>
      HD r w es
        ((fix all (l : list (string * node)) : Forall (fun e => P (snd e)) l :=
            match l with
            | [] => Forall_nil _
            | e :: l' => Forall_cons e (node_ind P HF HD (snd e)) (all l')
            end) es)
  end.

Definition isDir (n : node) : bool :=
  match n with Dir _ _ _ => true | File _ _ _ => false end.

Fixpoint lookupEntry {X : Type} (name : string) (es : list (string * X))
  : option X :=
  match es with
  | [] => None
  | (n, x) :: es' => if (n =? name)%string then Some x else lookupEntry name es'
  end.

(** Replace the entry [name], or add it. *)
Fixpoint setEntry {X : Type} (name : string) (x : X) (es : list (string * X))
  : list (string * X) :=
  match es with
  | [] => [(name, x)]
  | (n, y) :: es' =>
      if (n =? name)%string then (n, x) :: es' else (n, y) :: setEntry name x es'
  end.

Fixpoint removeEntry {X : Type} (name : string) (es : list (string * X))
  : list (string * X) :=
  match es with
  | [] => []
  | (n, y) :: es' =>
      if (n =? name)%string then es' else (n, y) :: removeEntry name es'
  end.

(** The node at a path given by its elements, from [n] down. *)
Fixpoint find (n : node) (p : list string) : option node :=
  match p with
  | [] => Some n
  | x :: p' =>
      match n with
      | Dir _ _ es =>
          match lookupEntry x es with
          | Some c => find c p'
          | None => None
          end
      | File _ _ _ => None
      end
  end.

(** [open(p, O_RDWR|O_CREATE|O_TRUNC, 0666)]: an existing file is
    truncated when it can be read and written; a new one is made in a
    writable directory. *)
Fixpoint create (n : node) (p : list string) : result node :=
  match n with
  | File _ _ _ => Err ErrNotDir
  | Dir r w es =>
      match p with
      | [] => Err ErrIsDir
      | x :: p' =>
          match p' with
          | [] =>
              match lookupEntry x es with
              | Some (File fr fw _) =>
                  if fr && fw
                  then Ok (Dir r w (setEntry x (File fr fw []) es))
                  else Err ErrPermission
              | Some (Dir _ _ _) => Err ErrIsDir
              | None =>
                  if w then Ok (Dir r w (setEntry x (File true true []) es))
                  else Err ErrPermission
              end
          | _ :: _ =>
              match lookupEntry x es with
              | Some c =>
                  match create c p' with
                  | Ok c' => Ok (Dir r w (setEntry x c' es))
                  | Err e => Err e
                  end
              | None => Err ErrNotExist
              end
          end
      end
  end.

(** The bytes of the file at [p] replaced by [data]; [None] when there
    is no file at [p]. *)
Fixpoint setData (n : node) (p : list string) (data : list Byte.byte)
  : option node :=
  match p with
  | [] =>
      match n with
      | File r w _ => Some (File r w data)
      | Dir _ _ _ => None
      end
  | x :: p' =>
      match n with
      | Dir r w es =>
          match lookupEntry x es with
          | Some c =>
              match setData c p' data with
              | Some c' => Some (Dir r w (setEntry x c' es))
              | None => None
              end
          | None => None
          end
      | File _ _ _ => None
      end
  end.

(** [unlink(p)], or [rmdir(p)] for an empty directory: the directory
    that holds the entry must be writable. *)
Fixpoint remove (n : node) (p : list string) : result node :=
  match n with
  | File _ _ _ => Err ErrNotDir
  | Dir r w es =>
      match p with
      | [] => Err ErrPermission
      | x :: p' =>
          match lookupEntry x es with
          | None => Err ErrNotExist
          | Some c =>
              match p' with
              | [] =>
                  match c with
                  | Dir _ _ (_ :: _) => Err ErrNotEmpty
                  | _ =>
                      if w then Ok (Dir r w (removeEntry x es))
                      else Err ErrPermission
                  end
              | _ :: _ =>
                  match remove c p' with
                  | Ok c' => Ok (Dir r w (setEntry x c' es))
                  | Err e => Err e
                  end
              end
          end
      end
  end.

Fixpoint insertByName {X : Type} (e : string * X) (l : list (string * X))
  : list (string * X) :=
  match l with
  | [] => [e]
  | e' :: l' =>
      if String.leb (fst e) (fst e') then e :: l
      else e' :: insertByName e l'
  end.

(** Entries sorted by file name, as [os.ReadDir] returns them. *)
Fixpoint sortByName {X : Type} (l : list (string * X)) : list (string * X) :=
  match l with
  | [] => []
  | e :: l' => insertByName e (sortByName l')
  end.

(** The relative paths (as elements) of the files in and below [n], a
    directory's entries taken in the order of their names; a file is
    at the empty relative path of itself. *)
Fixpoint filesBelow (n : node) : list (list string) :=
  match n with
  | File _ _ _ => [[]]
  | Dir _ _ es =>
      flat_map (fun e => map (cons (fst e)) (snd e))
        (sortByName (map (fun e => (fst e, filesBelow (snd e))) es))
  end.

(** The order of relative paths: element by element, an element by
    the order of strings; a path comes before its extensions. *)
Fixpoint lexLt (p q : list string) : bool :=
  match p, q with
  | [], [] => false
  | [], _ :: _ => true
  | _ :: _, [] => false
  | x :: p', y :: q' =>
      if (x =? y)%string then lexLt p' q' else String.ltb x y
  end.

(** [lexLt] as a relation. *)
Definition lexOrder (p q : list string) : Prop := lexLt p q = true.

(** Entries by name: not after, and strictly before. *)
Definition nameLe {X : Type} (e e' : string * X) : Prop :=
  String.leb (fst e) (fst e') = true.

Definition nameLt {X : Type} (e e' : string * X) : Prop :=
  String.ltb (fst e) (fst e') = true.

(** Every directory in and below [n] can be listed. *)
Fixpoint listable (n : node) : bool :=
  match n with
  | File _ _ _ => true
  | Dir r _ es => r && forallb (fun e => listable (snd e)) es
  end.

(** Every file in and below [n] can be read. *)
Fixpoint readableFiles (n : node) : bool :=
  match n with
  | File r _ _ => r
  | Dir _ _ es => forallb (fun e => readableFiles (snd e)) es
  end.

Fixpoint uniqueNames {X : Type} (es : list (string * X)) : bool :=
  match es with
  | [] => true
  | (n, _) :: es' =>
      match lookupEntry n es' with
      | Some _ => false
      | None => uniqueNames es'
      end
  end.

(** No directory in or below [n] has two entries of one name. *)
Fixpoint uniq (n : node) : bool :=
  match n with
  | File _ _ _ => true
  | Dir _ _ es => uniqueNames es && forallb (fun e => uniq (snd e)) es
  end.

(** A well-formed tree: entry names are file names and no directory
    has two entries of one name. *)
Fixpoint wf (n : node) : bool :=
  match n with
  | File _ _ _ => true
  | Dir _ _ es =>
      forallb (fun e => PathElems.is_name (fst e) && wf (snd e)) es
      && uniqueNames es
  end.

(** There is a file at [rel] below [n]. *)
Definition isFileAt (n : node) (rel : list string) : Prop :=
  exists r w d, find n rel = Some (File r w d).

End Fs.

(** ** Package os, and the directory walk of path/filepath

    The state of a call is the tree, the working directory of the
    process and the system calls made so far.  A path is resolved
    element by element from the root or from the working directory. *)

Module Os.
Import Filepath PathElems.

Inductive event : Type :=
| EvLstat (path : string)
| EvReadDir (path : string)
| EvCreate (path : string)
| EvOpen (path : string)
| EvClose (path : string)
| EvRemove (path : string).

Record world : Type := {
  root : Fs.node;
  cwd : list string;
  trace : list event
}.

Definition log (e : event) (w : world) : world :=
  {| root := root w; cwd := cwd w; trace := trace w ++ [e] |}.

Definition withRoot (n : Fs.node) (w : world) : world :=
  {| root := n; cwd := cwd w; trace := trace w |}.

Definition withTrace (tr : list event) (w : world) : world :=
  {| root := root w; cwd := cwd w; trace := tr |}.

(** One element of a path during resolution; the directory reached so
    far is a stack of names, the innermost on top. *)
Definition nameiStep (st : list string) (t : string) : list string :=
  if (t =? "")%string || (t =? ".")%string then st
  else if (t =? "..")%string then List.tl st
  else t :: st.

(** The elements, from the root, of the node that [path] names. *)
Definition resolve (w : world) (path : string) : list string :=
  rev (fold_left nameiStep (tokens path)
         (if isRooted path then [] else rev (cwd w))).

Definition stat (w : world) (path : string) : option Fs.node :=
  Fs.find (root w) (resolve w path).

(** An open file: the name it was opened under and the node it is. *)
Record file : Type := {
  fname : string;
  fnode : list string
}.

Definition Lstat (path : string) (w : world) : result Fs.node * world :=
  let w1 := log (EvLstat path) w in
  match stat w path with
  | Some n => (Ok n, w1)
  | None => (Err ErrNotExist, w1)
  end.

Definition Create (path : string) (w : world) : result file * world :=
  let w1 := log (EvCreate path) w in
  match Fs.create (root w) (resolve w path) with
  | Ok n => (Ok {| fname := path; fnode := resolve w path |}, withRoot n w1)
  | Err e => (Err e, w1)
  end.

Definition Open (path : string) (w : world) : result file * world :=
  let w1 := log (EvOpen path) w in
  match stat w path with
  | Some (Fs.File r _ _) =>
      if r then (Ok {| fname := path; fnode := resolve w path |}, w1)
      else (Err ErrPermission, w1)
  | Some (Fs.Dir r _ _) =>
      if r then (Ok {| fname := path; fnode := resolve w path |}, w1)
      else (Err ErrPermission, w1)
  | None => (Err ErrNotExist, w1)
  end.

Definition Close (f : file) (w : world) : world := log (EvClose (fname f)) w.

Definition Remove (path : string) (w : world) : result unit * world :=
  let w1 := log (EvRemove path) w in
  match Fs.remove (root w) (resolve w path) with
  | Ok n => (Ok tt, withRoot n w1)
  | Err e => (Err e, w1)
  end.

(** Everything an open file holds, read to the end. *)
Definition readAll (f : file) (w : world) : result (list Byte.byte) :=
  match Fs.find (root w) (fnode f) with
  | Some (Fs.File _ _ data) => Ok data
  | Some (Fs.Dir _ _ _) => Err ErrIsDir
  | None => Err ErrIO
  end.

(** The bytes of an open file replaced by [data]. *)
Definition writeAll (f : file) (data : list Byte.byte) (w : world) : world :=
  match Fs.setData (root w) (fnode f) data with
  | Some n => withRoot n w
  | None => w
  end.

Record DirEntry : Type := {
  Name : string;
  IsDir : bool
}.

Definition WalkDirFunc (A : Type) : Type :=
  string -> option DirEntry -> option error -> A -> option error * A.

(** The walk of one node, once the node is known: path, state of the
    callback and trace in, error, state and trace out. *)
Definition walker (A : Type) : Type :=
  string -> A -> list event -> option error * A * list event.

(** [for _, d1 := range dirs { ... walkDir(path1, d1, walkDirFn) ... }] *)
Fixpoint walkEntries {A : Type} (path : string)
         (dirs : list (string * walker A)) (acc : A) (tr : list event)
  : option error * A * list event :=
  match dirs with
  | [] => (None, acc, tr)
  | (name, walk1) :: dirs' =>
      let path1 := Join path name in
      match walk1 path1 acc tr with
      | (Some err, acc1, tr1) =>
          if isSkipDir err then (None, acc1, tr1) (* break *)
          else (Some err, acc1, tr1)
      | (None, acc1, tr1) => walkEntries path dirs' acc1 tr1
      end
  end.

(** [walkDir(path, d, walkDirFn)], where [n] is the node at [path]: the
    directory that [os.ReadDir(path)] lists is the one the walk has
    reached, its entries sorted by name. *)
Fixpoint walkDir {A : Type} (fn : WalkDirFunc A) (name : string)
         (n : Fs.node) {struct n} : walker A :=
  fun path acc tr =>
    let d := {| Name := name; IsDir := Fs.isDir n |} in
    match fn path (Some d) None acc with
    | (Some err, acc1) =>
        if isSkipDir err && IsDir d then (None, acc1, tr)
        else (Some err, acc1, tr)
    | (None, acc1) =>
        match n with
        | Fs.File _ _ _ => (None, acc1, tr)
        | Fs.Dir r _ es =>
            let tr1 := tr ++ [EvReadDir path] in
            if r then
              walkEntries path
                (Fs.sortByName
                   (map (fun e => (fst e, walkDir fn (fst e) (snd e))) es))
                acc1 tr1
            else
              (* Second call, to report ReadDir error. *)
              match fn path (Some d) (Some ErrPermission) acc1 with
              | (Some err, acc2) =>
                  if isSkipDir err then (None, acc2, tr1)
                  else (Some err, acc2, tr1)
              | (None, acc2) => (None, acc2, tr1)
              end
        end
    end.

Definition WalkDir {A : Type} (rootPath : string) (fn : WalkDirFunc A)
           (acc : A) (w : world) : option error * A * world :=
  let '(err, acc1, w1) :=
    match Lstat rootPath w with
    | (Err e, w1) =>
        let '(err, acc1) := fn rootPath None (Some e) acc in (err, acc1, w1)
    | (Ok n, w1) =>
        let '(err, acc1, tr) :=
          walkDir fn (Base rootPath) n rootPath acc (trace w1) in
        (err, acc1, withTrace tr w1)
    end in
  match err with
  | Some e =>
      if isSkipDir e || isSkipAll e then (None, acc1, w1)
      else (Some e, acc1, w1)
  | None => (None, acc1, w1)
  end.

End Os.

(** ** Package archive/zip: the writer

    The writer keeps the entries made so far, the current one last.
    What the model leaves open about the package and the device under
    it is in [zipenv]: the bytes of a finalized archive, and which of
    the writer's operations fail.  The bytes reach the file when the
    writer is closed: buffered output that is flushed earlier is not
    modelled. *)

Module ArchiveZip.

Definition entry : Type := (string * list Byte.byte)%type.

Record zipenv : Type := {
  encode : list entry -> list Byte.byte;
  createFails : string -> bool;   (* by entry name *)
  copyFails : string -> bool;     (* by name of the source file *)
  closeFails : bool
}.

Record Writer : Type := {
  dest : Os.file;
  entries : list entry
}.

Definition NewWriter (f : Os.file) : Writer :=
  {| dest := f; entries := [] |}.

(** [zipw.Create(name)] *)
Definition Create (env : zipenv) (name : string) (zw : Writer)
  : result Writer :=
  if createFails env name then Err ErrIO
  else Ok {| dest := dest zw; entries := entries zw ++ [(name, [])] |}.

Definition appendLast (data : list Byte.byte) (es : list entry) : list entry :=
  match rev es with
  | [] => []
  | (name, d) :: es' => rev es' ++ [(name, d ++ data)]
  end.

(** [io.Copy(zw, f)] into the current entry. *)
Definition Copy (env : zipenv) (zw : Writer) (f : Os.file) (w : Os.world)
  : result Writer :=
  match Os.readAll f w with
  | Err e => Err e
  | Ok data =>
      if copyFails env (Os.fname f) then Err ErrIO
      else Ok {| dest := dest zw; entries := appendLast data (entries zw) |}
  end.

(** [zipw.Close()]: the central directory is written and the buffer
    flushed to the file. *)
Definition Close (env : zipenv) (zw : Writer) (w : Os.world)
  : option error * Os.world :=
  if closeFails env then (Some ErrIO, w)
  else (None, Os.writeAll (dest zw) (encode env (entries zw)) w).

End ArchiveZip.

(** ** Package zipper *)

(** What a call of [Zip] comes to: [return dstPath, nil],
    [return "", err], or a panic. *)
Inductive outcome : Type :=
| Success (archive : string)
| Failure (err : error)
| Panicked (err : error).

(** The callback of the walk: [files] is the variable it appends to.
    [WalkDir] passes no entry only together with an error. *)
Definition collect : Os.WalkDirFunc (list string) :=
  fun path d err files =>
    match err with
    | Some e => (Some e, files)
    | None =>
        match d with
        | Some d =>
            if Os.IsDir d then (None, files) else (None, files ++ [path])
        | None => (None, files)
        end
    end.

Definition invalidBase (dstPath : string) : bool :=
  (dstPath =? "")%string || (dstPath =? ".")%string || (dstPath =? "..")%string.

(** *** src/zipper.go *)

Module ZipperGo.
Import Filepath.

(** [for _, file := range files { ... }]; [opened] are the files whose
    [Close] is deferred, the last one first. *)
Fixpoint addFiles (env : ArchiveZip.zipenv) (files : list string)
         (zipw : ArchiveZip.Writer) (opened : list Os.file) (w : Os.world)
  : option error * ArchiveZip.Writer * list Os.file * Os.world :=
  match files with
  | [] => (None, zipw, opened, w)
  | file :: files' =>
      (* open file for reading *)
      match Os.Open file w with
      | (Err err, w1) => (Some err, zipw, opened, w1)
      | (Ok f, w1) =>
          let opened1 := f :: opened in
          (* create new file in zip *)
          match ArchiveZip.Create env file zipw with
          | Err err => (Some err, zipw, opened1, w1)
          | Ok zipw1 =>
              (* copy contents *)
              match ArchiveZip.Copy env zipw1 f w1 with
              | Err err => (Some err, zipw1, opened1, w1)
              | Ok zipw2 => addFiles env files' zipw2 opened1 w1
              end
          end
      end
  end.

Definition closeAll (opened : list Os.file) (w : Os.world) : Os.world :=
  fold_left (fun w f => Os.Close f w) opened w.

(** [Zip] from [os.Create] on, the deferred calls included. *)
Definition writeArchive (env : ArchiveZip.zipenv) (dstPath : string)
           (files : list string) (w1 : Os.world) : outcome * Os.world :=
  (* create new file *)
  match Os.Create dstPath w1 with
  | (Err err, w2) => (Failure err, w2)
  | (Ok zipFile, w2) =>
      (* create new zip writer *)
      let zipw := ArchiveZip.NewWriter zipFile in
      (* loop files in directory *)
      let '(err, zipw1, opened, w3) := addFiles env files zipw [] w2 in
      (* the deferred calls, last in first out *)
      let w4 := closeAll opened w3 in
      let '(_, w5) := ArchiveZip.Close env zipw1 w4 in
      let w6 := Os.Close zipFile w5 in
      match err with
      | None => (* completed *) (Success dstPath, w6)
      | Some err =>
          match Os.Remove dstPath w6 with
          | (Err rmErr, w7) => (Panicked rmErr, w7)
          | (Ok _, w7) => (Failure err, w7)
          end
      end
  end.

Definition Zip (env : ArchiveZip.zipenv) (inPath : string) (w : Os.world)
  : outcome * Os.world :=
  (* short validation on path *)
  let inPath := Clean inPath in
  if (inPath =? ".")%string || (inPath =? "..")%string
  then (Failure ErrInvalidPath, w) else
  let dstPath := Base inPath in
  if invalidBase dstPath then (Failure ErrInvalidPath, w) else
  (* collect all files in the path recursively *)
  match Os.WalkDir inPath collect [] w with
  | (Some err, _, w1) => (Failure err, w1)
  | (None, files, w1) =>
      let dstPath := (dstPath ++ ".zip")%string in
      writeArchive env dstPath files w1
  end.

End ZipperGo.

(** *** src/unnamed/part_000 *)

Module Part000.
Import Filepath.

(** The body of the function literal: every file is closed before the
    next one is opened; [zipw.Close()] ends it. *)
Fixpoint addFiles (env : ArchiveZip.zipenv) (inPath : string)
         (files : list string) (zipw : ArchiveZip.Writer) (w : Os.world)
  : option error * Os.world :=
  match files with
  | [] => ArchiveZip.Close env zipw w
  | file :: files' =>
      match Os.Open file w with
      | (Err err, w1) => (Some err, w1)
      | (Ok f, w1) =>
          match Rel inPath file with
          | inr _ => (Some ErrRel, Os.Close f w1)
          | inl relPath =>
              match ArchiveZip.Create env relPath zipw with
              | Err err => (Some err, Os.Close f w1)
              | Ok zipw1 =>
                  match ArchiveZip.Copy env zipw1 f w1 with
                  | Err err => (Some err, Os.Close f w1)
                  | Ok zipw2 =>
                      addFiles env inPath files' zipw2 (Os.Close f w1)
                  end
              end
          end
      end
  end.

(** [Zip] from [os.Create] on, the deferred call included. *)
Definition writeArchive (env : ArchiveZip.zipenv) (inPath dstPath : string)
           (files : list string) (w1 : Os.world) : outcome * Os.world :=
  (* create new file *)
  match Os.Create dstPath w1 with
  | (Err err, w2) => (Failure err, w2)
  | (Ok zipFile, w2) =>
      (* create new zip writer *)
      let zipw := ArchiveZip.NewWriter zipFile in
      let '(err, w3) := addFiles env inPath files zipw w2 in
      (* the deferred call *)
      let w4 := Os.Close zipFile w3 in
      match err with
      | None => (* completed *) (Success dstPath, w4)
      | Some err =>
          let '(_, w5) := Os.Remove dstPath w4 in
          (Failure err, w5)
      end
  end.

Definition Zip (env : ArchiveZip.zipenv) (inPath : string) (w : Os.world)
  : outcome * Os.world :=
  (* short validation on path *)
  let inPath := Clean inPath in
  if (inPath =? ".")%string || (inPath =? "..")%string
  then (Failure ErrInvalidPath, w) else
  let dstPath := Base inPath in
  if invalidBase dstPath then (Failure ErrInvalidPath, w) else
  let dstPath := (dstPath ++ ".zip")%string in
  (* collect all files in the path recursively *)
  match Os.WalkDir inPath collect [] w with
  | (Some err, _, w1) => (Failure err, w1)
  | (None, files, w1) => writeArchive env inPath dstPath files w1
  end.

End Part000.

(** ** Notions used to state what the walk and [Zip] do *)

Module ZipSpec.
Import Filepath PathElems Fs Os.

(** The system calls of the walk. *)
Definition isWalkEvent (e : event) : bool :=
  match e with
  | EvLstat _ | EvReadDir _ => true
  | _ => false
  end.

(** What the walk returns: the error of the first directory that
    cannot be listed, if there is one. *)
Definition walkErr (ok : bool) : option error :=
  if ok then None else Some ErrPermission.

(** The walked path of the file at [rel] below the root [render rooted st]. *)
Definition pathBelow (rooted : bool) (st rel : list string) : string :=
  render rooted (rev rel ++ st).

(** What [walkDir] does with the callback of [Zip] at a node reached
    under a cleaned path. *)
Definition walkSpec (n : node) : Prop :=
  forall name rooted st acc tr,
    stack_ok rooted st = true -> st <> [] \/ rooted = true ->
    exists acc' evs,
      walkDir collect name n (render rooted st) acc tr
      = (walkErr (listable n), acc', tr ++ evs)
      /\ forallb isWalkEvent evs = true
      /\ (listable n = true ->
          acc' = acc ++ map (pathBelow rooted st) (filesBelow n)).

(** The name of the archive. *)
Definition dstOf (inPath : string) : string :=
  (Base (Clean inPath) ++ ".zip")%string.

(** The input passes the validation of [Zip]. *)
Definition valid (inPath : string) : bool :=
  negb ((Clean inPath =? ".")%string || (Clean inPath =? "..")%string)
  && negb (invalidBase (Base (Clean inPath))).

(** The path that the walk reports for the file at [rel] below the
    input: every element joined in turn. *)
Definition walkedPath (inPath : string) (rel : list string) : string :=
  fold_left Join rel (Clean inPath).

(** The entry name that part_000 computes for the file at [rel]:
    [Rel] of the input to itself is the dot marker. *)
Definition relName (rel : list string) : string :=
  match rel with
  | [] => "."
  | _ => String.concat slash rel
  end.

(** A root directory followed by a separator, to put a relative path
    after it. *)
Definition dirPrefix (p : string) : string :=
  if (p =? slash)%string then slash else (p ++ slash)%string.

(** The bytes of the file at [rel] below [n]. *)
Definition dataBelow (n : node) (rel : list string) : list Byte.byte :=
  match find n rel with
  | Some (File _ _ d) => d
  | _ => []
  end.

(** The bytes of the file that [path] names. *)
Definition dataAt (w : world) (path : string) : list Byte.byte :=
  match stat w path with
  | Some (File _ _ d) => d
  | _ => []
  end.

(** [path] names a file that can be read. *)
Definition readableAt (w : world) (path : string) : bool :=
  match stat w path with
  | Some (File r _ _) => r
  | _ => false
  end.

(** Every other system call. *)
Definition notWalkEvent (e : event) : bool := negb (isWalkEvent e).

(** [os.Create(path)] would succeed. *)
Definition creatable (w : world) (path : string) : bool :=
  match Fs.create (root w) (resolve w path) with
  | Ok _ => true
  | Err _ => false
  end.

(** Two resolved paths name the same node. *)
Definition samePlace (p q : list string) : bool :=
  if list_eq_dec string_dec p q then true else false.

(** The archive that [Zip] would create is one of the files below the
    node [n] of its input. *)
Definition destAmong (w : world) (inPath : string) (n : node) : bool :=
  existsb
    (fun rel => samePlace (resolve w (Clean inPath) ++ rel)
                          (resolve w (dstOf inPath)))
    (filesBelow n).

(** The file at the place of the archive holds [data]. *)
Definition archiveIs (w : world) (place : list string)
           (data : list Byte.byte) : Prop :=
  exists r wr, find (root w) place = Some (File r wr data).

(** No operation of the archive writer fails. *)
Definition noFaults (env : ArchiveZip.zipenv) : Prop :=
  (forall s, ArchiveZip.createFails env s = false)
  /\ (forall s, ArchiveZip.copyFails env s = false)
  /\ ArchiveZip.closeFails env = false.

(** The elements of the input path after [Clean]. *)
Definition stackOf (inPath : string) : list string :=
  cleanStack (isRooted inPath) (tokens inPath).

(** Where resolution of a path starts. *)
Definition start (w : world) (rooted : bool) : list string :=
  if rooted then [] else rev (cwd w).

End ZipSpec.

(** ** The test cases of zipper_test.go, and a few more *)

Module TestData.
Import Fs Os ArchiveZip.

Definition bytes (s : string) : list Byte.byte := list_byte_of_string s.

(** A stand-in for the serialization: names and contents in a row. *)
Definition enc (es : list entry) : list Byte.byte :=
  flat_map (fun e => bytes (fst e) ++ bytes ":" ++ snd e ++ bytes ";") es.

Definition healthy : zipenv :=
  {| encode := enc;
     createFails := fun _ => false;
     copyFails := fun _ => false;
     closeFails := false |}.

Definition file (s : string) : node := File true true (bytes s).

Definition tmp : node :=
  Dir true true
    [ ("single", Dir true true [("test.txt", file "test content")]);
      ("nested", Dir true true
         [ ("subdir", Dir true true [("nested.txt", file "nested")]);
           ("root.txt", file "root") ]);
      ("empty", Dir true true []) ].

Definition disk : node :=
  Dir true true [ ("tmp", tmp); ("work", Dir true true []) ].

Definition w0 : world := {| root := disk; cwd := ["work"]; trace := [] |}.

(** A project directory that is the working directory and holds the
    archive of an earlier run. *)
Definition proj : node :=
  Dir true true [ ("a.txt", file "alpha"); ("proj.zip", file "old archive") ].

Definition wSelf : world :=
  {| root := Dir true true [ ("proj", proj) ]; cwd := ["proj"]; trace := [] |}.

(** A small file system zipped from its root. *)
Definition wRoot : world :=
  {| root := Dir true true
               [ ("etc", Dir true true [("motd", file "hi")]);
                 ("work", Dir true true []) ];
     cwd := ["work"]; trace := [] |}.

(** The writer fails when it is closed (the device is full). *)
Definition closeFailing : zipenv :=
  {| encode := enc;
     createFails := fun _ => false;
     copyFails := fun _ => false;
     closeFails := true |}.

(** Copying into the archive fails. *)
Definition copyFailing : zipenv :=
  {| encode := enc;
     createFails := fun _ => false;
     copyFails := fun _ => true;
     closeFails := false |}.

(** The working directory cannot be written, but it holds a writable
    archive of an earlier run; one source file cannot be read. *)
Definition wStuck : world :=
  {| root := Dir true true
               [ ("src", Dir true true
                    [ ("notes", file "n"); ("secret", File false true (bytes "s")) ]);
                 ("ro", Dir true false [ ("src.zip", file "stale") ]) ];
     cwd := ["ro"]; trace := [] |}.

Definition archiveAt (p : list string) (r : outcome * world)
  : option (list Byte.byte) :=
  match Fs.find (root (snd r)) p with
  | Some (File _ _ data) => Some data
  | _ => None
  end.

End TestData.

(** ** Where an error comes from *)

Module Errors.

(** The errors of the system calls and of the archive writer. *)
Definition fromSystem (e : error) : bool :=
  match e with
  | ErrNotExist | ErrPermission | ErrIsDir | ErrNotDir | ErrNotEmpty
  | ErrIO => true
  | _ => false
  end.

End Errors.

(** ** What a call leaves alone *)

Module Footprint.
Import Fs.

(** [p] is a prefix of [q], or [q] itself. *)
Fixpoint isPrefix (p q : list string) : bool :=
  match p, q with
  | [], _ => true
  | x :: p', y :: q' => (x =? y)%string && isPrefix p' q'
  | _ :: _, [] => false
  end.

(** Two trees agree everywhere but on the way to [place]: at a path
    that is neither [place] nor one of the directories above it, they
    hold the same node, or both none. *)
Definition sameOff (place : list string) (n n' : node) : Prop :=
  forall q, isPrefix q place = false -> find n' q = find n q.

(** [n'] is [n], or [n] with other bytes in the file at [place]. *)
Definition rewritten (place : list string) (n n' : node) : Prop :=
  n' = n \/ exists data, setData n place data = Some n'.

End Footprint.

(** ** src/cmd/zipper/main.go

    The command, from the value of its [-path] flag on: what package
    flag makes of the arguments is not modelled.  The package it
    imports is the one of src/zipper.go. *)

Module Cmd.
Import Os.

(** The texts that the run time and the operating system supply. *)
Record cmdenv : Type := {
  usage : string;                  (* what [flag.Usage()] prints *)
  errorText : error -> string;     (* [err.Error()] *)
  panicText : error -> string      (* the report of a panic *)
}.

Record exit : Type := {
  status : nat;
  stdout : string;
  stderr : string
}.

Definition nl : string := String (ascii_of_nat 10) EmptyString.

Definition main (env : ArchiveZip.zipenv) (cenv : cmdenv) (path : string)
           (w : world) : exit * world :=
  (* Validate required flag *)
  if (path =? "")%string then
    ({| status := 1; stdout := "";
        stderr := ("Error: -path flag is required" ++ nl ++ usage cenv)%string |},
     w)
  else
    (* Compress the path *)
    match ZipperGo.Zip env path w with
    | (Failure err, w') =>
        ({| status := 1; stdout := "";
            stderr := ("Error zipping " ++ path ++ ": " ++ errorText cenv err
                       ++ nl)%string |}, w')
    | (Panicked err, w') =>
        ({| status := 2; stdout := ""; stderr := panicText cenv err |}, w')
    | (Success zipPath, w') =>
        ({| status := 0;
            stdout := ("successfully created: " ++ zipPath ++ nl)%string;
            stderr := "" |}, w')
    end.

End Cmd.

(** ** src/zipper_test.go: [verifyZipContents]

    The helper only reads: its result is what it reports to the test.
    The reader of archive/zip is the function [decode] on the bytes of
    the archive file; an entry that cannot be opened or read on its own
    is not modelled. *)

Module ZipperTest.
Import Fs Os.

Record zipreader : Type := {
  decode : list Byte.byte -> option (list ArchiveZip.entry)
}.

Inductive failure : Type :=
| OpenZipFailed                  (* failed to open zip file *)
| WalkFailed (err : error)       (* failed to walk original directory *)
| Unexpected (name : string)     (* unexpected file in zip *)
| Mismatch (name : string)       (* content mismatch *)
| NotFound (path : string).      (* file not found in zip *)

(** [t.Fatalf] ends the helper; the failures of [t.Errorf] add up. *)
Inductive verdict : Type :=
| Fatal (f : failure)
| Errors (fs : list failure).

(** [os.ReadFile(path)] *)
Definition ReadFile (path : string) (w : world) : result (list Byte.byte) :=
  match Open path w with
  | (Err e, _) => Err e
  | (Ok f, w1) => readAll f w1
  end.

Definition sameBytes (a b : list Byte.byte) : bool :=
  if list_eq_dec Byte.byte_eq_dec a b then true else false.

(** The callback of the walk; [originalFiles] is the map it fills,
    here the list of its keys and values.  The walk changes nothing on
    disk, so that the file is read in the state [w] the walk began in.
    [WalkDir] passes no entry only together with an error. *)
Definition gather (w : world) : WalkDirFunc (list (string * list Byte.byte)) :=
  fun path d err originalFiles =>
    match err with
    | Some e => (Some e, originalFiles)
    | None =>
        match d with
        | Some d =>
            if IsDir d then (None, originalFiles)
            else
              match ReadFile path w with
              | Err e => (Some e, originalFiles)
              | Ok content => (None, setEntry path content originalFiles)
              end
        | None => (None, originalFiles)
        end
    end.

(** What the callback does with the file [f] when it reads [c f]. *)
Definition put (c : string -> list Byte.byte)
           (originalFiles : list (string * list Byte.byte)) (f : string)
  : list (string * list Byte.byte) :=
  setEntry f (c f) originalFiles.

(** [for _, f := range zr.File { ... }] *)
Fixpoint checkEntries (files : list ArchiveZip.entry)
         (originalFiles : list (string * list Byte.byte))
  : list failure * list (string * list Byte.byte) :=
  match files with
  | [] => ([], originalFiles)
  | (name, zipContent) :: files' =>
      match lookupEntry name originalFiles with
      | None =>
          let '(errs, rest) := checkEntries files' originalFiles in
          (Unexpected name :: errs, rest)
      | Some originalContent =>
          let errs0 :=
            if sameBytes zipContent originalContent then []
            else [Mismatch name] in
          let '(errs, rest) :=
            checkEntries files' (removeEntry name originalFiles) in
          (errs0 ++ errs, rest)
      end
  end.

(** [zip.OpenReader] is the file read and decoded.  The files that
    are left are reported in the order of the list; Go ranges over the
    map in an order of its own. *)
Definition verifyZipContents (rd : zipreader) (zipPath originalPath : string)
           (w : world) : verdict :=
  (* Open the zip file *)
  match ReadFile zipPath w with
  | Err _ => Fatal OpenZipFailed
  | Ok data =>
      match decode rd data with
      | None => Fatal OpenZipFailed
      | Some files =>
          (* Collect original files *)
          match WalkDir originalPath (gather w) [] w with
          | (Some err, _, _) => Fatal (WalkFailed err)
          | (None, originalFiles, _) =>
              (* Verify each file in the zip *)
              let '(errs, rest) := checkEntries files originalFiles in
              (* Check if any original files were not included in the zip *)
              Errors (errs ++ map (fun e => NotFound (fst e)) rest)
          end
      end
  end.

End ZipperTest.

(** ** A serialization that can be read back *)

Module Framed.
Import ArchiveZip.

(** A number as that many ones and a zero. *)
Definition encNat (n : nat) : list Byte.byte :=
  repeat Byte.x01 n ++ [Byte.x00].

(** Bytes after their number. *)
Definition encBytes (l : list Byte.byte) : list Byte.byte :=
  encNat (List.length l) ++ l.

Definition encEntry (e : entry) : list Byte.byte :=
  encBytes (list_byte_of_string (fst e)) ++ encBytes (snd e).

Definition enc (es : list entry) : list Byte.byte := flat_map encEntry es.

Fixpoint decNat (l : list Byte.byte) : option (nat * list Byte.byte) :=
  match l with
  | Byte.x00 :: r => Some (0, r)
  | Byte.x01 :: r =>
      match decNat r with
      | Some (n, r') => Some (S n, r')
      | None => None
      end
  | _ => None
  end.

Definition decBytes (l : list Byte.byte)
  : option (list Byte.byte * list Byte.byte) :=
  match decNat l with
  | Some (n, r) =>
      if (List.length r <? n)%nat then None else Some (firstn n r, skipn n r)
  | None => None
  end.

Fixpoint decEntries (fuel : nat) (l : list Byte.byte) : option (list entry) :=
  match l with
  | [] => Some []
  | _ :: _ =>
      match fuel with
      | 0 => None
      | S fuel' =>
          match decBytes l with
          | Some (name, r) =>
              match decBytes r with
              | Some (data, r') =>
                  match decEntries fuel' r' with
                  | Some es => Some ((string_of_list_byte name, data) :: es)
                  | None => None
                  end
              | None => None
              end
          | None => None
          end
      end
  end.

Definition dec (l : list Byte.byte) : option (list entry) :=
  decEntries (List.length l) l.

Definition writer : zipenv :=
  {| encode := enc;
     createFails := fun _ => false;
     copyFails := fun _ => false;
     closeFails := false |}.

Definition reader : ZipperTest.zipreader := {| ZipperTest.decode := dec |}.

End Framed.

(** ** More test data *)

Module MoreData.
Import Fs Os TestData.

(** A directory one of whose directories cannot be listed. *)
Definition wLocked : world :=
  {| root := Dir true true
               [ ("vault", Dir true true
                    [ ("open.txt", file "o");
                      ("sealed", Dir false true [("x", file "x")]) ]);
                 ("work", Dir true true []) ];
     cwd := ["work"]; trace := [] |}.

(** The texts of a run of the command on Linux. *)
Definition texts : Cmd.cmdenv :=
  {| Cmd.usage := "Usage of zipper:";
     Cmd.errorText := fun e =>
       match e with
       | ErrInvalidPath => "invalid path"
       | ErrNotExist => "no such file or directory"
       | ErrPermission => "permission denied"
       | ErrIsDir => "is a directory"
       | ErrNotDir => "not a directory"
       | ErrNotEmpty => "directory not empty"
       | _ => "input/output error"
       end;
     Cmd.panicText := fun _ => "panic" |}.

End MoreData.

(** * Facts *)

(** ** The path functions on the tables of their tests *)

Module FilepathExamples.
Import Filepath.

(** The tables of Go's own tests of [Clean], [Base] and [Rel]. *)

Example clean_table :
  forallb (fun t => (Clean (fst t) =? snd t)%string)
    [ ("abc", "abc");
      ("abc/def", "abc/def");
      ("a/b/c", "a/b/c");
      (".", ".");
      ("..", "..");
      ("../..", "../..");
      ("../../abc", "../../abc");
      ("/abc", "/abc");
      ("/", "/");
      ("", ".");
      ("abc/", "abc");
      ("abc/def/", "abc/def");
      ("./", ".");
      ("../", "..");
      ("../../", "../..");
      ("/abc/", "/abc");
      ("abc//def//ghi", "abc/def/ghi");
      ("//abc", "/abc");
      ("///abc", "/abc");
      ("//abc//", "/abc");
      ("abc//", "abc");
      ("abc/./def", "abc/def");
      ("/./abc/def", "/abc/def");
      ("abc/.", "abc");
      ("abc/def/ghi/../jkl", "abc/def/jkl");
      ("abc/def/../ghi/../jkl", "abc/jkl");
      ("abc/def/..", "abc");
      ("abc/def/../..", ".");
      ("/abc/def/../..", "/");
      ("abc/def/../../..", "..");
      ("/abc/def/../../..", "/");
      ("abc/def/../../../ghi/jkl/../../../mno", "../../mno");
      ("/../abc", "/abc");
      ("abc/./../def", "def");
      ("abc//./../def", "def");
      ("abc/../../././../def", "../../def") ] = true.
Proof. vm_compute. reflexivity. Qed.

Example base_table :
  forallb (fun t => (Base (fst t) =? snd t)%string)
    [ ("", ".");
      (".", ".");
      ("/.", ".");
      ("/", "/");
      ("////", "/");
      ("x/", "x");
      ("abc", "abc");
      ("abc/def", "def");
      ("a/b/.x", ".x");
      ("a/b/c.", "c.");
      ("a/b/c.x", "c.x") ] = true.
Proof. vm_compute. reflexivity. Qed.

Example rel_table :
  forallb (fun t => match Rel (fst (fst t)) (snd (fst t)) with
                    | inl r => (r =? snd t)%string
                    | inr _ => false
                    end)
    [ ("a/b", "a/b", ".");
      ("a/b/.", "a/b", ".");
      ("a/b", "a/b/.", ".");
      ("./a/b", "a/b", ".");
      ("ab/cd", "ab/cde", "../cde");
      ("ab/cd", "ab/c", "../c");
      ("a/b", "a/b/c/d", "c/d");
      ("a/b", "a/b/../c", "../c");
      ("a/b/../c", "a/b", "../b");
      ("a/b/c", "a/c/d", "../../c/d");
      ("a/b", "c/d", "../../c/d");
      ("a/b/c/d", "a/b", "../..");
      ("a/b/c/d/", "a/b/", "../..");
      ("../../a/b", "../../a/b/c/d", "c/d");
      ("/a/b", "/a/b", ".");
      ("/ab/cd", "/ab/cde", "../cde");
      ("/a/b", "/a/b/c/d", "c/d");
      ("/a/b/c", "/a/c/d", "../../c/d");
      ("/a/b/c/d", "/a/b", "../..");
      ("/../../a/b", "/../../a/b/c/d", "c/d");
      (".", "a/b", "a/b");
      (".", "..", "..") ] = true.
Proof. vm_compute. reflexivity. Qed.

Example rel_errors :
  forallb (fun t => match Rel (fst t) (snd t) with
                    | inl _ => false
                    | inr _ => true
                    end)
    [ ("..", ".");
      ("..", "a");
      ("a", "/a");
      ("/a", "a") ] = true.
Proof. vm_compute. reflexivity. Qed.

Example join_root : Join "/" "a" = "/a". Proof. reflexivity. Qed.
Example join_rel : Join "../d" "f.txt" = "../d/f.txt". Proof. reflexivity. Qed.
Example join_clean : Join "a/b" "../c" = "a/c". Proof. reflexivity. Qed.

End FilepathExamples.

(** ** Strings and lists of bytes *)

Module StrFacts.

Lemma rev_onto_app (s : string) (acc : list ascii) :
  Str.rev_onto s acc = rev (list_ascii_of_string s) ++ acc.
Proof.
  revert acc; induction s as [|c s IH]; intro acc; simpl; [reflexivity|].
  rewrite IH, <- app_assoc; reflexivity.
Qed.

Lemma append_nil_r (s : string) : (s ++ "")%string = s.
Proof. induction s; simpl; congruence. Qed.

Lemma append_assoc (a b c : string) :
  ((a ++ b) ++ c)%string = (a ++ (b ++ c))%string.
Proof. induction a; simpl; congruence. Qed.

Lemma length_append (a b : string) :
  String.length (a ++ b) = String.length a + String.length b.
Proof. induction a; simpl; congruence. Qed.

Lemma list_of_append (a b : string) :
  list_ascii_of_string (a ++ b)
  = list_ascii_of_string a ++ list_ascii_of_string b.
Proof. induction a; simpl; congruence. Qed.

Lemma of_list_app (l1 l2 : list ascii) :
  string_of_list_ascii (l1 ++ l2)
  = (string_of_list_ascii l1 ++ string_of_list_ascii l2)%string.
Proof. induction l1; simpl; congruence. Qed.

Lemma length_list_of (s : string) :
  List.length (list_ascii_of_string s) = String.length s.
Proof. induction s; simpl; congruence. Qed.

Lemma of_rev_rev_onto (s : string) (acc : list ascii) :
  Str.of_rev (Str.rev_onto s acc) = (Str.of_rev acc ++ s)%string.
Proof.
  unfold Str.of_rev. rewrite rev_onto_app, rev_app_distr, rev_involutive.
  rewrite of_list_app, string_of_list_ascii_of_string. reflexivity.
Qed.

Lemma has_append (c : ascii) (a b : string) :
  Str.has c (a ++ b) = Str.has c a || Str.has c b.
Proof. unfold Str.has. rewrite list_of_append, existsb_app. reflexivity. Qed.

Lemma append_inv_l (a b c : string) : (a ++ b)%string = (a ++ c)%string -> b = c.
Proof. induction a; simpl; intros H; [assumption|]. injection H; auto. Qed.

End StrFacts.

(** ** Facts about [Clean], [Join] and [Rel] *)

Module CleanFacts.
Import Filepath PathElems StrFacts.

Lemma sepfree_cons (c : ascii) (s : string) :
  sepfree (String c s) = negb (IsPathSeparator c) && sepfree s.
Proof. unfold sepfree, Str.has; simpl. rewrite negb_orb. reflexivity. Qed.

Lemma sepfree_append (a b : string) :
  sepfree (a ++ b) = sepfree a && sepfree b.
Proof. unfold sepfree. rewrite has_append, negb_orb. reflexivity. Qed.

Lemma endOrSep_app (t rest : string) :
  sepfree t = true -> endOrSep rest = true ->
  endOrSep (t ++ rest) = (t =? "")%string.
Proof.
  destruct t as [|c t]; simpl; intros Ht Hr; [assumption|].
  rewrite sepfree_cons in Ht. apply andb_prop in Ht as [Hc _].
  now apply negb_true_iff in Hc.
Qed.

Lemma copyElement_elem (t rest : string) (out : lazybuf) :
  sepfree t = true -> endOrSep rest = true ->
  copyElement (t ++ rest) out = (rest, Str.rev_onto t out).
Proof.
  revert out; induction t as [|c t IH]; intros out Ht Hr; simpl.
  - destruct rest as [|c r]; [reflexivity|]. simpl in *. now rewrite Hr.
  - rewrite sepfree_cons in Ht. apply andb_prop in Ht as [Hc Ht].
    apply negb_true_iff in Hc. rewrite Hc. now apply IH.
Qed.

Lemma isDot_elem (t rest : string) :
  sepfree t = true -> endOrSep rest = true -> t <> "" ->
  isDot (t ++ rest) = (t =? ".")%string.
Proof.
  destruct t as [|c t]; [congruence|]. intros Ht Hr _. simpl.
  rewrite sepfree_cons in Ht. apply andb_prop in Ht as [_ Ht].
  rewrite endOrSep_app by assumption.
  destruct (Ascii.eqb c "."); reflexivity.
Qed.

Lemma isDotDot_elem (t rest : string) :
  sepfree t = true -> endOrSep rest = true -> t <> "" -> t <> "." ->
  isDotDot (t ++ rest) = (t =? "..")%string.
Proof.
  destruct t as [|c [|c1 t]]; [congruence| |].
  - intros _ Hr _ Hd. simpl.
    destruct (Ascii.eqb_spec c "."); [subst; congruence|].
    destruct rest; reflexivity.
  - intros Ht Hr _ _. simpl.
    rewrite !sepfree_cons in Ht.
    apply andb_prop in Ht as [_ Ht]. apply andb_prop in Ht as [_ Ht].
    rewrite endOrSep_app by assumption.
    destruct (Ascii.eqb c "."), (Ascii.eqb c1 "."); reflexivity.
Qed.

Lemma is_name_inv (e : string) :
  is_name e = true -> e <> "" /\ e <> "." /\ e <> ".." /\ sepfree e = true.
Proof.
  unfold is_name. intros H.
  repeat (apply andb_prop in H as [H ?]).
  repeat split; try assumption;
    match goal with
    | [ H : negb (e =? ?s)%string = true |- e <> ?s ] =>
        apply negb_true_iff in H; now apply String.eqb_neq in H
    end.
Qed.

Lemma length_rev_onto (s : string) (acc : list ascii) :
  List.length (Str.rev_onto s acc) = String.length s + List.length acc.
Proof.
  rewrite rev_onto_app, length_app, length_rev, length_list_of. reflexivity.
Qed.

Lemma upsOnly_ok (st : list string) :
  upsOnly st = true -> stack_ok false st = true.
Proof.
  induction st as [|e st IH]; simpl; [reflexivity|]. intros H.
  apply andb_prop in H as [He Hs].
  rewrite He, (IH Hs). simpl. rewrite Hs. apply orb_true_r.
Qed.

Lemma upsOnly_upsPart (st : list string) :
  upsOnly st = true -> upsPart st = st.
Proof.
  destruct st as [|e st]; simpl; [reflexivity|]. intros H.
  apply andb_prop in H as [He _]. now rewrite He.
Qed.

(** Elements of a stack are not empty. *)
Lemma stack_ok_top (rooted : bool) (e : string) (st : list string) :
  stack_ok rooted (e :: st) = true -> e <> "" /\ sepfree e = true.
Proof.
  simpl. intros H. apply orb_prop in H as [H|H].
  - apply andb_prop in H as [H _]. apply is_name_inv in H. tauto.
  - apply andb_prop in H as [H _]. apply andb_prop in H as [H _].
    apply String.eqb_eq in H. subst. split; [discriminate|reflexivity].
Qed.

Lemma stack_ok_tail (rooted : bool) (e : string) (st : list string) :
  stack_ok rooted (e :: st) = true -> stack_ok rooted st = true.
Proof.
  simpl. intros H. apply orb_prop in H as [H|H].
  - now apply andb_prop in H as [_ H].
  - apply andb_prop in H as [H Hu]. apply andb_prop in H as [_ Hr].
    apply negb_true_iff in Hr. subst. now apply upsOnly_ok.
Qed.

Lemma length_bufOf_cons (rooted : bool) (e : string) (st : list string) :
  e <> "" ->
  List.length (bufOf rooted st) < List.length (bufOf rooted (e :: st)).
Proof.
  intros He. simpl. rewrite length_rev_onto.
  assert (0 < String.length e) by (destruct e; [congruence|simpl; lia]).
  destruct st; simpl in *; lia.
Qed.

Lemma length_upsPart (rooted : bool) (st : list string) :
  stack_ok rooted st = true ->
  dotdotOf rooted st <= List.length (bufOf rooted st).
Proof.
  unfold dotdotOf. induction st as [|e st IH]; intros Hok; [simpl; lia|].
  cbn [upsPart]. destruct (e =? "..")%string; [lia|].
  pose proof (stack_ok_top _ _ _ Hok) as [He _].
  pose proof (length_bufOf_cons rooted e st He).
  specialize (IH (stack_ok_tail _ _ _ Hok)). lia.
Qed.


Lemma sepfree_In (e : string) (c : ascii) :
  sepfree e = true -> In c (list_ascii_of_string e) -> IsPathSeparator c = false.
Proof.
  unfold sepfree, Str.has. intros H Hin. apply negb_true_iff in H.
  destruct (IsPathSeparator c) eqn:Hc; [|reflexivity].
  assert (existsb (fun x => Ascii.eqb x Separator) (list_ascii_of_string e) = true)
    by (apply existsb_exists; exists c; auto).
  congruence.
Qed.

Lemma backtrack_chars (dd : nat) (l X Y : list ascii) :
  l <> [] -> (forall c, In c l -> IsPathSeparator c = false) ->
  dd <= List.length Y ->
  (X = Y /\ dd = List.length Y) \/ X = Separator :: Y ->
  backtrack dd (l ++ X) = Y.
Proof.
  intros Hne Hl Hdd HX. induction l as [|c l IH]; [congruence|].
  cbn [app backtrack]. rewrite (Hl c) by (left; reflexivity). cbn [negb].
  rewrite andb_true_r. destruct l as [|c' l].
  - cbn [app]. destruct HX as [ [ -> -> ] | -> ].
    + now rewrite Nat.ltb_irrefl.
    + replace (dd <? List.length (Separator :: Y))%nat with true
        by (symmetry; apply Nat.ltb_lt; simpl; lia).
      cbn [backtrack]. unfold IsPathSeparator at 1. rewrite Ascii.eqb_refl.
      cbn [negb]. now rewrite andb_false_r.
  - replace (dd <? List.length ((c' :: l) ++ X))%nat with true.
    + apply IH; [discriminate|]. intros x Hx. apply Hl. now right.
    + symmetry. apply Nat.ltb_lt. rewrite length_app. simpl.
      destruct HX as [ [ -> -> ] | -> ]; simpl; lia.
Qed.

Lemma upsPart_name (e : string) (st : list string) :
  e <> ".." -> upsPart (e :: st) = upsPart st.
Proof. intros H. simpl. apply String.eqb_neq in H. now rewrite H. Qed.

Lemma dotdotOf_name (rooted : bool) (e : string) (st : list string) :
  e <> ".." -> dotdotOf rooted (e :: st) = dotdotOf rooted st.
Proof. intros H. unfold dotdotOf. now rewrite upsPart_name. Qed.

Lemma dotdotOf_up (rooted : bool) (st : list string) :
  dotdotOf rooted (".." :: st) = List.length (bufOf rooted (".." :: st)).
Proof. reflexivity. Qed.

Lemma backtrack_elem (rooted : bool) (e : string) (st : list string) :
  stack_ok rooted (e :: st) = true -> e <> ".." ->
  backtrack (dotdotOf rooted st) (bufOf rooted (e :: st)) = bufOf rooted st.
Proof.
  intros Hok Hne. pose proof (stack_ok_top _ _ _ Hok) as [He Hs].
  pose proof (length_upsPart rooted st (stack_ok_tail _ _ _ Hok)) as Hdd.
  cbn [bufOf]. rewrite rev_onto_app. apply backtrack_chars.
  - destruct e; [congruence|]. simpl. intros H. now apply app_eq_nil in H as [_ H].
  - intros c Hc. apply (sepfree_In e); [assumption|]. now apply in_rev.
  - assumption.
  - destruct st as [|e' st]; [left|right; reflexivity].
    split; reflexivity.
Qed.

Lemma canBacktrack (rooted : bool) (st : list string) :
  stack_ok rooted st = true ->
  (dotdotOf rooted st <? List.length (bufOf rooted st))%nat
  = match st with e :: _ => negb (e =? "..")%string | [] => false end.
Proof.
  intros Hok. destruct st as [|e st].
  - apply Nat.ltb_irrefl.
  - destruct (String.eqb_spec e "..") as [ -> |Hne]; cbn [negb].
    + rewrite dotdotOf_up. apply Nat.ltb_irrefl.
    + rewrite dotdotOf_name by assumption. apply Nat.ltb_lt.
      pose proof (stack_ok_top _ _ _ Hok) as [He _].
      pose proof (length_bufOf_cons rooted e st He).
      pose proof (length_upsPart rooted st (stack_ok_tail _ _ _ Hok)). lia.
Qed.

Lemma bufOf_nonempty (rooted : bool) (e : string) (st : list string) :
  stack_ok rooted (e :: st) = true ->
  1 < List.length (bufOf rooted (e :: st))
  \/ (rooted = false /\ 0 < List.length (bufOf rooted (e :: st))).
Proof.
  intros Hok. pose proof (stack_ok_top _ _ _ Hok) as [He _].
  pose proof (length_bufOf_cons rooted e st He) as H.
  destruct st as [|e' st].
  - destruct rooted; simpl in *; [left|right]; auto; lia.
  - pose proof (stack_ok_top _ _ _ (stack_ok_tail _ _ _ Hok)) as [He' _].
    pose proof (length_bufOf_cons rooted e' st He'). left. lia.
Qed.

Lemma needSlash (rooted : bool) (st : list string) :
  stack_ok rooted st = true ->
  (rooted && negb (List.length (bufOf rooted st) =? 1)%nat)
  || (negb rooted && negb (List.length (bufOf rooted st) =? 0)%nat)
  = match st with [] => false | _ => true end.
Proof.
  intros Hok. destruct st as [|e st].
  - destruct rooted; reflexivity.
  - destruct (bufOf_nonempty _ _ _ Hok) as [H|[ -> H]].
    + destruct (List.length (bufOf rooted (e :: st))) as [|[|n]]; try lia.
      destruct rooted; reflexivity.
    + destruct (List.length (bufOf false (e :: st))); [lia|reflexivity].
Qed.

Lemma eltStep_ok (rooted : bool) (st : list string) (t : string) :
  stack_ok rooted st = true -> sepfree t = true ->
  stack_ok rooted (eltStep rooted st t) = true.
Proof.
  intros Hok Ht. unfold eltStep.
  destruct (String.eqb_spec t ""); [assumption|].
  destruct (String.eqb_spec t "."); [assumption|]. cbn [orb].
  destruct (String.eqb_spec t "..") as [ -> |Hne].
  - destruct st as [|top st].
    + destruct rooted; reflexivity.
    + destruct (String.eqb_spec top "..") as [ -> |Htop].
      * destruct rooted; [assumption|].
        simpl in Hok |- *. exact Hok.
      * now apply stack_ok_tail in Hok.
  - cbn [stack_ok]. rewrite Hok.
    unfold is_name. rewrite Ht.
    apply String.eqb_neq in n, n0, Hne. now rewrite n, n0, Hne.
Qed.

Lemma token_step (rooted : bool) (st : list string) (t rest : string)
      (fuel : nat) :
  stack_ok rooted st = true -> sepfree t = true -> endOrSep rest = true ->
  String.length (t ++ rest) <= fuel ->
  exists fuel',
    String.length rest <= fuel' /\
    cleanLoop fuel rooted (t ++ rest) (bufOf rooted st) (dotdotOf rooted st)
    = cleanLoop fuel' rooted rest (bufOf rooted (eltStep rooted st t))
        (dotdotOf rooted (eltStep rooted st t)).
Proof.
  intros Hok Ht Hr Hfuel.
  destruct (String.eqb_spec t "") as [ -> |Hne].
  { exists fuel. split; [assumption|reflexivity]. }
  destruct fuel as [|fuel].
  { rewrite length_append in Hfuel. destruct t; [congruence|simpl in Hfuel; lia]. }
  exists fuel. split.
  { rewrite length_append in Hfuel. destruct t; [congruence|simpl in Hfuel; lia]. }
  pose proof (isDot_elem t rest Ht Hr Hne) as HD.
  destruct t as [|c t1]; [congruence|].
  pose proof Ht as Ht'. rewrite sepfree_cons in Ht'.
  apply andb_prop in Ht' as [Hc Ht1]. apply negb_true_iff in Hc.
  cbn [cleanLoop String.append]. rewrite Hc.
  change (String c (t1 ++ rest)) with (String c t1 ++ rest)%string.
  rewrite HD. unfold eltStep.
  destruct (String.eqb_spec (String c t1) ".") as [E|Hnd].
  { injection E as -> ->. reflexivity. }
  rewrite (isDotDot_elem _ rest Ht Hr Hne Hnd).
  replace ((String c t1 =? "")%string) with false
    by (symmetry; now apply String.eqb_neq).
  cbn [orb].
  destruct (String.eqb_spec (String c t1) "..") as [E|Hndd].
  - injection E as -> ->. cbn [String.append Str.tail].
    rewrite (canBacktrack _ _ Hok).
    destruct st as [|top st'].
    + destruct rooted; reflexivity.
    + destruct (String.eqb_spec top "..") as [ -> |Htop]; cbn [negb].
      * destruct rooted; cbn [negb]; [reflexivity|].
        pose proof (length_bufOf_cons false ".." st' ltac:(discriminate)).
        replace (0 <? List.length (bufOf false (".." :: st')))%nat with true
          by (symmetry; apply Nat.ltb_lt; lia).
        reflexivity.
      * rewrite dotdotOf_name by assumption.
        now rewrite backtrack_elem.
  - rewrite (needSlash _ _ Hok).
    rewrite dotdotOf_name by assumption.
    change (String c (t1 ++ rest)) with (String c t1 ++ rest)%string.
    rewrite copyElement_elem by assumption.
    cbn [bufOf]. destruct st; reflexivity.
Qed.



Lemma cleanLoop_nil (fuel : nat) (rooted : bool) (out : lazybuf) (dd : nat) :
  cleanLoop fuel rooted "" out dd = out.
Proof. destruct fuel; reflexivity. Qed.

Lemma concat_cons (x y : string) (l : list string) :
  String.concat slash (x :: y :: l)
  = (x ++ String Separator (String.concat slash (y :: l)))%string.
Proof. reflexivity. Qed.

Lemma loop_tokens (rooted : bool) (ts : list string) :
  Forall (fun t => sepfree t = true) ts ->
  forall (st : list string) (fuel : nat),
    stack_ok rooted st = true ->
    String.length (String.concat slash ts) <= fuel ->
    cleanLoop fuel rooted (String.concat slash ts)
      (bufOf rooted st) (dotdotOf rooted st)
    = bufOf rooted (fold_left (eltStep rooted) ts st).
Proof.
  induction 1 as [|t ts Ht Hts IH]; intros st fuel Hok Hfuel.
  - apply cleanLoop_nil.
  - destruct ts as [|t' ts].
    + cbn [String.concat fold_left] in *.
      destruct (token_step rooted st t "" fuel Hok Ht eq_refl) as (f' & _ & E).
      { now rewrite append_nil_r. }
      rewrite append_nil_r in E. rewrite E. apply cleanLoop_nil.
    + rewrite concat_cons in *. cbn [fold_left].
      set (rest := String.concat slash (t' :: ts)) in *.
      destruct (token_step rooted st t (String Separator rest) fuel Hok Ht)
        as (f' & Hf' & E); [reflexivity|assumption|].
      rewrite E. destruct f' as [|f']; [simpl in Hf'; lia|].
      cbn [cleanLoop]. unfold IsPathSeparator at 1. rewrite Ascii.eqb_refl.
      apply IH; [now apply eltStep_ok|simpl in Hf'; lia].
Qed.

Lemma tokens_nonempty (s : string) : tokens s <> [].
Proof.
  induction s as [|c s IH]; simpl; [discriminate|].
  destruct (IsPathSeparator c); [discriminate|].
  destruct (tokens s); discriminate.
Qed.

Lemma concat_tokens (s : string) : String.concat slash (tokens s) = s.
Proof.
  induction s as [|c s IH]; [reflexivity|]. cbn [tokens].
  pose proof (tokens_nonempty s) as Hne.
  destruct (IsPathSeparator c) eqn:Hc.
  - apply Ascii.eqb_eq in Hc. subst c.
    destruct (tokens s) as [|t ts]; [congruence|].
    rewrite concat_cons, IH. reflexivity.
  - destruct (tokens s) as [|t ts]; [congruence|].
    destruct ts; simpl in *; now rewrite IH.
Qed.

Lemma tokens_sepfree (s : string) :
  Forall (fun t => sepfree t = true) (tokens s).
Proof.
  induction s as [|c s IH]; cbn [tokens]; [repeat constructor|].
  destruct (IsPathSeparator c) eqn:Hc; [constructor; [reflexivity|assumption]|].
  destruct (tokens s) as [|t ts]; [repeat constructor; rewrite sepfree_cons, Hc; reflexivity|].
  inversion IH; subst. constructor; [|assumption].
  rewrite sepfree_cons, Hc. assumption.
Qed.

Lemma length_nonempty_out (rooted : bool) (st : list string) :
  bufOf rooted st = [] -> render rooted st = ".".
Proof. unfold render. now intros ->. Qed.

(** [Clean] computes the element stack of its argument. *)
Theorem Clean_sem (s : string) : Clean s = cleanSem s.
Proof.
  unfold cleanSem, cleanStack. destruct s as [|c s]; [reflexivity|].
  cbn [Clean isRooted]. destruct (IsPathSeparator c) eqn:Hc.
  - cbn [tokens]. rewrite Hc. cbn [fold_left eltStep String.eqb orb].
    pose proof (loop_tokens true (tokens s) (tokens_sepfree s) [] 
                  (String.length (String c s)) eq_refl) as E.
    rewrite concat_tokens in E.
    change (bufOf true []) with [Separator] in E.
    change (dotdotOf true []) with 1 in E.
    rewrite E by (simpl; lia).
    unfold render. destruct (bufOf true _); reflexivity.
  - pose proof (loop_tokens false (tokens (String c s)) (tokens_sepfree _) []
                  (String.length (String c s)) eq_refl) as E.
    rewrite concat_tokens in E. change (bufOf false []) with (@nil ascii) in E.
    change (dotdotOf false []) with 0 in E. rewrite E by lia.
    unfold render. destruct (bufOf false _); reflexivity.
Qed.


Lemma tokens_app_sep (a b : string) :
  tokens (a ++ String Separator b) = tokens a ++ tokens b.
Proof.
  induction a as [|c a IH]; cbn [String.append tokens].
  - unfold IsPathSeparator. now rewrite Ascii.eqb_refl.
  - rewrite IH. destruct (IsPathSeparator c); [reflexivity|].
    pose proof (tokens_nonempty a).
    destruct (tokens a); [congruence|reflexivity].
Qed.

Lemma tokens_elem (e : string) : sepfree e = true -> tokens e = [e].
Proof.
  induction e as [|c e IH]; intros H; [reflexivity|].
  rewrite sepfree_cons in H. apply andb_prop in H as [Hc He].
  apply negb_true_iff in Hc. cbn [tokens]. rewrite Hc, (IH He). reflexivity.
Qed.

Lemma eltStep_push (rooted : bool) (e : string) (st : list string) :
  stack_ok rooted (e :: st) = true -> eltStep rooted st e = e :: st.
Proof.
  intros Hok. cbn [stack_ok] in Hok. unfold eltStep.
  apply orb_prop in Hok as [H|H].
  - apply andb_prop in H as [H _]. apply is_name_inv in H as (H1 & H2 & H3 & _).
    apply String.eqb_neq in H1, H2, H3. now rewrite H1, H2, H3.
  - apply andb_prop in H as [H Hu]. apply andb_prop in H as [H Hr].
    apply String.eqb_eq in H. subst e. apply negb_true_iff in Hr. subst rooted.
    cbn [String.eqb Ascii.eqb orb]. simpl.
    destruct st as [|top st]; [reflexivity|].
    simpl in Hu. apply andb_prop in Hu as [Ht _]. now rewrite Ht.
Qed.

Lemma eltStep_name (rooted : bool) (e : string) (st : list string) :
  is_name e = true -> eltStep rooted st e = e :: st.
Proof.
  intros H. unfold eltStep. apply is_name_inv in H as (H1 & H2 & H3 & _).
  apply String.eqb_neq in H1, H2, H3. now rewrite H1, H2, H3.
Qed.


Lemma of_rev_cons (c : ascii) (l : list ascii) :
  Str.of_rev (c :: l) = (Str.of_rev l ++ String c "")%string.
Proof. unfold Str.of_rev. simpl. now rewrite of_list_app. Qed.

Lemma render_rev (rooted : bool) (e : string) (st : list string) :
  stack_ok rooted (e :: st) = true ->
  render rooted (e :: st) = Str.of_rev (bufOf rooted (e :: st)).
Proof.
  intros Hok. unfold render.
  destruct (bufOf_nonempty _ _ _ Hok) as [H|[_ H]];
    destruct (bufOf rooted (e :: st)); simpl in H; try lia; reflexivity.
Qed.

Lemma render_cons (rooted : bool) (e : string) (st : list string) :
  stack_ok rooted (e :: st) = true ->
  render rooted (e :: st)
  = match st with
    | [] => (rootStr rooted ++ e)%string
    | _ => (render rooted st ++ String Separator e)%string
    end.
Proof.
  intros Hok. rewrite render_rev by assumption. cbn [bufOf].
  rewrite of_rev_rev_onto. destruct st as [|e' st].
  - destruct rooted; reflexivity.
  - rewrite of_rev_cons, append_assoc.
    rewrite render_rev by (now apply stack_ok_tail in Hok). reflexivity.
Qed.

Lemma render_root : render true [] = slash.
Proof. reflexivity. Qed.

Lemma tokens_render (rooted : bool) (st : list string) :
  stack_ok rooted st = true -> st <> [] ->
  tokens (render rooted st) = (if rooted then [""] else []) ++ rev st.
Proof.
  induction st as [|e st IH]; intros Hok Hne; [congruence|].
  rewrite render_cons by assumption.
  pose proof (stack_ok_top _ _ _ Hok) as [_ Hs].
  destruct st as [|e' st].
  - destruct rooted; cbn [rootStr slash String.append tokens].
    + unfold IsPathSeparator. rewrite Ascii.eqb_refl.
      now rewrite tokens_elem.
    + now rewrite tokens_elem.
  - rewrite tokens_app_sep, IH, tokens_elem; try assumption.
    + cbn [rev]. rewrite <- !app_assoc. reflexivity.
    + now apply stack_ok_tail in Hok.
    + discriminate.
Qed.

Lemma isRooted_app (a b : string) : a <> "" -> isRooted (a ++ b) = isRooted a.
Proof. destruct a; [congruence|reflexivity]. Qed.

Lemma render_not_empty (rooted : bool) (st : list string) :
  render rooted st <> "".
Proof.
  unfold render. destruct (bufOf rooted st) as [|c l] eqn:E; [discriminate|].
  rewrite of_rev_cons. destruct (Str.of_rev l); discriminate.
Qed.

Lemma isRooted_render (rooted : bool) (st : list string) :
  stack_ok rooted st = true -> st <> [] \/ rooted = true ->
  isRooted (render rooted st) = rooted.
Proof.
  induction st as [|e st IH]; intros Hok Hne.
  - destruct Hne as [?| ->]; [congruence|reflexivity].
  - rewrite render_cons by assumption.
    pose proof (stack_ok_top _ _ _ Hok) as [He Hs].
    destruct st as [|e' st].
    + destruct rooted; [reflexivity|]. cbn [rootStr String.append].
      destruct e as [|c e]; [congruence|]. rewrite sepfree_cons in Hs.
      apply andb_prop in Hs as [Hc _]. now apply negb_true_iff in Hc.
    + rewrite isRooted_app by apply render_not_empty.
      apply IH; [now apply stack_ok_tail in Hok|left; discriminate].
Qed.

Lemma cleanStack_rev (rooted : bool) (st : list string) :
  stack_ok rooted st = true -> fold_left (eltStep rooted) (rev st) [] = st.
Proof.
  induction st as [|e st IH]; intros Hok; [reflexivity|].
  cbn [rev]. rewrite fold_left_app. cbn [fold_left].
  rewrite IH by (now apply stack_ok_tail in Hok). now apply eltStep_push.
Qed.

Lemma cleanStack_render (rooted : bool) (st : list string) :
  stack_ok rooted st = true -> st <> [] \/ rooted = true ->
  cleanStack rooted (tokens (render rooted st)) = st.
Proof.
  intros Hok Hne. unfold cleanStack. destruct st as [|e st].
  - destruct Hne as [?| ->]; [congruence|reflexivity].
  - rewrite tokens_render by (assumption || discriminate).
    rewrite fold_left_app.
    replace (fold_left (eltStep rooted) (if rooted then [""] else []) [])
      with (@nil string) by (destruct rooted; reflexivity).
    now apply cleanStack_rev.
Qed.

(** A cleaned path is a fixed point of [Clean]. *)
Lemma Clean_render (rooted : bool) (st : list string) :
  stack_ok rooted st = true -> st <> [] \/ rooted = true ->
  Clean (render rooted st) = render rooted st.
Proof.
  intros Hok Hne. rewrite Clean_sem. unfold cleanSem.
  rewrite isRooted_render by assumption.
  now rewrite cleanStack_render.
Qed.

Lemma cleanStack_ok (rooted : bool) (ts : list string) (st : list string) :
  Forall (fun t => sepfree t = true) ts -> stack_ok rooted st = true ->
  stack_ok rooted (fold_left (eltStep rooted) ts st) = true.
Proof.
  intros H; revert st; induction H as [|t ts Ht _ IH]; intros st Hok;
    [assumption|].
  cbn [fold_left]. apply IH. now apply eltStep_ok.
Qed.

(** Every result of [Clean] is the string of a well-formed stack. *)
Lemma Clean_stack (s : string) :
  Clean s = render (isRooted s) (cleanStack (isRooted s) (tokens s))
  /\ stack_ok (isRooted s) (cleanStack (isRooted s) (tokens s)) = true.
Proof.
  split; [apply Clean_sem|]. apply cleanStack_ok; [apply tokens_sepfree|reflexivity].
Qed.

Lemma Join_render (rooted : bool) (st : list string) (n : string) :
  stack_ok rooted st = true -> st <> [] \/ rooted = true ->
  is_name n = true ->
  Join (render rooted st) n = render rooted (n :: st).
Proof.
  intros Hok Hne Hn. unfold Join.
  pose proof (render_not_empty rooted st) as Hr.
  apply String.eqb_neq in Hr. rewrite Hr.
  rewrite Clean_sem. unfold cleanSem, cleanStack.
  apply String.eqb_neq in Hr.
  rewrite isRooted_app, isRooted_render by assumption.
  rewrite tokens_app_sep, fold_left_app.
  fold (cleanStack rooted (tokens (render rooted st))).
  rewrite cleanStack_render by assumption.
  apply is_name_inv in Hn as Hn'. destruct Hn' as (_ & _ & _ & Hs).
  rewrite tokens_elem by assumption. cbn [fold_left].
  now rewrite eltStep_name.
Qed.


(** *** Elements of a stack *)


Lemma stack_ok_elems (rooted : bool) (st : list string) :
  stack_ok rooted st = true -> Forall elem_ok st.
Proof.
  induction st as [|e st IH]; intros Hok; constructor.
  - exact (stack_ok_top _ _ _ Hok).
  - apply IH. now apply stack_ok_tail in Hok.
Qed.

Lemma stack_ok_names (rooted : bool) (names st : list string) :
  forallb is_name names = true -> stack_ok rooted st = true ->
  stack_ok rooted (names ++ st) = true.
Proof.
  induction names as [|n names IH]; intros Hn Hok; [assumption|].
  cbn [forallb] in Hn. apply andb_prop in Hn as [Hn Hns].
  cbn [app stack_ok]. now rewrite Hn, IH.
Qed.

Lemma concat_snoc (l : list string) (e : string) :
  l <> [] ->
  String.concat slash (l ++ [e])
  = (String.concat slash l ++ String Separator e)%string.
Proof.
  induction l as [|x l IH]; intros Hne; [congruence|].
  destruct l as [|y l]; [reflexivity|].
  change ((x :: y :: l) ++ [e]) with (x :: (y :: l) ++ [e]).
  cbn [app]. rewrite !concat_cons.
  change (y :: l ++ [e]) with ((y :: l) ++ [e]).
  rewrite IH by discriminate. now rewrite append_assoc.
Qed.

Lemma render_concat (rooted : bool) (st : list string) :
  stack_ok rooted st = true -> st <> [] \/ rooted = true ->
  render rooted st = (rootStr rooted ++ String.concat slash (rev st))%string.
Proof.
  induction st as [|e st IH]; intros Hok Hne.
  - destruct Hne as [?| ->]; [congruence|reflexivity].
  - rewrite render_cons by assumption. destruct st as [|e' st].
    + reflexivity.
    + rewrite IH; [|now apply stack_ok_tail in Hok|left; discriminate].
      cbn [rev]. rewrite (concat_snoc _ e).
      * now rewrite append_assoc.
      * intros H. now apply app_eq_nil in H as [_ H].
Qed.

Lemma length_render (rooted : bool) (st : list string) :
  st <> [] \/ rooted = true -> stack_ok rooted st = true ->
  String.length (render rooted st) = List.length (bufOf rooted st).
Proof.
  intros Hne Hok. unfold render.
  destruct (bufOf rooted st) as [|c l] eqn:E.
  - destruct st as [|e st].
    + destruct Hne as [?| ->]; [congruence|discriminate].
    + pose proof (length_bufOf_cons rooted e st
                    (proj1 (stack_ok_top _ _ _ Hok))). rewrite E in H.
      simpl in H. lia.
  - unfold Str.of_rev. rewrite <- length_list_of.
    rewrite list_ascii_of_string_of_list_ascii. apply length_rev.
Qed.

Lemma length_bufOf_names (rooted : bool) (names st : list string) :
  names <> [] -> stack_ok rooted (names ++ st) = true ->
  List.length (bufOf rooted st) < List.length (bufOf rooted (names ++ st)).
Proof.
  induction names as [|n names IH]; intros Hne Hok; [congruence|].
  cbn [app] in *. pose proof (stack_ok_top _ _ _ Hok) as [Hn _].
  pose proof (length_bufOf_cons rooted n (names ++ st) Hn).
  destruct names as [|n' names]; [assumption|].
  specialize (IH ltac:(discriminate) (stack_ok_tail _ _ _ Hok)). lia.
Qed.

Lemma render_not_dot (rooted : bool) (st : list string) :
  stack_ok rooted st = true -> st <> [] \/ rooted = true ->
  render rooted st <> ".".
Proof.
  intros Hok Hne E.
  assert (Hr : isRooted (render rooted st) = rooted)
    by now apply isRooted_render.
  rewrite E in Hr. change (false = rooted) in Hr. subst rooted.
  destruct Hne as [Hne|?]; [|discriminate].
  pose proof (tokens_render false st Hok Hne) as Ht. rewrite E in Ht.
  change (tokens ".") with [String "."%char ""] in Ht. cbn [app] in Ht.
  destruct st as [|e st]; [congruence|].
  pose proof (f_equal (@List.length string) Ht) as Hl.
  rewrite length_rev in Hl. destruct st; [|simpl in Hl; lia].
  cbn [rev app] in Ht. injection Ht as <-. vm_compute in Hok. discriminate.
Qed.

(** *** Rel *)

Lemma spanElement_elem (e rest : string) :
  sepfree e = true -> endOrSep rest = true ->
  spanElement (e ++ rest) = (e, rest).
Proof.
  induction e as [|c e IH]; intros He Hr.
  - destruct rest as [|c r]; [reflexivity|]. simpl in *. now rewrite Hr.
  - rewrite sepfree_cons in He. apply andb_prop in He as [Hc He].
    apply negb_true_iff in Hc. cbn [String.append spanElement].
    now rewrite Hc, IH.
Qed.

Lemma concat_elem_rest (e : string) (l : list string) :
  exists rest,
    String.concat slash (e :: l) = (e ++ rest)%string
    /\ endOrSep rest = true
    /\ Str.tail rest = String.concat slash l.
Proof.
  destruct l as [|y l].
  - exists "". split; [now rewrite append_nil_r|split; reflexivity].
  - exists (String Separator (String.concat slash (y :: l))).
    split; [apply concat_cons|split; reflexivity].
Qed.

Lemma relLoop_common (bs ts : list string) :
  Forall elem_ok bs -> ts <> [] ->
  forall fuel, String.length (String.concat slash bs) <= fuel ->
    relLoop fuel (String.concat slash bs) (String.concat slash (bs ++ ts))
    = ("", "", String.concat slash ts).
Proof.
  induction 1 as [|e bs [He Hs] Hbs IH]; intros Hts fuel Hfuel.
  - destruct fuel; reflexivity.
  - destruct (concat_elem_rest e bs) as (rb & Eb & Hrb & Tb).
    destruct (concat_elem_rest e (bs ++ ts)) as (rt & Et & Hrt & Tt).
    cbn [app]. rewrite Eb, Et in *.
    destruct fuel as [|fuel].
    { rewrite length_append in Hfuel. destruct e; [congruence|simpl in Hfuel; lia]. }
    cbn [relLoop].
    replace ((e ++ rb =? "")%string) with false
      by (destruct e; [congruence|reflexivity]).
    replace ((e ++ rt =? "")%string) with false
      by (destruct e; [congruence|reflexivity]).
    cbn [orb]. rewrite !spanElement_elem by assumption.
    rewrite String.eqb_refl. cbn [negb]. rewrite Tb, Tt.
    apply IH; [assumption|].
    rewrite length_append in Hfuel. rewrite <- Tb.
    destruct e; [congruence|]. destruct rb; simpl in *; lia.
Qed.

Lemma names_elems (names : list string) :
  forallb is_name names = true -> Forall elem_ok names.
Proof.
  induction names as [|n names IH]; intros H; [constructor|].
  cbn [forallb] in H. apply andb_prop in H as [Hn Hns].
  constructor; [|now apply IH]. apply is_name_inv in Hn. split; tauto.
Qed.

(** The path of a file below a cleaned root, relative to that root, is
    the file's elements joined by separators. *)
Lemma Rel_below (rooted : bool) (st names : list string) :
  stack_ok rooted st = true -> st <> [] \/ rooted = true ->
  forallb is_name names = true -> names <> [] ->
  Rel (render rooted st) (render rooted (rev names ++ st))
  = inl (String.concat slash names).
Proof.
  intros Hok Hne Hn Hnn.
  assert (Hn' : forallb is_name (rev names) = true).
  { rewrite forallb_forall in *. intros x Hx. apply Hn. now apply in_rev. }
  assert (Hok' : stack_ok rooted (rev names ++ st) = true)
    by now apply stack_ok_names.
  assert (Hne' : rev names ++ st <> [] \/ rooted = true).
  { left. intros H. apply app_eq_nil in H as [H _].
    apply (f_equal (@rev string)) in H. rewrite rev_involutive in H.
    now apply Hnn. }
  assert (Hrn : rev names <> []).
  { intros H. apply (f_equal (@rev string)) in H.
    rewrite rev_involutive in H. now apply Hnn. }
  unfold Rel. rewrite !Clean_render by assumption.
  replace (render rooted (rev names ++ st) =? render rooted st)%string
    with false.
  2:{ symmetry. apply String.eqb_neq. intros E.
      apply (f_equal String.length) in E.
      rewrite !length_render in E by assumption.
      pose proof (length_bufOf_names rooted (rev names) st Hrn Hok'). lia. }
  replace (render rooted st =? ".")%string with false
    by (symmetry; apply String.eqb_neq; now apply render_not_dot).
  fold (isRooted (render rooted st)).
  fold (isRooted (render rooted (rev names ++ st))).
  rewrite !isRooted_render by assumption.
  rewrite Bool.eqb_reflx. cbn [negb].
  rewrite (render_concat rooted st) by assumption.
  rewrite (render_concat rooted (rev names ++ st)) by assumption.
  rewrite rev_app_distr, rev_involutive.
  assert (Hels : Forall elem_ok (rev st)).
  { apply Forall_rev. now apply stack_ok_elems in Hok. }
  assert (HL : forall fuel,
             String.length (String.concat slash (rev st)) <= fuel ->
             relLoop (S fuel) (rootStr rooted ++ String.concat slash (rev st))
               (rootStr rooted ++ String.concat slash (rev st ++ names))
             = ("", "", String.concat slash names)).
  { intros fuel Hfuel. destruct rooted.
    - cbn [rootStr slash String.append relLoop String.eqb orb spanElement].
      unfold IsPathSeparator. rewrite Ascii.eqb_refl.
      cbn [String.eqb negb Str.tail]. now apply relLoop_common.
    - cbn [rootStr String.append]. apply relLoop_common; [assumption..|lia]. }
  rewrite length_append, HL by lia. reflexivity.
Qed.

(** [Rel] of a path to itself is the current-directory marker. *)
Lemma Rel_same (p : string) : Rel p p = inl ".".
Proof. unfold Rel. now rewrite String.eqb_refl. Qed.

End CleanFacts.

(** ** The tree: lookup after create, write and remove *)

Module FsFacts.
Import Fs.

Section Entries.
Context {X : Type}.
Implicit Types (es : list (string * X)) (x y : string).

Lemma lookup_set_same x (v : X) es : lookupEntry x (setEntry x v es) = Some v.
Proof.
  induction es as [|[n u] es IH]; simpl.
  - now rewrite String.eqb_refl.
  - destruct (String.eqb_spec n x) as [->|Hne]; simpl.
    + now rewrite String.eqb_refl.
    + apply String.eqb_neq in Hne. now rewrite Hne.
Qed.

Lemma lookup_set_other x y (v : X) es :
  x <> y -> lookupEntry y (setEntry x v es) = lookupEntry y es.
Proof.
  intros Hxy. induction es as [|[n u] es IH]; simpl.
  - apply String.eqb_neq in Hxy. now rewrite Hxy.
  - destruct (String.eqb_spec n x) as [->|Hne]; simpl.
    + apply String.eqb_neq in Hxy. now rewrite Hxy.
    + now rewrite IH.
Qed.

Lemma lookup_remove_other x y es :
  x <> y -> lookupEntry y (removeEntry x es) = lookupEntry y es.
Proof.
  intros Hxy. induction es as [|[n u] es IH]; simpl; [reflexivity|].
  destruct (String.eqb_spec n x) as [->|Hne]; simpl.
  - apply String.eqb_neq in Hxy. now rewrite Hxy.
  - now rewrite IH.
Qed.

Lemma lookup_remove_same x es :
  uniqueNames es = true -> lookupEntry x (removeEntry x es) = None.
Proof.
  induction es as [|[n u] es IH]; simpl; [reflexivity|].
  destruct (lookupEntry n es) eqn:E; [discriminate|]. intros Hu.
  destruct (String.eqb_spec n x) as [->|Hne]; [assumption|].
  simpl. apply String.eqb_neq in Hne. rewrite Hne. now apply IH.
Qed.

Lemma lookup_In x (v : X) es : lookupEntry x es = Some v -> In (x, v) es.
Proof.
  induction es as [|[n u] es IH]; simpl; [discriminate|].
  destruct (String.eqb_spec n x) as [->|Hne].
  - intros [= ->]. now left.
  - intros H. right. now apply IH.
Qed.

Lemma In_lookup x (v : X) es :
  uniqueNames es = true -> In (x, v) es -> lookupEntry x es = Some v.
Proof.
  induction es as [|[n u] es IH]; simpl; [contradiction|].
  destruct (lookupEntry n es) eqn:E; [discriminate|]. intros Hu [[= -> ->]|Hin].
  - now rewrite String.eqb_refl.
  - destruct (String.eqb_spec n x) as [->|Hne]; [|now apply IH].
    rewrite (IH Hu Hin) in E. discriminate.
Qed.

End Entries.

Lemma find_create_same (p : list string) :
  forall n n', create n p = Ok n' ->
  exists r w, find n' p = Some (File r w []).
Proof.
  induction p as [|x p IH]; intros n n' H.
  - destruct n; simpl in H; discriminate.
  - destruct n as [|r w es]; [discriminate|]. cbn [create] in H.
    destruct p as [|y p].
    + destruct (lookupEntry x es) as [[fr fw d|? ? ?]|] eqn:E.
      * destruct (fr && fw); [|discriminate]. injection H as <-.
        exists fr, fw. simpl. now rewrite lookup_set_same.
      * discriminate.
      * destruct w; [|discriminate]. injection H as <-.
        exists true, true. simpl. now rewrite lookup_set_same.
    + destruct (lookupEntry x es) as [c|] eqn:E; [|discriminate].
      destruct (create c (y :: p)) as [c'|e] eqn:Ec; [|discriminate].
      injection H as <-. destruct (IH _ _ Ec) as (fr & fw & Hf).
      exists fr, fw. cbn [find]. now rewrite lookup_set_same.
Qed.

Lemma find_create_other (p : list string) :
  forall n n' q r w d,
    create n p = Ok n' -> find n q = Some (File r w d) -> q <> p ->
    find n' q = Some (File r w d).
Proof.
  induction p as [|x p IH]; intros n n' q r w d H Hq Hne.
  - destruct n; simpl in H; discriminate.
  - destruct n as [|dr dw es]; [discriminate|]. cbn [create] in H.
    destruct q as [|y q]; [discriminate|]. cbn [find] in Hq.
    destruct (String.eqb_spec x y) as [->|Hxy].
    + destruct (lookupEntry y es) as [c|] eqn:E; [|discriminate].
      destruct p as [|z p].
      * destruct c as [fr fw fd|? ? ?].
        -- destruct q; [congruence|discriminate].
        -- discriminate.
      * destruct (create c (z :: p)) as [c'|e] eqn:Ec; [|discriminate].
        injection H as <-. cbn [find]. rewrite lookup_set_same.
        apply (IH _ _ _ _ _ _ Ec Hq). congruence.
    + assert (Hn' : exists es', n' = Dir dr dw (setEntry x es' es) ).
      { destruct p as [|z p].
        - destruct (lookupEntry x es) as [[fr fw fd|? ? ?]|].
          + destruct (fr && fw); [|discriminate]. injection H as <-. eauto.
          + discriminate.
          + destruct dw; [|discriminate]. injection H as <-. eauto.
        - destruct (lookupEntry x es) as [c|]; [|discriminate].
          destruct (create c (z :: p)); [|discriminate].
          injection H as <-. eauto. }
      destruct Hn' as (c' & ->). cbn [find].
      now rewrite lookup_set_other.
Qed.

Lemma find_setData_same (p : list string) :
  forall n r w d data,
    find n p = Some (File r w d) ->
    exists n', setData n p data = Some n'
               /\ find n' p = Some (File r w data).
Proof.
  induction p as [|x p IH]; intros n r w d data H.
  - simpl in H. injection H as ->. eexists. split; reflexivity.
  - destruct n as [|dr dw es]; [discriminate|]. cbn [find] in H.
    destruct (lookupEntry x es) as [c|] eqn:E; [|discriminate].
    destruct (IH _ _ _ _ data H) as (c' & Hs & Hf).
    exists (Dir dr dw (setEntry x c' es)). cbn [setData find].
    now rewrite E, Hs, lookup_set_same.
Qed.

Lemma find_remove_same (p : list string) :
  forall n n', wf n = true -> remove n p = Ok n' -> find n' p = None.
Proof.
  induction p as [|x p IH]; intros n n' Hwf H.
  - destruct n; discriminate.
  - destruct n as [|dr dw es]; [discriminate|]. cbn [remove] in H.
    cbn [wf] in Hwf. apply andb_prop in Hwf as [Hall Hu].
    destruct (lookupEntry x es) as [c|] eqn:E; [|discriminate].
    destruct p as [|y p].
    + assert (Hn' : n' = Dir dr dw (removeEntry x es)).
      { destruct c as [? ? ?|? ? [|? ?]]; try discriminate;
          (destruct dw; [|discriminate]); now injection H as <-. }
      subst n'. cbn [find]. now rewrite lookup_remove_same.
    + destruct (remove c (y :: p)) as [c'|e] eqn:Ec; [|discriminate].
      injection H as <-. cbn [find]. rewrite lookup_set_same.
      apply (IH c); [|assumption].
      apply lookup_In in E. rewrite forallb_forall in Hall.
      specialize (Hall _ E). now apply andb_prop in Hall as [_ Hall].
Qed.

Lemma wf_find (p : list string) :
  forall n m, wf n = true -> find n p = Some m -> wf m = true.
Proof.
  induction p as [|x p IH]; intros n m Hwf H.
  - now injection H as <-.
  - destruct n as [|dr dw es]; [discriminate|]. cbn [find] in H.
    destruct (lookupEntry x es) as [c|] eqn:E; [|discriminate].
    apply (IH c); [|assumption]. cbn [wf] in Hwf.
    apply andb_prop in Hwf as [Hall _]. apply lookup_In in E.
    rewrite forallb_forall in Hall. specialize (Hall _ E).
    now apply andb_prop in Hall as [_ Hall].
Qed.

Lemma find_app (p q : list string) :
  forall n m, find n p = Some m -> find n (p ++ q) = find m q.
Proof.
  induction p as [|x p IH]; intros n m H.
  - now injection H as <-.
  - destruct n as [|dr dw es]; [discriminate|]. cbn [find app] in *.
    destruct (lookupEntry x es) as [c|]; [|discriminate]. now apply IH.
Qed.

End FsFacts.

(** ** Sorted entries and the list of files *)

Module SortFacts.
Import Fs FsFacts.

Section Sorting.
Context {X : Type}.
Implicit Types (l : list (string * X)) (e : string * X).

Lemma insert_perm e l : Permutation (insertByName e l) (e :: l).
Proof.
  induction l as [|e' l IH]; simpl; [reflexivity|].
  destruct (String.leb (fst e) (fst e')); [reflexivity|].
  rewrite IH. apply perm_swap.
Qed.

Lemma sort_perm l : Permutation (sortByName l) l.
Proof.
  induction l as [|e l IH]; simpl; [reflexivity|].
  rewrite insert_perm. now constructor.
Qed.

Lemma sort_In e l : In e (sortByName l) <-> In e l.
Proof.
  split; apply Permutation_in; [apply sort_perm|symmetry; apply sort_perm].
Qed.

Lemma forallb_perm (f : string * X -> bool) l l' :
  Permutation l l' -> forallb f l = forallb f l'.
Proof.
  induction 1; simpl; try congruence.
  destruct (f x), (f y); reflexivity.
Qed.

Lemma forallb_sort (f : string * X -> bool) l :
  forallb f (sortByName l) = forallb f l.
Proof. apply forallb_perm, sort_perm. Qed.

End Sorting.

Lemma insert_map {X Y : Type} (g : string * X -> Y) (e : string * X)
      (l : list (string * X)) :
  insertByName (fst e, g e) (map (fun e => (fst e, g e)) l)
  = map (fun e => (fst e, g e)) (insertByName e l).
Proof.
  induction l as [|e' l IH]; simpl; [reflexivity|].
  destruct (String.leb (fst e) (fst e')); simpl; [reflexivity|].
  now rewrite IH.
Qed.

(** Sorting by name commutes with a map that keeps the names. *)
Lemma sort_map {X Y : Type} (g : string * X -> Y) (l : list (string * X)) :
  sortByName (map (fun e => (fst e, g e)) l)
  = map (fun e => (fst e, g e)) (sortByName l).
Proof.
  induction l as [|e l IH]; simpl; [reflexivity|].
  now rewrite IH, insert_map.
Qed.

Lemma filesBelow_dir (r w : bool) (es : list (string * node)) :
  filesBelow (Dir r w es)
  = flat_map (fun e => map (cons (fst e)) (filesBelow (snd e)))
      (sortByName es).
Proof.
  cbn [filesBelow].
  rewrite (sort_map (fun e => filesBelow (snd e))).
  rewrite flat_map_concat_map, map_map, <- flat_map_concat_map. reflexivity.
Qed.

Lemma wf_entry (r w : bool) (es : list (string * node)) (e : string * node) :
  wf (Dir r w es) = true -> In e es ->
  PathElems.is_name (fst e) = true /\ wf (snd e) = true.
Proof.
  cbn [wf]. intros H Hin. apply andb_prop in H as [Hall _].
  rewrite forallb_forall in Hall. specialize (Hall _ Hin).
  now apply andb_prop in Hall.
Qed.


(** The files listed are the files of the tree. *)
Lemma filesBelow_spec (n : node) :
  wf n = true -> forall rel, In rel (filesBelow n) <-> isFileAt n rel.
Proof.
  induction n as [r w d|r w es IH] using node_ind; intros Hwf rel.
  - simpl. split.
    + intros [<-|[]]. now exists r, w, d.
    + intros (r' & w' & d' & H). destruct rel; [now left|discriminate].
  - rewrite filesBelow_dir, in_flat_map. split.
    + intros ([x c] & Hin & Hrel). apply (proj1 (sort_In _ _)) in Hin.
      apply in_map_iff in Hrel as (rel' & <- & Hrel'). cbn [fst snd] in *.
      rewrite Forall_forall in IH.
      destruct (wf_entry _ _ _ _ Hwf Hin) as [_ Hwfc].
      apply (IH _ Hin Hwfc) in Hrel' as (r' & w' & d' & Hf).
      exists r', w', d'. cbn [find].
      cbn [wf] in Hwf. apply andb_prop in Hwf as [_ Hu].
      now rewrite (In_lookup _ _ _ Hu Hin).
    + intros (r' & w' & d' & Hf). destruct rel as [|x rel]; [discriminate|].
      cbn [find] in Hf. destruct (lookupEntry x es) as [c|] eqn:E; [|discriminate].
      apply lookup_In in E. exists (x, c). split; [now apply (proj2 (sort_In _ _))|].
      apply in_map. rewrite Forall_forall in IH.
      destruct (wf_entry _ _ _ _ Hwf E) as [_ Hwfc].
      apply (IH _ E Hwfc). now exists r', w', d'.
Qed.

End SortFacts.

(** ** The walk collects the files of the tree *)

Module WalkFacts.
Import Filepath PathElems CleanFacts Fs FsFacts SortFacts Os ZipSpec.





Lemma walkEntries_collect (rooted : bool) (st : list string)
      (l : list (string * node)) :
  stack_ok rooted st = true -> st <> [] \/ rooted = true ->
  Forall (fun e => is_name (fst e) = true /\ walkSpec (snd e)) l ->
  forall acc tr,
  exists acc' evs,
    walkEntries (render rooted st)
      (map (fun e => (fst e, walkDir collect (fst e) (snd e))) l) acc tr
    = (walkErr (forallb (fun e => listable (snd e)) l), acc', tr ++ evs)
    /\ forallb isWalkEvent evs = true
    /\ (forallb (fun e => listable (snd e)) l = true ->
        acc' = acc ++ flat_map
                 (fun e => map (fun rel => pathBelow rooted st (fst e :: rel))
                             (filesBelow (snd e))) l).
Proof.
  intros Hok Hne. induction 1 as [|[x c] l [Hx Hc] Hl IH]; intros acc tr.
  - exists acc, []. cbn. rewrite !app_nil_r. auto.
  - cbn [fst snd] in Hx, Hc. cbn [map walkEntries fst snd forallb flat_map].
    rewrite Join_render by assumption.
    destruct (Hc x rooted (x :: st) acc tr) as (acc1 & evs1 & E1 & Hev1 & Hacc1).
    { cbn [stack_ok]. now rewrite Hx, Hok. }
    { left. discriminate. }
    rewrite E1. destruct (listable c); cbn [walkErr andb].
    + destruct (IH acc1 (tr ++ evs1)) as (acc2 & evs2 & E2 & Hev2 & Hacc2).
      exists acc2, (evs1 ++ evs2). rewrite E2, app_assoc. split; [reflexivity|].
      split; [rewrite forallb_app; now rewrite Hev1, Hev2|].
      intros Hall. rewrite (Hacc2 Hall), (Hacc1 eq_refl), <- app_assoc.
      f_equal. f_equal. apply map_ext. intros rel. unfold pathBelow.
      cbn [rev]. now rewrite <- app_assoc.
    + exists acc1, evs1. cbn [isSkipDir]. repeat split; [assumption|discriminate].
Qed.

Lemma walkDir_collect (n : node) : wf n = true -> walkSpec n.
Proof.
  induction n as [r w d|r w es IH] using node_ind; intros Hwf;
    intros name rooted st acc tr Hok Hne.
  - exists (acc ++ [render rooted st]), []. cbn. rewrite app_nil_r. auto.
  - cbn [walkDir collect isDir IsDir listable]. destruct r; cbn [andb].
    + rewrite (sort_map (fun e => walkDir collect (fst e) (snd e))).
      destruct (walkEntries_collect rooted st (sortByName es) Hok Hne)
        with (acc := acc) (tr := tr ++ [EvReadDir (render rooted st)])
        as (acc' & evs & E & Hev & Hacc).
      { apply Forall_forall. intros e He. apply (proj1 (sort_In _ _)) in He.
        destruct (wf_entry _ _ _ _ Hwf He) as [Hn Hw]. split; [assumption|].
        rewrite Forall_forall in IH. now apply IH. }
      rewrite forallb_sort in E, Hacc.
      exists acc', (EvReadDir (render rooted st) :: evs).
      rewrite E. rewrite <- app_assoc. split; [reflexivity|].
      split; [assumption|]. intros Hall. rewrite (Hacc Hall). f_equal.
      rewrite filesBelow_dir, !flat_map_concat_map, concat_map, map_map.
      f_equal. apply map_ext. intros e. now rewrite map_map.
    + exists acc, [EvReadDir (render rooted st)]. cbn.
      repeat split. discriminate.
Qed.

End WalkFacts.

(** ** Resolution of walked paths *)

Module ResolveFacts.
Import Filepath PathElems CleanFacts Fs FsFacts SortFacts Os ZipSpec WalkFacts.

Lemma nameiStep_skip (st : list string) : nameiStep st "" = st.
Proof. reflexivity. Qed.

Lemma nameiStep_names (names : list string) :
  forallb is_name names = true ->
  forall st, fold_left nameiStep names st = rev names ++ st.
Proof.
  induction names as [|x names IH]; intros Hn st; [reflexivity|].
  cbn [forallb] in Hn. apply andb_prop in Hn as [Hx Hn].
  cbn [fold_left rev]. rewrite IH by assumption. rewrite <- app_assoc.
  f_equal. unfold nameiStep. apply is_name_inv in Hx as (H1 & H2 & H3 & _).
  apply String.eqb_neq in H1, H2, H3. now rewrite H1, H2, H3.
Qed.


Lemma resolve_render (w : world) (rooted : bool) (st : list string) :
  stack_ok rooted st = true -> st <> [] \/ rooted = true ->
  resolve w (render rooted st)
  = rev (fold_left nameiStep (rev st) (start w rooted)).
Proof.
  intros Hok Hne. unfold resolve. rewrite isRooted_render by assumption.
  fold (start w rooted). f_equal. destruct st as [|e st].
  - destruct Hne as [?| ->]; [congruence|reflexivity].
  - rewrite tokens_render by (assumption || discriminate).
    rewrite fold_left_app. f_equal. destruct rooted; reflexivity.
Qed.

Lemma resolve_below (w : world) (rooted : bool) (st rel : list string) :
  stack_ok rooted st = true -> st <> [] \/ rooted = true ->
  forallb is_name rel = true ->
  resolve w (pathBelow rooted st rel) = resolve w (render rooted st) ++ rel.
Proof.
  intros Hok Hne Hrel. unfold pathBelow.
  assert (Hrel' : forallb is_name (rev rel) = true).
  { rewrite forallb_forall in *. intros x Hx. apply Hrel. now apply in_rev. }
  rewrite !resolve_render; try assumption.
  - rewrite rev_app_distr, rev_involutive, fold_left_app.
    rewrite nameiStep_names by assumption. now rewrite rev_app_distr, rev_involutive.
  - now apply stack_ok_names.
  - destruct Hne as [Hne|Hr]; [left|now right].
    intros H. now apply app_eq_nil in H as [_ H].
Qed.

(** The names on the way to a node of a well-formed tree. *)
Lemma wf_find_names (p : list string) :
  forall n m, wf n = true -> find n p = Some m -> forallb is_name p = true.
Proof.
  induction p as [|x p IH]; intros n m Hwf H; [reflexivity|].
  destruct n as [|dr dw es]; [discriminate|]. cbn [find] in H.
  destruct (lookupEntry x es) as [c|] eqn:E; [|discriminate].
  apply lookup_In in E. destruct (wf_entry _ _ _ _ Hwf E) as [Hx Hc].
  cbn [forallb]. cbn [fst snd] in *. rewrite Hx. now apply (IH c m).
Qed.

Lemma filesBelow_names (n : node) (rel : list string) :
  wf n = true -> In rel (filesBelow n) -> forallb is_name rel = true.
Proof.
  intros Hwf Hin. apply filesBelow_spec in Hin as (r & w & d & Hf); [|assumption].
  now apply (wf_find_names rel n _ Hwf Hf).
Qed.

(** The path that the walk reports for a file is its elements joined
    to the root one by one. *)
Lemma pathBelow_Join (rooted : bool) (st rel : list string) :
  stack_ok rooted st = true -> st <> [] \/ rooted = true ->
  forallb is_name rel = true ->
  fold_left Join rel (render rooted st) = pathBelow rooted st rel.
Proof.
  intros Hok Hne Hrel. revert st Hok Hne.
  induction rel as [|x rel IH]; intros st Hok Hne; [reflexivity|].
  cbn [forallb] in Hrel. apply andb_prop in Hrel as [Hx Hrel].
  cbn [fold_left]. rewrite Join_render by assumption.
  rewrite IH; try assumption.
  - unfold pathBelow. cbn [rev]. now rewrite <- app_assoc.
  - cbn [stack_ok]. now rewrite Hx, Hok.
  - left. discriminate.
Qed.

End ResolveFacts.

(** ** [Zip]: the walk, and zipper.go *)

Module ZipFacts.
Import Filepath PathElems CleanFacts Fs FsFacts SortFacts Os ZipSpec WalkFacts ResolveFacts.

Lemma valid_Clean (inPath : string) :
  valid inPath = true ->
  Clean inPath = render (isRooted inPath) (stackOf inPath)
  /\ stack_ok (isRooted inPath) (stackOf inPath) = true
  /\ (stackOf inPath <> [] \/ isRooted inPath = true).
Proof.
  intros Hv. destruct (Clean_stack inPath) as [E Hok]. fold (stackOf inPath) in *.
  repeat split; try assumption.
  destruct (stackOf inPath) as [|e st]; [|left; discriminate].
  destruct (isRooted inPath); [now right|].
  unfold valid in Hv. rewrite E in Hv. discriminate.
Qed.

Lemma walkedPath_below (inPath : string) (rel : list string) :
  valid inPath = true -> forallb is_name rel = true ->
  walkedPath inPath rel = pathBelow (isRooted inPath) (stackOf inPath) rel.
Proof.
  intros Hv Hrel. destruct (valid_Clean _ Hv) as (E & Hok & Hne).
  unfold walkedPath. rewrite E. now apply pathBelow_Join.
Qed.

(** A file below the input is found, from the root, below the node of
    the input. *)
Lemma resolve_walked (w : world) (inPath : string) (rel : list string) :
  valid inPath = true -> forallb is_name rel = true ->
  resolve w (walkedPath inPath rel) = resolve w (Clean inPath) ++ rel.
Proof.
  intros Hv Hrel. rewrite walkedPath_below by assumption.
  destruct (valid_Clean _ Hv) as (E & Hok & Hne). rewrite E.
  now apply resolve_below.
Qed.

Lemma WalkDir_missing (w : world) (path : string) :
  stat w path = None ->
  WalkDir path collect [] w = (Some ErrNotExist, [], log (EvLstat path) w).
Proof. intros H. unfold WalkDir, Lstat. now rewrite H. Qed.

Lemma WalkDir_found (w : world) (inPath : string) (n : node) :
  wf (root w) = true -> valid inPath = true ->
  stat w (Clean inPath) = Some n ->
  exists files evs,
    WalkDir (Clean inPath) collect [] w
    = (walkErr (listable n), files,
       withTrace (trace w ++ EvLstat (Clean inPath) :: evs) w)
    /\ forallb isWalkEvent evs = true
    /\ (listable n = true ->
        files = map (walkedPath inPath) (filesBelow n)).
Proof.
  intros Hwf Hv Hst. destruct (valid_Clean _ Hv) as (E & Hok & Hne).
  assert (Hwfn : wf n = true) by (apply (wf_find _ _ _ Hwf Hst)).
  destruct (walkDir_collect n Hwfn (Base (Clean inPath)) _ _ []
              (trace w ++ [EvLstat (Clean inPath)]) Hok Hne)
    as (files & evs & Ew & Hev & Hfiles).
  exists files, evs. unfold WalkDir, Lstat. rewrite Hst.
  rewrite <- E in Ew. cbn [log trace]. rewrite Ew.
  split; [|split; [assumption|]].
  - rewrite <- app_assoc. cbn [app].
    destruct (listable n); reflexivity.
  - intros Hl. rewrite (Hfiles Hl). cbn [app]. apply map_ext_in.
    intros rel Hrel. symmetry. apply walkedPath_below; [assumption|].
    now apply (filesBelow_names n).
Qed.


Import ArchiveZip.

Lemma appendLast_snoc (data : list Byte.byte) (es : list entry)
      (name : string) (d : list Byte.byte) :
  appendLast data (es ++ [(name, d)]) = es ++ [(name, d ++ data)].
Proof.
  unfold appendLast. rewrite rev_app_distr. cbn [rev app].
  now rewrite rev_involutive.
Qed.

Lemma map_fst_appendLast (data : list Byte.byte) (es : list entry) :
  map fst (appendLast data es) = map fst es.
Proof.
  destruct es as [|e es] using rev_ind; [reflexivity|].
  destruct e as [name d]. rewrite appendLast_snoc, !map_app. reflexivity.
Qed.

Lemma Open_file (path : string) (w : world) :
  readableAt w path = true ->
  Open path w
  = (Ok {| fname := path; fnode := resolve w path |}, log (EvOpen path) w).
Proof.
  unfold readableAt, Open. destruct (stat w path) as [[r wr d|? ? ?]|];
    try discriminate. now intros ->.
Qed.

Lemma Open_world (path : string) (w : world) :
  snd (Open path w) = log (EvOpen path) w.
Proof.
  unfold Open. destruct (stat w path) as [[[] ? ?|[] ? ?]|]; reflexivity.
Qed.

Lemma readAll_file (path : string) (w w' : world) :
  root w' = root w -> readableAt w path = true ->
  readAll {| fname := path; fnode := resolve w path |} w'
  = Ok (dataAt w path).
Proof.
  unfold readableAt, dataAt, readAll, stat. cbn [fnode]. intros ->.
  destruct (find (root w) (resolve w path)) as [[r wr d|? ? ?]|];
    try discriminate. reflexivity.
Qed.

Lemma readableAt_log (e : event) (w : world) (path : string) :
  readableAt (log e w) path = readableAt w path.
Proof. reflexivity. Qed.

Lemma dataAt_log (e : event) (w : world) (path : string) :
  dataAt (log e w) path = dataAt w path.
Proof. reflexivity. Qed.

(** *** src/zipper.go: the loop *)

Lemma zipper_addFiles_ok (env : zipenv) (files : list string) :
  noFaults env ->
  forall zw opened w,
    forallb (readableAt w) files = true ->
    exists opened' w',
      ZipperGo.addFiles env files zw opened w
      = (None,
         {| dest := dest zw;
            entries := entries zw ++ map (fun f => (f, dataAt w f)) files |},
         opened', w').
Proof.
  intros (Hc & Hp & _). induction files as [|f files IH]; intros zw opened w Hr.
  - exists opened, w. cbn. rewrite app_nil_r. now destruct zw.
  - cbn [forallb] in Hr. apply andb_prop in Hr as [Hf Hr].
    cbn [ZipperGo.addFiles]. rewrite (Open_file _ _ Hf).
    unfold ArchiveZip.Create. rewrite Hc. unfold Copy.
    rewrite (readAll_file f w (log (EvOpen f) w) eq_refl Hf).
    cbn [fname]. rewrite Hp. cbn [dest entries].
    rewrite appendLast_snoc. cbn [app].
    match goal with
    | |- context [ZipperGo.addFiles env files ?z ?o ?w1] =>
        destruct (IH z o w1 Hr) as (opened' & w' & E)
    end.
    rewrite E. exists opened', w'. cbn [dest entries map].
    rewrite <- app_assoc. reflexivity.
Qed.

Lemma zipper_addFiles_run (env : zipenv) (files : list string) :
  forall zw opened w err zw' opened' w',
    ZipperGo.addFiles env files zw opened w = (err, zw', opened', w') ->
    root w' = root w /\ cwd w' = cwd w /\ dest zw' = dest zw
    /\ (exists evs, trace w' = trace w ++ evs
                    /\ forallb notWalkEvent evs = true)
    /\ (err = None -> map fst (entries zw') = map fst (entries zw) ++ files).
Proof.
  induction files as [|f files IH]; intros zw opened w err zw' opened' w' H.
  - injection H as <- <- <- <-. repeat split; auto.
    + exists []. now rewrite app_nil_r.
    + intros _. now rewrite app_nil_r.
  - cbn [ZipperGo.addFiles] in H.
    pose proof (Open_world f w) as Hw.
    destruct (Open f w) as [[fh|e] w1]; cbn [snd] in Hw; subst w1.
    + unfold ArchiveZip.Create in H. destruct (createFails env f).
      { injection H as <- <- <- <-. repeat split; auto.
        - exists [EvOpen f]. auto.
        - discriminate. }
      unfold Copy in H. destruct (readAll fh (log (EvOpen f) w)).
      2:{ injection H as <- <- <- <-. repeat split; auto.
          - exists [EvOpen f]. auto.
          - discriminate. }
      destruct (copyFails env (fname fh)).
      { injection H as <- <- <- <-. repeat split; auto.
        - exists [EvOpen f]. auto.
        - discriminate. }
      apply IH in H as (Hr & Hc & Hd & (evs & Ht & Hev) & Hn).
      cbn [dest entries root cwd trace log] in *. repeat split; auto.
      * exists (EvOpen f :: evs). rewrite Ht, <- app_assoc. auto.
      * intros He. rewrite (Hn He), map_fst_appendLast, map_app.
        cbn [map fst]. now rewrite <- app_assoc.
    + injection H as <- <- <- <-. repeat split; auto.
      * exists [EvOpen f]. auto.
      * discriminate.
Qed.

Lemma closeAll_run (opened : list file) :
  forall w, root (ZipperGo.closeAll opened w) = root w
            /\ cwd (ZipperGo.closeAll opened w) = cwd w
            /\ exists evs, trace (ZipperGo.closeAll opened w) = trace w ++ evs
                           /\ forallb notWalkEvent evs = true.
Proof.
  unfold ZipperGo.closeAll. induction opened as [|f opened IH]; intros w.
  - repeat split. exists []. now rewrite app_nil_r.
  - cbn [fold_left]. destruct (IH (Os.Close f w)) as (Hr & Hc & evs & Ht & Hev).
    rewrite Hr, Hc. repeat split.
    exists (EvClose (fname f) :: evs). rewrite Ht. cbn [Os.Close log trace].
    rewrite <- app_assoc. auto.
Qed.


Lemma Create_run (path : string) (w : world) :
  match Fs.create (root w) (resolve w path) with
  | Ok n =>
      Os.Create path w
      = (Ok {| fname := path; fnode := resolve w path |},
         withRoot n (log (EvCreate path) w))
  | Err e => Os.Create path w = (Err e, log (EvCreate path) w)
  end.
Proof. unfold Os.Create. destruct (Fs.create _ _); reflexivity. Qed.

Lemma ZipClose_run (env : zipenv) (zw : Writer) (w : world) :
  forall err w', ArchiveZip.Close env zw w = (err, w') ->
    cwd w' = cwd w /\ trace w' = trace w
    /\ (closeFails env = true -> err = Some ErrIO /\ root w' = root w)
    /\ (closeFails env = false ->
        err = None
        /\ forall r wr d,
            find (root w) (fnode (dest zw)) = Some (File r wr d) ->
            find (root w') (fnode (dest zw))
            = Some (File r wr (encode env (entries zw)))).
Proof.
  intros err w'. unfold ArchiveZip.Close.
  destruct (closeFails env).
  - intros [= <- <-]. repeat split; discriminate.
  - intros [= <- <-]. unfold writeAll.
    destruct (setData (root w) (fnode (dest zw)) (encode env (entries zw)))
      as [n'|] eqn:E; repeat split; try discriminate.
    + intros r wr d Hf.
      destruct (find_setData_same _ _ _ _ _ (encode env (entries zw)) Hf)
        as (n'' & Hs & Hf'). rewrite E in Hs. now injection Hs as <-.
    + intros r wr d Hf.
      destruct (find_setData_same _ _ _ _ _ (encode env (entries zw)) Hf)
        as (n'' & Hs & Hf'). congruence.
Qed.

(** *** src/zipper.go: from [os.Create] on *)

Lemma zipper_writeArchive_success (env : zipenv) (dst : string)
      (files : list string) (w1 w' : world) (a : string) :
  ZipperGo.writeArchive env dst files w1 = (Success a, w') ->
  a = dst /\ creatable w1 dst = true
  /\ exists entries evs,
      map fst entries = files
      /\ (closeFails env = false ->
          archiveIs w' (resolve w1 dst) (encode env entries))
      /\ trace w' = trace w1 ++ EvCreate dst :: evs
      /\ forallb notWalkEvent evs = true.
Proof.
  unfold ZipperGo.writeArchive, creatable. pose proof (Create_run dst w1) as HC.
  destruct (Fs.create (root w1) (resolve w1 dst)) as [n1|e] eqn:Ec;
    rewrite HC; [|discriminate].
  destruct (ZipperGo.addFiles _ _ _ _ _) as [[[err zw] opened] w3] eqn:Ea.
  apply zipper_addFiles_run in Ea as (Hr3 & Hc3 & Hd & (evs3 & Ht3 & Hev3) & Hn).
  destruct (closeAll_run opened w3) as (Hr4 & Hc4 & evs4 & Ht4 & Hev4).
  destruct (ArchiveZip.Close env zw (ZipperGo.closeAll opened w3))
    as [cerr w5] eqn:Ez.
  apply ZipClose_run in Ez as (Hc5 & Ht5 & _ & Hok).
  destruct err as [err|].
  { destruct (Os.Remove dst _) as [[?|?] ?]; discriminate. }
  intros [= <- <-]. repeat split.
  exists (entries zw), (evs3 ++ evs4 ++ [EvClose dst]).
  cbn [NewWriter entries dest map app] in *. repeat split.
  - now rewrite (Hn eq_refl).
  - intros Hcf. destruct (Hok Hcf) as [_ Hfind].
    destruct (find_create_same _ _ _ Ec) as (r & wr & Hf).
    exists r, wr. cbn [Os.Close log root]. rewrite Hd in Hfind. cbn [fnode] in Hfind.
    apply (Hfind r wr []). now rewrite Hr4, Hr3.
  - cbn [Os.Close log trace]. rewrite Ht5, Ht4, Ht3. cbn [withRoot log trace].
    rewrite <- !app_assoc. reflexivity.
  - rewrite !forallb_app, Hev3, Hev4. reflexivity.
Qed.

Lemma zipper_writeArchive_ok (env : zipenv) (dst : string)
      (files : list string) (w1 : world) (n1 : node) :
  noFaults env ->
  Fs.create (root w1) (resolve w1 dst) = Ok n1 ->
  forallb (readableAt (withRoot n1 w1)) files = true ->
  exists w',
    ZipperGo.writeArchive env dst files w1 = (Success dst, w')
    /\ archiveIs w' (resolve w1 dst)
         (encode env (map (fun f => (f, dataAt (withRoot n1 w1) f)) files)).
Proof.
  intros Hnf Ec Hr. unfold ZipperGo.writeArchive.
  pose proof (Create_run dst w1) as HC. rewrite Ec in HC. rewrite HC.
  destruct (zipper_addFiles_ok env files Hnf
              (NewWriter {| fname := dst; fnode := resolve w1 dst |}) []
              (withRoot n1 (log (EvCreate dst) w1)) Hr)
    as (opened & w3 & Ea).
  rewrite Ea. apply zipper_addFiles_run in Ea as (Hr3 & Hc3 & _).
  destruct (closeAll_run opened w3) as (Hr4 & Hc4 & _).
  destruct (ArchiveZip.Close env _ (ZipperGo.closeAll opened w3))
    as [cerr w5] eqn:Ez.
  apply ZipClose_run in Ez as (_ & _ & _ & Hok).
  destruct Hnf as (_ & _ & Hcf). destruct (Hok Hcf) as [_ Hfind].
  eexists. split; [reflexivity|].
  destruct (find_create_same _ _ _ Ec) as (r & wr & Hf).
  exists r, wr. cbn [Os.Close log root]. cbn [dest entries NewWriter fnode app] in Hfind.
  apply (Hfind r wr []). now rewrite Hr4, Hr3.
Qed.


(** *** src/zipper.go: [Zip] *)

Lemma zipper_Zip_invalid (env : zipenv) (inPath : string) (w : world) :
  valid inPath = false ->
  ZipperGo.Zip env inPath w = (Failure ErrInvalidPath, w).
Proof.
  unfold valid, ZipperGo.Zip. intros H.
  destruct ((Clean inPath =? ".")%string || (Clean inPath =? "..")%string);
    [reflexivity|].
  destruct (invalidBase (Base (Clean inPath))); [reflexivity|discriminate].
Qed.

Lemma zipper_Zip_valid (env : zipenv) (inPath : string) (w : world) :
  valid inPath = true ->
  ZipperGo.Zip env inPath w
  = match WalkDir (Clean inPath) collect [] w with
    | (Some err, _, w1) => (Failure err, w1)
    | (None, files, w1) =>
        ZipperGo.writeArchive env (dstOf inPath) files w1
    end.
Proof.
  unfold valid, ZipperGo.Zip. intros H.
  destruct ((Clean inPath =? ".")%string || (Clean inPath =? "..")%string);
    [discriminate|].
  destruct (invalidBase (Base (Clean inPath))); [discriminate|reflexivity].
Qed.

Lemma zipper_Zip_success (env : zipenv) (inPath : string) (w w' : world)
      (a : string) :
  wf (root w) = true ->
  ZipperGo.Zip env inPath w = (Success a, w') ->
  valid inPath = true /\ a = dstOf inPath
  /\ exists n entries walkEvs evs,
      stat w (Clean inPath) = Some n /\ listable n = true
      /\ creatable w (dstOf inPath) = true
      /\ map fst entries = map (walkedPath inPath) (filesBelow n)
      /\ (closeFails env = false ->
          archiveIs w' (resolve w (dstOf inPath)) (encode env entries))
      /\ trace w'
         = trace w ++ EvLstat (Clean inPath) :: walkEvs
                   ++ EvCreate (dstOf inPath) :: evs
      /\ forallb isWalkEvent walkEvs = true
      /\ forallb notWalkEvent evs = true.
Proof.
  intros Hwf H. destruct (valid inPath) eqn:Hv.
  2:{ rewrite zipper_Zip_invalid in H by assumption. discriminate. }
  rewrite zipper_Zip_valid in H by assumption. split; [reflexivity|].
  destruct (stat w (Clean inPath)) as [n|] eqn:Hst.
  2:{ rewrite WalkDir_missing in H by assumption. discriminate. }
  destruct (WalkDir_found w inPath n Hwf Hv Hst)
    as (files & wevs & Ew & Hwev & Hfiles).
  rewrite Ew in H. destruct (listable n) eqn:Hl; [|discriminate].
  cbn [walkErr] in H.
  apply zipper_writeArchive_success in H
    as (-> & Hcr & entries & evs & Hn & Harch & Ht & Hev).
  split; [reflexivity|]. exists n, entries, wevs, evs.
  repeat split; try assumption.
  - now rewrite Hn, Hfiles.
  - rewrite Ht. cbn [withTrace trace]. now rewrite <- app_assoc.
Qed.

Lemma readableFiles_find (rel : list string) :
  forall n r w d,
    readableFiles n = true -> find n rel = Some (File r w d) -> r = true.
Proof.
  induction rel as [|x rel IH]; intros n r w d Hr Hf.
  - injection Hf as ->. exact Hr.
  - destruct n as [|dr dw es]; [discriminate|]. cbn [find] in Hf.
    destruct (lookupEntry x es) as [c|] eqn:E; [|discriminate].
    apply (IH c r w d); [|assumption]. cbn [readableFiles] in Hr.
    rewrite forallb_forall in Hr. apply lookup_In in E. exact (Hr _ E).
Qed.

(** The files below the input, seen after the archive was created. *)
Lemma walked_after_create (w : world) (inPath : string) (n n1 : node)
      (rel : list string) :
  wf (root w) = true -> valid inPath = true ->
  stat w (Clean inPath) = Some n -> readableFiles n = true ->
  Fs.create (root w) (resolve w (dstOf inPath)) = Ok n1 ->
  destAmong w inPath n = false ->
  In rel (filesBelow n) ->
  readableAt (withRoot n1 w) (walkedPath inPath rel) = true
  /\ dataAt (withRoot n1 w) (walkedPath inPath rel) = dataBelow n rel.
Proof.
  intros Hwf Hv Hst Hr Ec Hd Hin.
  assert (Hwfn : wf n = true) by apply (wf_find _ _ _ Hwf Hst).
  pose proof (filesBelow_names n rel Hwfn Hin) as Hnames.
  apply (filesBelow_spec n Hwfn) in Hin as Hfile.
  destruct Hfile as (r & wr & d & Hf).
  pose proof (readableFiles_find _ _ _ _ _ Hr Hf) as ->.
  unfold readableAt, dataAt, dataBelow, stat. cbn [withRoot root].
  change (resolve (withRoot n1 w) (walkedPath inPath rel))
    with (resolve w (walkedPath inPath rel)).
  rewrite resolve_walked by assumption.
  assert (Hf0 : find (root w) (resolve w (Clean inPath) ++ rel)
                = Some (File true wr d)).
  { unfold stat in Hst. now rewrite (find_app _ _ _ _ Hst). }
  assert (Hne : resolve w (Clean inPath) ++ rel <> resolve w (dstOf inPath)).
  { intros E. unfold destAmong in Hd.
    assert (existsb
              (fun rel => samePlace (resolve w (Clean inPath) ++ rel)
                                    (resolve w (dstOf inPath)))
              (filesBelow n) = true); [|congruence].
    apply existsb_exists. exists rel. split; [assumption|].
    unfold samePlace. now destruct (list_eq_dec string_dec _ _). }
  rewrite (find_create_other _ _ _ _ _ _ _ Ec Hf0 Hne), Hf. split; reflexivity.
Qed.

Lemma zipper_Zip_ok (env : zipenv) (inPath : string) (w : world) (n : node) :
  wf (root w) = true -> valid inPath = true ->
  stat w (Clean inPath) = Some n ->
  listable n = true -> readableFiles n = true ->
  noFaults env -> creatable w (dstOf inPath) = true ->
  destAmong w inPath n = false ->
  exists w',
    ZipperGo.Zip env inPath w = (Success (dstOf inPath), w')
    /\ archiveIs w' (resolve w (dstOf inPath))
         (encode env
            (map (fun rel => (walkedPath inPath rel, dataBelow n rel))
                 (filesBelow n))).
Proof.
  intros Hwf Hv Hst Hl Hr Hnf Hcr Hd.
  rewrite zipper_Zip_valid by assumption.
  destruct (WalkDir_found w inPath n Hwf Hv Hst)
    as (files & wevs & Ew & Hwev & Hfiles).
  rewrite Ew, Hl. cbn [walkErr]. rewrite (Hfiles Hl).
  unfold creatable in Hcr.
  destruct (Fs.create (root w) (resolve w (dstOf inPath))) as [n1|] eqn:Ec;
    [|discriminate].
  set (w1 := withTrace _ w).
  destruct (zipper_writeArchive_ok env (dstOf inPath)
              (map (walkedPath inPath) (filesBelow n)) w1 n1 Hnf Ec)
    as (w' & Ez & Harch).
  { apply forallb_forall. intros f Hf. apply in_map_iff in Hf as (rel & <- & Hin).
    now apply (walked_after_create w inPath n n1 rel). }
  exists w'. split; [assumption|].
  replace (map (fun rel => (walkedPath inPath rel, dataBelow n rel)) (filesBelow n))
    with (map (fun f => (f, dataAt (withRoot n1 w1) f))
              (map (walkedPath inPath) (filesBelow n))); [assumption|].
  rewrite map_map. apply map_ext_in. intros rel Hin. f_equal.
  now apply (walked_after_create w inPath n n1 rel).
Qed.

End ZipFacts.

(** ** [Zip]: part_000 *)

Module PartFacts.
Import Filepath PathElems CleanFacts Fs FsFacts SortFacts Os ZipSpec WalkFacts ResolveFacts ZipFacts.
Import ArchiveZip.

Lemma Rel_walked (inPath : string) (rel : list string) :
  valid inPath = true -> forallb is_name rel = true ->
  Rel (Clean inPath) (walkedPath inPath rel) = inl (relName rel).
Proof.
  intros Hv Hrel. destruct rel as [|x rel]; [apply Rel_same|].
  rewrite walkedPath_below by assumption.
  destruct (valid_Clean _ Hv) as (E & Hok & Hne). rewrite E.
  unfold pathBelow. rewrite Rel_below; try assumption; [reflexivity|discriminate].
Qed.

(** *** src/unnamed/part_000: the loop *)

Lemma part_addFiles_ok (env : zipenv) (inPath : string)
      (nameOf : string -> string) (files : list string) :
  noFaults env ->
  (forall f, In f files -> Rel inPath f = inl (nameOf f)) ->
  forall zw w,
    forallb (readableAt w) files = true ->
    exists w',
      Part000.addFiles env inPath files zw w = (None, w')
      /\ forall r wr d,
          find (root w) (fnode (dest zw)) = Some (File r wr d) ->
          find (root w') (fnode (dest zw))
          = Some (File r wr
                    (encode env
                       (entries zw
                        ++ map (fun f => (nameOf f, dataAt w f)) files))).
Proof.
  intros (Hc & Hp & Hcl) Hrel.
  induction files as [|f files IH]; intros zw w Hr.
  - cbn [Part000.addFiles map]. rewrite app_nil_r.
    destruct (ArchiveZip.Close env zw w) as [err w'] eqn:E.
    apply ZipClose_run in E as (_ & _ & _ & Hok).
    destruct (Hok Hcl) as [-> Hf]. exists w'. split; [reflexivity|exact Hf].
  - cbn [forallb] in Hr. apply andb_prop in Hr as [Hf Hr].
    cbn [Part000.addFiles]. rewrite (Open_file _ _ Hf).
    rewrite (Hrel f) by now left.
    unfold ArchiveZip.Create. rewrite Hc. unfold Copy.
    rewrite (readAll_file f w (log (EvOpen f) w) eq_refl Hf).
    cbn [fname]. rewrite Hp. cbn [dest entries].
    rewrite appendLast_snoc. cbn [app].
    match goal with
    | |- context [Part000.addFiles env inPath files ?z ?w1] =>
        destruct (IH (fun g Hg => Hrel g (or_intror Hg)) z w1 Hr)
          as (w' & E & Hfind)
    end.
    rewrite E. exists w'. split; [reflexivity|].
    intros r wr d Hd. cbn [dest entries map] in *.
    rewrite (Hfind r wr d Hd), <- app_assoc. reflexivity.
Qed.

Lemma part_addFiles_run (env : zipenv) (inPath : string)
      (files : list string) :
  forall zw w err w',
    Part000.addFiles env inPath files zw w = (err, w') ->
    cwd w' = cwd w
    /\ (exists evs, trace w' = trace w ++ evs
                    /\ forallb notWalkEvent evs = true)
    /\ (err <> None -> root w' = root w)
    /\ (err = None ->
        exists names,
          Forall2 (fun f name => Rel inPath f = inl name) files names
          /\ exists es,
              map fst es = names
              /\ forall r wr d,
                  find (root w) (fnode (dest zw)) = Some (File r wr d) ->
                  find (root w') (fnode (dest zw))
                  = Some (File r wr (encode env (entries zw ++ es)))).
Proof.
  induction files as [|f files IH]; intros zw w err w' H.
  - cbn [Part000.addFiles] in H.
    apply ZipClose_run in H as (Hc & Ht & Hfail & Hok). split; [assumption|].
    split; [exists []; now rewrite app_nil_r|].
    destruct (closeFails env).
    + destruct (Hfail eq_refl) as [-> Hr]. split; [auto|discriminate].
    + destruct (Hok eq_refl) as [-> Hf]. split; [congruence|]. intros _.
      exists []. split; [constructor|]. exists []. split; [reflexivity|].
      now rewrite app_nil_r.
  - cbn [Part000.addFiles] in H.
    pose proof (Open_world f w) as Hw.
    destruct (Open f w) as [[fh|e] w1]; cbn [snd] in Hw; subst w1.
    2:{ injection H as <- <-. repeat split; auto.
        - exists [EvOpen f]. auto.
        - discriminate. }
    destruct (Rel inPath f) as [relPath|] eqn:Er.
    2:{ injection H as <- <-. repeat split; auto.
        - exists [EvOpen f; EvClose (fname fh)]. cbn [Os.Close log trace].
          now rewrite <- app_assoc.
        - discriminate. }
    unfold ArchiveZip.Create in H. destruct (createFails env relPath).
    { injection H as <- <-. repeat split; auto.
      - exists [EvOpen f; EvClose (fname fh)]. cbn [Os.Close log trace].
        now rewrite <- app_assoc.
      - discriminate. }
    unfold Copy in H. destruct (readAll fh (log (EvOpen f) w)) as [data|].
    2:{ injection H as <- <-. repeat split; auto.
        - exists [EvOpen f; EvClose (fname fh)]. cbn [Os.Close log trace].
          now rewrite <- app_assoc.
        - discriminate. }
    destruct (copyFails env (fname fh)).
    { injection H as <- <-. repeat split; auto.
      - exists [EvOpen f; EvClose (fname fh)]. cbn [Os.Close log trace].
        now rewrite <- app_assoc.
      - discriminate. }
    apply IH in H as (Hc & (evs & Ht & Hev) & Hfail & Hok).
    cbn [dest entries root cwd trace log Os.Close] in *.
    rewrite appendLast_snoc in Hok. cbn [app] in Hok.
    repeat split; auto.
    + exists (EvOpen f :: EvClose (fname fh) :: evs).
      rewrite Ht, <- !app_assoc. auto.
    + intros He. destruct (Hok He) as (names & HF & es & Hes & Hfind).
      exists (relPath :: names). split; [now constructor|].
      exists ((relPath, data) :: es). split; [cbn; now rewrite Hes|].
      intros r wr d Hd. rewrite (Hfind r wr d Hd), <- app_assoc. reflexivity.
Qed.


(** *** src/unnamed/part_000: from [os.Create] on *)

Lemma part_writeArchive_success (env : zipenv) (inPath dst : string)
      (files : list string) (w1 w' : world) (a : string) :
  Part000.writeArchive env inPath dst files w1 = (Success a, w') ->
  a = dst /\ creatable w1 dst = true
  /\ exists names entries evs,
      Forall2 (fun f name => Rel inPath f = inl name) files names
      /\ map fst entries = names
      /\ archiveIs w' (resolve w1 dst) (encode env entries)
      /\ trace w' = trace w1 ++ EvCreate dst :: evs
      /\ forallb notWalkEvent evs = true.
Proof.
  unfold Part000.writeArchive, creatable. pose proof (Create_run dst w1) as HC.
  destruct (Fs.create (root w1) (resolve w1 dst)) as [n1|e] eqn:Ec;
    rewrite HC; [|discriminate].
  destruct (Part000.addFiles _ _ _ _ _) as [err w3] eqn:Ea.
  apply part_addFiles_run in Ea as (Hc3 & (evs3 & Ht3 & Hev3) & _ & Hok).
  destruct err as [err|].
  { destruct (Os.Remove dst _) as [? ?]; discriminate. }
  intros [= <- <-]. repeat split.
  destruct (Hok eq_refl) as (names & HF & es & Hes & Hfind).
  exists names, es, (evs3 ++ [EvClose dst]).
  cbn [NewWriter entries dest fnode app] in *. repeat split; try assumption.
  - destruct (find_create_same _ _ _ Ec) as (r & wr & Hf).
    exists r, wr. cbn [Os.Close log root]. now apply (Hfind r wr []).
  - cbn [Os.Close log trace fname]. rewrite Ht3. cbn [withRoot log trace].
    rewrite <- !app_assoc. reflexivity.
  - rewrite forallb_app, Hev3. reflexivity.
Qed.

Lemma part_writeArchive_ok (env : zipenv) (inPath dst : string)
      (nameOf : string -> string) (files : list string) (w1 : world)
      (n1 : node) :
  noFaults env ->
  (forall f, In f files -> Rel inPath f = inl (nameOf f)) ->
  Fs.create (root w1) (resolve w1 dst) = Ok n1 ->
  forallb (readableAt (withRoot n1 w1)) files = true ->
  exists w',
    Part000.writeArchive env inPath dst files w1 = (Success dst, w')
    /\ archiveIs w' (resolve w1 dst)
         (encode env
            (map (fun f => (nameOf f, dataAt (withRoot n1 w1) f)) files)).
Proof.
  intros Hnf Hrel Ec Hr. unfold Part000.writeArchive.
  pose proof (Create_run dst w1) as HC. rewrite Ec in HC. rewrite HC.
  destruct (part_addFiles_ok env inPath nameOf files Hnf Hrel
              (NewWriter {| fname := dst; fnode := resolve w1 dst |})
              (withRoot n1 (log (EvCreate dst) w1)) Hr)
    as (w3 & Ea & Hfind).
  rewrite Ea. eexists. split; [reflexivity|].
  destruct (find_create_same _ _ _ Ec) as (r & wr & Hf).
  exists r, wr. cbn [Os.Close log root].
  cbn [dest entries NewWriter fnode app] in Hfind.
  now apply (Hfind r wr []).
Qed.

(** *** src/unnamed/part_000: [Zip] *)

Lemma part_Zip_invalid (env : zipenv) (inPath : string) (w : world) :
  valid inPath = false ->
  Part000.Zip env inPath w = (Failure ErrInvalidPath, w).
Proof.
  unfold valid, Part000.Zip. intros H.
  destruct ((Clean inPath =? ".")%string || (Clean inPath =? "..")%string);
    [reflexivity|].
  destruct (invalidBase (Base (Clean inPath))); [reflexivity|discriminate].
Qed.

Lemma part_Zip_valid (env : zipenv) (inPath : string) (w : world) :
  valid inPath = true ->
  Part000.Zip env inPath w
  = match WalkDir (Clean inPath) collect [] w with
    | (Some err, _, w1) => (Failure err, w1)
    | (None, files, w1) =>
        Part000.writeArchive env (Clean inPath) (dstOf inPath) files w1
    end.
Proof.
  unfold valid, Part000.Zip. intros H.
  destruct ((Clean inPath =? ".")%string || (Clean inPath =? "..")%string);
    [discriminate|].
  destruct (invalidBase (Base (Clean inPath))); [discriminate|reflexivity].
Qed.

Lemma Forall2_Rel_names (P : string) (g : list string -> string)
      (h : list string -> string) (l : list (list string)) :
  (forall x, In x l -> Rel P (g x) = inl (h x)) ->
  forall names,
    Forall2 (fun f name => Rel P f = inl name) (map g l) names ->
    names = map h l.
Proof.
  induction l as [|x l IH]; intros Hrel names HF;
    inversion HF as [|f0 nm fs nms Hhead Htail]; subst.
  - reflexivity.
  - cbn [map]. f_equal.
    + rewrite (Hrel x (or_introl eq_refl)) in Hhead. now injection Hhead.
    + apply IH; [|assumption]. intros z Hz. apply Hrel. now right.
Qed.

Lemma part_Zip_success (env : zipenv) (inPath : string) (w w' : world)
      (a : string) :
  wf (root w) = true ->
  Part000.Zip env inPath w = (Success a, w') ->
  valid inPath = true /\ a = dstOf inPath
  /\ exists n entries walkEvs evs,
      stat w (Clean inPath) = Some n /\ listable n = true
      /\ creatable w (dstOf inPath) = true
      /\ map fst entries = map relName (filesBelow n)
      /\ archiveIs w' (resolve w (dstOf inPath)) (encode env entries)
      /\ trace w'
         = trace w ++ EvLstat (Clean inPath) :: walkEvs
                   ++ EvCreate (dstOf inPath) :: evs
      /\ forallb isWalkEvent walkEvs = true
      /\ forallb notWalkEvent evs = true.
Proof.
  intros Hwf H. destruct (valid inPath) eqn:Hv.
  2:{ rewrite part_Zip_invalid in H by assumption. discriminate. }
  rewrite part_Zip_valid in H by assumption. split; [reflexivity|].
  destruct (stat w (Clean inPath)) as [n|] eqn:Hst.
  2:{ rewrite WalkDir_missing in H by assumption. discriminate. }
  destruct (WalkDir_found w inPath n Hwf Hv Hst)
    as (files & wevs & Ew & Hwev & Hfiles).
  rewrite Ew in H. destruct (listable n) eqn:Hl; [|discriminate].
  cbn [walkErr] in H.
  apply part_writeArchive_success in H
    as (-> & Hcr & names & entries & evs & HF & Hn & Harch & Ht & Hev).
  split; [reflexivity|]. exists n, entries, wevs, evs.
  repeat split; try assumption.
  - rewrite Hn. rewrite (Hfiles eq_refl) in HF.
    apply (Forall2_Rel_names (Clean inPath) (walkedPath inPath)); [|assumption].
    intros rel Hin. apply Rel_walked; [assumption|].
    apply (filesBelow_names n); [|assumption]. apply (wf_find _ _ _ Hwf Hst).
  - rewrite Ht. cbn [withTrace trace]. now rewrite <- app_assoc.
Qed.

Lemma part_Zip_ok (env : zipenv) (inPath : string) (w : world) (n : node) :
  wf (root w) = true -> valid inPath = true ->
  stat w (Clean inPath) = Some n ->
  listable n = true -> readableFiles n = true ->
  noFaults env -> creatable w (dstOf inPath) = true ->
  destAmong w inPath n = false ->
  exists w',
    Part000.Zip env inPath w = (Success (dstOf inPath), w')
    /\ archiveIs w' (resolve w (dstOf inPath))
         (encode env
            (map (fun rel => (relName rel, dataBelow n rel)) (filesBelow n))).
Proof.
  intros Hwf Hv Hst Hl Hr Hnf Hcr Hd.
  rewrite part_Zip_valid by assumption.
  destruct (WalkDir_found w inPath n Hwf Hv Hst)
    as (files & wevs & Ew & Hwev & Hfiles).
  rewrite Ew, Hl. cbn [walkErr]. rewrite (Hfiles Hl).
  unfold creatable in Hcr.
  destruct (Fs.create (root w) (resolve w (dstOf inPath))) as [n1|] eqn:Ec;
    [|discriminate].
  set (w1 := withTrace _ w).
  assert (Hwfn : wf n = true) by apply (wf_find _ _ _ Hwf Hst).
  (* the entry name of a walked path, through the list of files *)
  set (nameOf := fun f : string =>
                   match Rel (Clean inPath) f with
                   | inl name => name
                   | inr _ => ""
                   end).
  destruct (part_writeArchive_ok env (Clean inPath) (dstOf inPath) nameOf
              (map (walkedPath inPath) (filesBelow n)) w1 n1 Hnf)
    as (w' & Ez & Harch).
  { intros f Hf. apply in_map_iff in Hf as (rel & <- & Hin). unfold nameOf.
    rewrite Rel_walked; [reflexivity|assumption|].
    now apply (filesBelow_names n). }
  { exact Ec. }
  { apply forallb_forall. intros f Hf. apply in_map_iff in Hf as (rel & <- & Hin).
    now apply (walked_after_create w inPath n n1 rel). }
  exists w'. split; [assumption|].
  replace (map (fun rel => (relName rel, dataBelow n rel)) (filesBelow n))
    with (map (fun f => (nameOf f, dataAt (withRoot n1 w1) f))
              (map (walkedPath inPath) (filesBelow n))); [assumption|].
  rewrite map_map. apply map_ext_in. intros rel Hin. f_equal.
  - unfold nameOf. rewrite Rel_walked; [reflexivity|assumption|].
    now apply (filesBelow_names n).
  - now apply (walked_after_create w inPath n n1 rel).
Qed.

End PartFacts.

(** ** The order of the walk *)

Module OrderFacts.
Import Fs FsFacts SortFacts.

Lemma ltb_lt (a b : string) : String.ltb a b = true <-> OrderedTypeEx.String_as_OT.lt a b.
Proof.
  unfold String.ltb. rewrite <- OrderedTypeEx.String_as_OT.cmp_lt. unfold OrderedTypeEx.String_as_OT.cmp.
  destruct (String.compare a b); split; congruence.
Qed.

Lemma ltb_trans (a b c : string) :
  String.ltb a b = true -> String.ltb b c = true -> String.ltb a c = true.
Proof. rewrite !ltb_lt. apply OrderedTypeEx.String_as_OT.lt_trans. Qed.

Lemma ltb_irrefl (a : string) : String.ltb a a = false.
Proof.
  destruct (String.ltb a a) eqn:E; [|reflexivity].
  apply ltb_lt in E. apply OrderedTypeEx.String_as_OT.lt_not_eq in E.
  exfalso. apply E. reflexivity.
Qed.

Lemma leb_cases (a b : string) :
  String.leb a b = true <-> a = b \/ String.ltb a b = true.
Proof.
  unfold String.leb, String.ltb.
  destruct (String.compare a b) eqn:E.
  - split; [|reflexivity]. intros _. left. now apply String.compare_eq_iff.
  - split; auto.
  - split; [discriminate|]. intros [->|H]; [|discriminate].
    assert (String.compare b b = Eq)
      by (apply (proj2 (OrderedTypeEx.String_as_OT.cmp_eq b b)); reflexivity).
    congruence.
Qed.

Lemma leb_trans (a b c : string) :
  String.leb a b = true -> String.leb b c = true -> String.leb a c = true.
Proof.
  rewrite !leb_cases. intros [->|H1] [->|H2]; auto.
  right. now apply (ltb_trans a b c).
Qed.

Section SortedByName.
Context {X : Type}.
Implicit Types (l : list (string * X)) (e : string * X).

Lemma insert_sorted e l :
  StronglySorted nameLe l -> StronglySorted nameLe (insertByName e l).
Proof.
  induction 1 as [|e' l Hl IH Hall]; simpl; [repeat constructor|].
  destruct (String.leb (fst e) (fst e')) eqn:E.
  - constructor; [now constructor|]. constructor; [exact E|].
    eapply Forall_impl; [|exact Hall]. intros x Hx.
    apply (leb_trans _ (fst e')); assumption.
  - constructor; [assumption|].
    apply Forall_forall. intros x Hx.
    apply (Permutation_in _ (insert_perm e l)) in Hx as [<-|Hx].
    + unfold nameLe. destruct (String.leb_total (fst e) (fst e')); congruence.
    + rewrite Forall_forall in Hall. now apply Hall.
Qed.

Lemma sort_sorted l : StronglySorted nameLe (sortByName l).
Proof.
  induction l as [|e l IH]; simpl; [constructor|]. now apply insert_sorted.
Qed.

Lemma uniqueNames_NoDup l : uniqueNames l = true -> NoDup (map fst l).
Proof.
  induction l as [|[x v] l IH]; simpl; [constructor|].
  destruct (lookupEntry x l) eqn:E; [discriminate|]. intros Hu.
  constructor; [|now apply IH]. intros Hin.
  apply in_map_iff in Hin as ([y u] & Hy & Hin). simpl in Hy. subst y.
  clear IH Hu. induction l as [|[z t] l IH]; [contradiction|].
  simpl in E. destruct (String.eqb_spec z x) as [->|Hne]; [discriminate|].
  destruct Hin as [[= -> ->]|Hin]; [congruence|]. now apply IH.
Qed.

Lemma sorted_strict l :
  NoDup (map fst l) -> StronglySorted nameLe l -> StronglySorted nameLt l.
Proof.
  induction 2 as [|e l Hl IH Hall]; [constructor|].
  simpl in H. inversion H as [|x xs Hnin Hnd]; subst.
  constructor; [now apply IH|].
  apply Forall_forall. intros e' Hin. rewrite Forall_forall in Hall.
  specialize (Hall _ Hin). apply leb_cases in Hall as [E|Hlt]; [|assumption].
  exfalso. apply Hnin. rewrite E. now apply in_map.
Qed.

Lemma sort_strict l :
  uniqueNames l = true -> StronglySorted nameLt (sortByName l).
Proof.
  intros Hu. apply sorted_strict; [|apply sort_sorted].
  eapply Permutation_NoDup; [|apply uniqueNames_NoDup; exact Hu].
  apply Permutation_map. symmetry. apply sort_perm.
Qed.

End SortedByName.

Lemma sorted_app {A : Type} (R : A -> A -> Prop) (l1 l2 : list A) :
  StronglySorted R l1 -> StronglySorted R l2 ->
  (forall a b, In a l1 -> In b l2 -> R a b) ->
  StronglySorted R (l1 ++ l2).
Proof.
  induction 1 as [|a l1 Hl1 IH Hall]; intros H2 Hcross; [assumption|].
  cbn [app]. constructor.
  - apply IH; [assumption|]. intros x y Hx Hy. apply Hcross; [now right|assumption].
  - apply Forall_app. split; [assumption|].
    apply Forall_forall. intros y Hy. apply Hcross; [now left|assumption].
Qed.

Lemma sorted_map_cons (x : string) (l : list (list string)) :
  StronglySorted lexOrder l -> StronglySorted lexOrder (map (cons x) l).
Proof.
  induction 1 as [|p l Hl IH Hall]; cbn [map]; constructor; [assumption|].
  apply Forall_forall. intros q Hq. apply in_map_iff in Hq as (q' & <- & Hq').
  rewrite Forall_forall in Hall. unfold lexOrder. cbn [lexLt].
  rewrite String.eqb_refl. now apply Hall.
Qed.

Lemma sorted_flat (l : list (string * node)) :
  StronglySorted nameLt l ->
  Forall (fun e => StronglySorted lexOrder (filesBelow (snd e))) l ->
  StronglySorted lexOrder
    (flat_map (fun e => map (cons (fst e)) (filesBelow (snd e))) l).
Proof.
  induction 1 as [|e l Hl IH Hall]; intros Hfb; [constructor|].
  inversion Hfb as [|? ? He Hrest]; subst. cbn [flat_map].
  apply sorted_app; [now apply sorted_map_cons|now apply IH|].
  intros p q Hp Hq. apply in_map_iff in Hp as (p' & <- & _).
  apply in_flat_map in Hq as (e' & He' & Hq).
  apply in_map_iff in Hq as (q' & <- & _).
  rewrite Forall_forall in Hall. specialize (Hall _ He').
  unfold lexOrder, nameLt in *. cbn [lexLt].
  destruct (String.eqb_spec (fst e) (fst e')) as [E|_]; [|assumption].
  rewrite E, ltb_irrefl in Hall. discriminate.
Qed.

(** The files of a tree are listed in the order of their paths. *)
Lemma filesBelow_sorted (n : node) :
  wf n = true -> StronglySorted lexOrder (filesBelow n).
Proof.
  induction n as [r w d|r w es IH] using node_ind; intros Hwf.
  - repeat constructor.
  - rewrite filesBelow_dir. apply sorted_flat.
    + apply sort_strict. cbn [wf] in Hwf. now apply andb_prop in Hwf as [_ Hu].
    + apply Forall_forall. intros e He. apply (proj1 (sort_In _ _)) in He.
      rewrite Forall_forall in IH. apply (IH _ He).
      now destruct (wf_entry _ _ _ _ Hwf He).
Qed.

End OrderFacts.

(** ** Entry names and the place of the archive *)

Module EntryFacts.
Import Filepath PathElems CleanFacts Fs FsFacts SortFacts Os ZipSpec WalkFacts ResolveFacts ZipFacts PartFacts OrderFacts StrFacts.

Lemma lexLt_irrefl (p : list string) : lexLt p p = false.
Proof. induction p as [|x p IH]; simpl; [reflexivity|]. now rewrite String.eqb_refl. Qed.

Lemma sorted_NoDup (l : list (list string)) :
  StronglySorted lexOrder l -> NoDup l.
Proof.
  induction 1 as [|p l Hl IH Hall]; constructor; [|assumption].
  intros Hin. rewrite Forall_forall in Hall. specialize (Hall _ Hin).
  unfold lexOrder in Hall. now rewrite lexLt_irrefl in Hall.
Qed.

Lemma filesBelow_NoDup (n : node) : wf n = true -> NoDup (filesBelow n).
Proof. intros H. now apply sorted_NoDup, filesBelow_sorted. Qed.

Lemma dir_rel_nonempty (n : node) (rel : list string) :
  isDir n = true -> In rel (filesBelow n) -> rel <> [].
Proof.
  destruct n as [|r w es]; [discriminate|]. intros _.
  rewrite filesBelow_dir, in_flat_map. intros (e & _ & Hin).
  apply in_map_iff in Hin as (rel' & <- & _). discriminate.
Qed.

Lemma relName_dir (n : node) (rel : list string) :
  isDir n = true -> In rel (filesBelow n) ->
  relName rel = String.concat slash rel.
Proof.
  intros Hd Hin. pose proof (dir_rel_nonempty n rel Hd Hin).
  destruct rel; [congruence|reflexivity].
Qed.

Lemma concat_app (l1 l2 : list string) :
  l1 <> [] -> l2 <> [] ->
  String.concat slash (l1 ++ l2)
  = (String.concat slash l1 ++ String Separator (String.concat slash l2))%string.
Proof.
  intros H1 H2. induction l1 as [|x l1 IH]; [congruence|].
  destruct l1 as [|y l1].
  - cbn [app]. destruct l2; [congruence|]. apply concat_cons.
  - change ((x :: y :: l1) ++ l2) with (x :: y :: (l1 ++ l2)).
    rewrite !concat_cons. change (y :: l1 ++ l2) with ((y :: l1) ++ l2).
    rewrite IH by discriminate. now rewrite append_assoc.
Qed.

Lemma tokens_concat (l : list string) :
  Forall elem_ok l -> l <> [] -> tokens (String.concat slash l) = l.
Proof.
  induction 1 as [|x l [_ Hx] Hl IH]; intros Hne; [congruence|].
  destruct l as [|y l].
  - cbn [String.concat]. now apply tokens_elem.
  - rewrite concat_cons, tokens_app_sep, IH by discriminate.
    now rewrite tokens_elem.
Qed.

Lemma eltStep_names (rooted : bool) (names : list string) :
  forallb is_name names = true ->
  forall st, fold_left (eltStep rooted) names st = rev names ++ st.
Proof.
  induction names as [|x names IH]; intros Hn st; [reflexivity|].
  cbn [forallb] in Hn. apply andb_prop in Hn as [Hx Hn].
  cbn [fold_left rev]. rewrite IH by assumption. rewrite <- app_assoc.
  now rewrite eltStep_name.
Qed.

(** In zipper.go the entry name is the cleaned input followed by the
    relative path. *)
Lemma walkedPath_concat (inPath : string) (rel : list string) :
  valid inPath = true -> forallb is_name rel = true -> rel <> [] ->
  walkedPath inPath rel
  = (dirPrefix (Clean inPath) ++ String.concat slash rel)%string.
Proof.
  intros Hv Hrel Hne. rewrite walkedPath_below by assumption.
  destruct (valid_Clean _ Hv) as (E & Hok & Hst). rewrite E.
  set (rooted := isRooted inPath) in *. set (st := stackOf inPath) in *.
  assert (Hrel' : forallb is_name (rev rel) = true).
  { rewrite forallb_forall in *. intros x Hx. apply Hrel. now apply in_rev. }
  unfold pathBelow. rewrite (render_concat rooted (rev rel ++ st)).
  2:{ now apply stack_ok_names. }
  2:{ left. intros H. apply app_eq_nil in H as [H _].
      apply (f_equal (@rev string)) in H. now rewrite rev_involutive in H. }
  rewrite rev_app_distr, rev_involutive.
  destruct st as [|e st'] eqn:Est.
  - destruct Hst as [?|Hr]; [congruence|]. rewrite Hr. reflexivity.
  - rewrite concat_app; [|cbn [rev]; intros H; now apply app_eq_nil in H as [_ H]|assumption].
    rewrite <- append_assoc, <- render_concat by assumption.
    unfold dirPrefix.
    replace (render rooted (e :: st') =? slash)%string with false;
      [now rewrite append_assoc|].
    symmetry. apply String.eqb_neq. intros H.
    pose proof (length_render rooted (e :: st') ltac:(left; discriminate) Hok) as HL.
    rewrite H in HL. change (String.length slash) with 1 in HL.
    destruct (bufOf_nonempty _ _ _ Hok) as [H1|[Hr _]]; [lia|].
    pose proof (isRooted_render rooted (e :: st') Hok ltac:(left; discriminate)) as HR.
    rewrite H, Hr in HR. discriminate.
Qed.

(** The entry name of part_000, joined to the input, is the walked
    path of the file. *)
Lemma Join_relName (inPath : string) (rel : list string) :
  valid inPath = true -> forallb is_name rel = true ->
  Join (Clean inPath) (relName rel) = walkedPath inPath rel.
Proof.
  intros Hv Hrel. rewrite walkedPath_below by assumption.
  destruct (valid_Clean _ Hv) as (E & Hok & Hst). rewrite E.
  set (rooted := isRooted inPath) in *. set (st := stackOf inPath) in *.
  unfold Join. pose proof (render_not_empty rooted st) as Hr.
  apply String.eqb_neq in Hr. rewrite Hr. apply String.eqb_neq in Hr.
  rewrite Clean_sem. unfold cleanSem, cleanStack.
  rewrite isRooted_app, isRooted_render by assumption.
  rewrite tokens_app_sep, fold_left_app.
  fold (cleanStack rooted (tokens (render rooted st))).
  rewrite cleanStack_render by assumption. unfold pathBelow.
  destruct rel as [|x rel]; [reflexivity|].
  unfold relName. rewrite tokens_concat;
    [|now apply names_elems|discriminate].
  now rewrite eltStep_names.
Qed.

Lemma takeElement_nosep (l : list ascii) (c : ascii) :
  In c (takeElement l) -> IsPathSeparator c = false.
Proof.
  induction l as [|a l IH]; simpl; [contradiction|].
  destruct (IsPathSeparator a) eqn:E; [contradiction|].
  intros [<-|H]; [assumption|now apply IH].
Qed.

Lemma Base_sepfree (p : string) : Base p <> slash -> sepfree (Base p) = true.
Proof.
  unfold Base. destruct (p =? "")%string; [reflexivity|].
  destruct (takeElement (dropSeps (Str.rev_onto p []))) as [|c e] eqn:E;
    [intros H; exfalso; now apply H|]. intros _.
  unfold sepfree, Str.has, Str.of_rev.
  rewrite list_ascii_of_string_of_list_ascii. apply negb_true_iff.
  destruct (existsb _ _) eqn:Ex; [|reflexivity].
  apply existsb_exists in Ex as (x & Hx & Hs). apply in_rev in Hx.
  rewrite <- E in Hx. apply takeElement_nosep in Hx.
  unfold IsPathSeparator in Hx. congruence.
Qed.

Lemma dstOf_name (inPath : string) :
  valid inPath = true -> Base (Clean inPath) <> slash ->
  is_name (dstOf inPath) = true.
Proof.
  intros Hv Hb. pose proof (Base_sepfree _ Hb) as Hs.
  unfold is_name, dstOf. rewrite sepfree_append, Hs.
  assert (HL : forall s, String.length s < 4 ->
                         ((Base (Clean inPath) ++ ".zip" =? s)%string = false)).
  { intros s Hlen. apply String.eqb_neq. intros E.
    apply (f_equal String.length) in E. rewrite length_append in E.
    simpl in E. lia. }
  rewrite !HL by (simpl; lia). reflexivity.
Qed.

(** Unless the cleaned input is the root, the archive is an entry of
    the working directory. *)
Lemma resolve_dstOf (w : world) (inPath : string) :
  valid inPath = true -> Base (Clean inPath) <> slash ->
  resolve w (dstOf inPath) = cwd w ++ [dstOf inPath].
Proof.
  intros Hv Hb. pose proof (dstOf_name _ Hv Hb) as Hn.
  pose proof (is_name_inv _ Hn) as (Hne & _ & _ & Hs).
  unfold resolve. rewrite (tokens_elem _ Hs).
  replace (isRooted (dstOf inPath)) with false.
  - cbn [fold_left]. unfold nameiStep.
    apply is_name_inv in Hn as (H1 & H2 & H3 & _).
    apply String.eqb_neq in H1, H2, H3. rewrite H1, H2, H3.
    cbn [orb rev]. now rewrite rev_involutive.
  - destruct (dstOf inPath) as [|c s]; [congruence|].
    rewrite sepfree_cons in Hs. apply andb_prop in Hs as [Hc _].
    cbn [isRooted]. now apply negb_true_iff in Hc.
Qed.

(** Every file that the walk reports exists when the walk is made. *)
Lemma walked_exists (w : world) (inPath : string) (n : node)
      (rel : list string) :
  wf (root w) = true -> valid inPath = true ->
  stat w (Clean inPath) = Some n -> In rel (filesBelow n) ->
  exists r wr d, stat w (walkedPath inPath rel) = Some (File r wr d).
Proof.
  intros Hwf Hv Hst Hin.
  assert (Hwfn : wf n = true) by apply (wf_find _ _ _ Hwf Hst).
  pose proof (filesBelow_names n rel Hwfn Hin) as Hnames.
  apply (filesBelow_spec n Hwfn) in Hin as (r & wr & d & Hf).
  exists r, wr, d. unfold stat in *. rewrite resolve_walked by assumption.
  now rewrite (find_app _ _ _ _ Hst).
Qed.

End EntryFacts.

(** ** The list of files depends on the files only *)

Module CanonFacts.
Import Filepath PathElems CleanFacts Fs FsFacts SortFacts Os ZipSpec OrderFacts EntryFacts.

Lemma lexLt_trans (p : list string) :
  forall q r, lexLt p q = true -> lexLt q r = true -> lexLt p r = true.
Proof.
  induction p as [|x p IH]; intros [|y q] [|z r] H1 H2;
    try discriminate; try reflexivity.
  cbn [lexLt] in *.
  destruct (String.eqb_spec x y) as [->|Hxy];
    destruct (String.eqb_spec y z) as [->|Hyz].
  - now apply (IH q r).
  - assumption.
  - apply String.eqb_neq in Hxy. now rewrite Hxy.
  - pose proof (ltb_trans _ _ _ H1 H2) as H3.
    destruct (String.eqb_spec x z) as [->|_]; [|assumption].
    now rewrite ltb_irrefl in H3.
Qed.

(** A list in strict order is determined by its elements. *)
Lemma sorted_unique (l1 : list (list string)) :
  forall l2,
    StronglySorted lexOrder l1 -> StronglySorted lexOrder l2 ->
    (forall x, In x l1 <-> In x l2) -> l1 = l2.
Proof.
  induction l1 as [|a l1 IH]; intros l2 H1 H2 Hiff.
  - destruct l2 as [|b l2]; [reflexivity|].
    destruct (proj2 (Hiff b) (or_introl eq_refl)).
  - destruct l2 as [|b l2]; [destruct (proj1 (Hiff a) (or_introl eq_refl))|].
    inversion H1 as [|? ? S1 A1]; inversion H2 as [|? ? S2 A2]; subst.
    rewrite Forall_forall in A1, A2.
    assert (a = b).
    { destruct (proj1 (Hiff a) (or_introl eq_refl)) as [E|Hin]; [auto|].
      destruct (proj2 (Hiff b) (or_introl eq_refl)) as [E|Hin']; [auto|].
      pose proof (lexLt_trans _ _ _ (A1 _ Hin') (A2 _ Hin)) as Hc.
      now rewrite lexLt_irrefl in Hc. }
    subst b. f_equal. apply IH; try assumption.
    intros x. split; intros Hx.
    + destruct (proj1 (Hiff x) (or_intror Hx)) as [<-|Hin]; [|assumption].
      pose proof (A1 _ Hx) as Hc. unfold lexOrder in Hc.
      now rewrite lexLt_irrefl in Hc.
    + destruct (proj2 (Hiff x) (or_intror Hx)) as [<-|Hin]; [|assumption].
      pose proof (A2 _ Hx) as Hc. unfold lexOrder in Hc.
      now rewrite lexLt_irrefl in Hc.
Qed.

(** The list of files of a tree depends on the paths of its files
    only, not on the order in which a directory keeps its entries. *)
Lemma filesBelow_canonical (n n' : node) :
  wf n = true -> wf n' = true ->
  (forall rel, isFileAt n rel <-> isFileAt n' rel) ->
  filesBelow n = filesBelow n'.
Proof.
  intros Hn Hn' Hiff. apply sorted_unique; try now apply filesBelow_sorted.
  intros rel. now rewrite !filesBelow_spec, Hiff.
Qed.

End CanonFacts.

(** ** The test cases of zipper_test.go on the model *)

Module Tests.
Import Fs Os ArchiveZip TestData.

Example zipper_single_file :
  let r := ZipperGo.Zip healthy "/tmp/single/test.txt" w0 in
  fst r = Success "test.txt.zip"
  /\ archiveAt ["work"; "test.txt.zip"] r
     = Some (enc [("/tmp/single/test.txt", bytes "test content")]).
Proof. vm_compute. split; reflexivity. Qed.

Example part000_single_file :
  let r := Part000.Zip healthy "/tmp/single/test.txt" w0 in
  fst r = Success "test.txt.zip"
  /\ archiveAt ["work"; "test.txt.zip"] r
     = Some (enc [(".", bytes "test content")]).
Proof. vm_compute. split; reflexivity. Qed.

Example zipper_nested :
  let r := ZipperGo.Zip healthy "/tmp/nested" w0 in
  fst r = Success "nested.zip"
  /\ archiveAt ["work"; "nested.zip"] r
     = Some (enc [("/tmp/nested/root.txt", bytes "root");
                  ("/tmp/nested/subdir/nested.txt", bytes "nested")]).
Proof. vm_compute. split; reflexivity. Qed.

Example part000_nested :
  let r := Part000.Zip healthy "/tmp/nested" w0 in
  fst r = Success "nested.zip"
  /\ archiveAt ["work"; "nested.zip"] r
     = Some (enc [("root.txt", bytes "root");
                  ("subdir/nested.txt", bytes "nested")]).
Proof. vm_compute. split; reflexivity. Qed.

Example zipper_empty_dir :
  let r := ZipperGo.Zip healthy "/tmp/empty" w0 in
  fst r = Success "empty.zip"
  /\ archiveAt ["work"; "empty.zip"] r = Some (enc []).
Proof. vm_compute. split; reflexivity. Qed.

Example zipper_dot : ZipperGo.Zip healthy "." w0 = (Failure ErrInvalidPath, w0).
Proof. reflexivity. Qed.

Example zipper_dotdot : ZipperGo.Zip healthy ".." w0 = (Failure ErrInvalidPath, w0).
Proof. reflexivity. Qed.

Example zipper_nonexistent :
  let r := ZipperGo.Zip healthy "/nonexistent/path/that/does/not/exist" w0 in
  fst r = Failure ErrNotExist /\ root (snd r) = disk.
Proof. vm_compute. split; reflexivity. Qed.

(** The order is by element, not by the joined string: the directory
    [a] comes before the file [a.b], though ["a.b"] is before ["a/b"]
    as a string. *)
Example walk_order_is_by_element :
  filesBelow (Dir true true
                [ ("a.b", File true true []);
                  ("a", Dir true true [("b", File true true [])]) ])
  = [["a"; "b"]; ["a.b"]]
  /\ String.ltb "a.b" "a/b" = true.
Proof. vm_compute. split; reflexivity. Qed.

End Tests.

(** ** What an error return of zipper.go leaves behind *)

Module ResidueFacts.
Import Filepath PathElems CleanFacts Fs FsFacts SortFacts Os ZipSpec.
Import WalkFacts ResolveFacts ZipFacts PartFacts ArchiveZip.

Lemma wf_uniq (n : node) : wf n = true -> uniq n = true.
Proof.
  induction n as [r w d|r w es IH] using node_ind; intros H; [reflexivity|].
  cbn [wf uniq] in *. apply andb_prop in H as [Hall Hu]. rewrite Hu.
  apply forallb_forall. intros e He. rewrite Forall_forall in IH.
  apply (IH _ He). rewrite forallb_forall in Hall.
  specialize (Hall _ He). now apply andb_prop in Hall as [_ Hall].
Qed.

Lemma uniqueNames_set {X : Type} (x : string) (v : X)
      (es : list (string * X)) :
  uniqueNames es = true -> uniqueNames (setEntry x v es) = true.
Proof.
  induction es as [|[n u] es IH]; simpl; [reflexivity|].
  destruct (lookupEntry n es) eqn:E; [discriminate|]. intros Hu.
  destruct (String.eqb_spec n x) as [->|Hne]; simpl.
  - now rewrite E.
  - rewrite lookup_set_other by congruence. rewrite E. now apply IH.
Qed.

Lemma forallb_set {X : Type} (P : X -> bool) (x : string) (v : X)
      (es : list (string * X)) :
  forallb (fun e => P (snd e)) es = true -> P v = true ->
  forallb (fun e => P (snd e)) (setEntry x v es) = true.
Proof.
  intros Hall Hv. induction es as [|[n u] es IH]; simpl.
  - now rewrite Hv.
  - simpl in Hall. apply andb_prop in Hall as [Hu Hall].
    destruct (n =? x)%string; simpl; [now rewrite Hv, Hall|].
    now rewrite Hu, IH.
Qed.

Lemma uniq_entry (r w : bool) (es : list (string * node)) (x : string)
      (c : node) :
  uniq (Dir r w es) = true -> lookupEntry x es = Some c -> uniq c = true.
Proof.
  cbn [uniq]. intros H E. apply andb_prop in H as [_ Hall].
  rewrite forallb_forall in Hall. apply lookup_In in E. exact (Hall _ E).
Qed.

Lemma uniq_set (r w : bool) (es : list (string * node)) (x : string)
      (c : node) :
  uniq (Dir r w es) = true -> uniq c = true ->
  uniq (Dir r w (setEntry x c es)) = true.
Proof.
  cbn [uniq]. intros H Hc. apply andb_prop in H as [Hu Hall].
  now rewrite uniqueNames_set, forallb_set.
Qed.

Lemma uniq_create (p : list string) :
  forall n n', uniq n = true -> create n p = Ok n' -> uniq n' = true.
Proof.
  induction p as [|x p IH]; intros n n' Hu H.
  - destruct n; discriminate.
  - destruct n as [|r w es]; [discriminate|]. cbn [create] in H.
    destruct p as [|y p].
    + destruct (lookupEntry x es) as [[fr fw d|? ? ?]|] eqn:E.
      * destruct (fr && fw); [|discriminate]. injection H as <-.
        now apply uniq_set.
      * discriminate.
      * destruct w; [|discriminate]. injection H as <-. now apply uniq_set.
    + destruct (lookupEntry x es) as [c|] eqn:E; [|discriminate].
      destruct (create c (y :: p)) as [c'|e] eqn:Ec; [|discriminate].
      injection H as <-. apply uniq_set; [assumption|].
      apply (IH c); [|assumption]. now apply (uniq_entry r w es x).
Qed.

Lemma uniq_setData (p : list string) :
  forall n n' data,
    uniq n = true -> setData n p data = Some n' -> uniq n' = true.
Proof.
  induction p as [|x p IH]; intros n n' data Hu H.
  - destruct n; [|discriminate]. now injection H as <-.
  - destruct n as [|r w es]; [discriminate|]. cbn [setData] in H.
    destruct (lookupEntry x es) as [c|] eqn:E; [|discriminate].
    destruct (setData c p data) as [c'|] eqn:Ec; [|discriminate].
    injection H as <-. apply uniq_set; [assumption|].
    apply (IH c _ data); [|assumption]. now apply (uniq_entry r w es x).
Qed.

Lemma find_remove_uniq (p : list string) :
  forall n n', uniq n = true -> remove n p = Ok n' -> find n' p = None.
Proof.
  induction p as [|x p IH]; intros n n' Hu H.
  - destruct n; discriminate.
  - destruct n as [|dr dw es]; [discriminate|]. cbn [remove] in H.
    destruct (lookupEntry x es) as [c|] eqn:E; [|discriminate].
    destruct p as [|y p].
    + assert (Hn' : n' = Dir dr dw (removeEntry x es)).
      { destruct c as [? ? ?|? ? [|? ?]]; try discriminate;
          (destruct dw; [|discriminate]); now injection H as <-. }
      subst n'. cbn [find]. rewrite lookup_remove_same; [reflexivity|].
      cbn [uniq] in Hu. now apply andb_prop in Hu as [Hu _].
    + destruct (remove c (y :: p)) as [c'|e] eqn:Ec; [|discriminate].
      injection H as <-. cbn [find]. rewrite lookup_set_same.
      apply (IH c); [|assumption]. now apply (uniq_entry dr dw es x).
Qed.

Lemma WalkDir_same_disk {A : Type} (path : string) (fn : WalkDirFunc A)
      (acc : A) (w : world) :
  forall err acc' w1,
    WalkDir path fn acc w = (err, acc', w1) ->
    root w1 = root w /\ cwd w1 = cwd w.
Proof.
  intros err acc' w1. unfold WalkDir, Lstat.
  destruct (stat w path) as [n|].
  - destruct (walkDir fn (Base path) n path acc _) as [[e a] tr].
    destruct e as [e|]; [destruct (_ || _)|]; intros [= _ _ <-]; split; reflexivity.
  - destruct (fn path None (Some ErrNotExist) acc) as [e a].
    destruct e as [e|]; [destruct (_ || _)|]; intros [= _ _ <-]; split; reflexivity.
Qed.

(** zipper.go leaves no archive behind when it returns an error: either
    nothing was created, or the archive was removed. *)
Lemma zipper_no_residue (env : zipenv) (inPath : string) (w w' : world)
      (e : error) :
  wf (root w) = true ->
  ZipperGo.Zip env inPath w = (Failure e, w') ->
  root w' = root w \/ stat w' (dstOf inPath) = None.
Proof.
  intros Hwf H. destruct (valid inPath) eqn:Hv.
  2:{ rewrite zipper_Zip_invalid in H by assumption. injection H as _ <-. now left. }
  rewrite zipper_Zip_valid in H by assumption.
  destruct (WalkDir (Clean inPath) collect [] w) as [[err files] w1] eqn:Ew.
  apply WalkDir_same_disk in Ew as [Hr1 Hc1].
  destruct err as [err|]; [injection H as _ <-; now left|].
  unfold ZipperGo.writeArchive in H.
  pose proof (Create_run (dstOf inPath) w1) as HC.
  destruct (Fs.create (root w1) (resolve w1 (dstOf inPath))) as [n1|ce] eqn:Ec;
    rewrite HC in H; [|injection H as _ <-; now left].
  destruct (ZipperGo.addFiles _ _ _ _ _) as [[[aerr zw] opened] w3] eqn:Ea.
  apply zipper_addFiles_run in Ea as (Hr3 & Hc3 & _).
  destruct (closeAll_run opened w3) as (Hr4 & Hc4 & _).
  destruct (ArchiveZip.Close env zw (ZipperGo.closeAll opened w3))
    as [cerr w5] eqn:Ez.
  assert (Hu5 : uniq (root w5) = true /\ cwd w5 = cwd w).
  { assert (Hu1 : uniq n1 = true).
    { assert (Hu0 : uniq (root w1) = true)
        by (rewrite Hr1; now apply wf_uniq).
      apply (uniq_create _ _ _ Hu0 Ec). }
    unfold ArchiveZip.Close in Ez. destruct (closeFails env).
    - injection Ez as _ <-. rewrite Hr4, Hr3, Hc4, Hc3. now split.
    - injection Ez as _ <-. unfold writeAll.
      destruct (setData _ _ _) as [n5|] eqn:Es; cbn [withRoot root cwd].
      + rewrite Hr4, Hr3 in Es. cbn [withRoot log root] in Es.
        split; [now apply (uniq_setData _ _ _ _ Hu1 Es)|].
        now rewrite Hc4, Hc3.
      + rewrite Hr4, Hr3, Hc4, Hc3. now split. }
  destruct Hu5 as [Hu5 Hc5].
  destruct aerr as [aerr|]; [|discriminate].
  unfold Os.Remove in H.
  match type of H with
  | context [remove ?r (resolve ?x (dstOf inPath))] =>
      change (remove r (resolve x (dstOf inPath)))
        with (remove (root w5) (resolve w5 (dstOf inPath))) in H
  end.
  destruct (remove (root w5) (resolve w5 (dstOf inPath))) as [n7|re] eqn:Er;
    cbv beta iota in H; [|discriminate].
  injection H as _ <-. right. unfold stat. cbn [withRoot log root].
  change (resolve (withRoot n7 _) (dstOf inPath)) with (resolve w5 (dstOf inPath)).
  now apply (find_remove_uniq _ _ _ Hu5 Er).
Qed.

End ResidueFacts.

Import Filepath PathElems CleanFacts Fs FsFacts SortFacts Os ZipSpec.
Import WalkFacts ResolveFacts ZipFacts PartFacts OrderFacts EntryFacts CanonFacts.
Import ArchiveZip TestData.

(** * The properties of the specification *)

(** C1 (as amended): for a directory whose directories can be listed
    and whose files can be read, when the archive can be created and
    written and is not itself one of the files below the directory,
    [Zip] succeeds and the archive holds one entry for every file below
    the directory, with the bytes of that file: the entries are the
    image of the list of files, which has no repetition and lists
    exactly the files of the tree. *)
Theorem C1_round_trip (env : zipenv) (inPath : string) (w : world) (n : node) :
  wf (root w) = true -> valid inPath = true ->
  stat w (Clean inPath) = Some n -> isDir n = true ->
  listable n = true -> readableFiles n = true ->
  noFaults env -> creatable w (dstOf inPath) = true ->
  destAmong w inPath n = false ->
  (exists w',
      ZipperGo.Zip env inPath w = (Success (dstOf inPath), w')
      /\ archiveIs w' (resolve w (dstOf inPath))
           (encode env
              (map (fun rel => (walkedPath inPath rel, dataBelow n rel))
                   (filesBelow n))))
  /\ (exists w',
         Part000.Zip env inPath w = (Success (dstOf inPath), w')
         /\ archiveIs w' (resolve w (dstOf inPath))
              (encode env
                 (map (fun rel => (String.concat slash rel, dataBelow n rel))
                      (filesBelow n))))
  /\ NoDup (filesBelow n)
  /\ (forall rel, In rel (filesBelow n) <-> isFileAt n rel).
Proof.
  intros Hwf Hv Hst Hdir Hl Hr Hnf Hcr Hd.
  assert (Hwfn : wf n = true) by apply (wf_find _ _ _ Hwf Hst).
  split; [now apply zipper_Zip_ok|]. split.
  - destruct (part_Zip_ok env inPath w n) as (w' & E & Ha); try assumption.
    exists w'. split; [assumption|].
    replace (map (fun rel => (String.concat slash rel, dataBelow n rel))
                 (filesBelow n))
      with (map (fun rel => (relName rel, dataBelow n rel)) (filesBelow n));
      [assumption|].
    apply map_ext_in. intros rel Hin. now rewrite (relName_dir n).
  - split; [now apply filesBelow_NoDup|]. now apply filesBelow_spec.
Qed.

Lemma C1_witness :
  (exists w',
      ZipperGo.Zip healthy "/tmp/nested" w0 = (Success "nested.zip", w')
      /\ archiveIs w' ["work"; "nested.zip"]
           (enc [("/tmp/nested/root.txt", bytes "root");
                 ("/tmp/nested/subdir/nested.txt", bytes "nested")]))
  /\ (exists w',
         Part000.Zip healthy "/tmp/nested" w0 = (Success "nested.zip", w')
         /\ archiveIs w' ["work"; "nested.zip"]
              (enc [("root.txt", bytes "root");
                    ("subdir/nested.txt", bytes "nested")])).
Proof.
  pose proof (C1_round_trip healthy "/tmp/nested" w0
                (Dir true true
                   [ ("subdir", Dir true true [("nested.txt", file "nested")]);
                     ("root.txt", file "root") ])
                eq_refl eq_refl eq_refl eq_refl eq_refl eq_refl
                (conj (fun _ => eq_refl) (conj (fun _ => eq_refl) eq_refl))
                eq_refl eq_refl) as (Hz & Hp & _).
  split; [exact Hz|exact Hp].
Defined.

(** C1 as stated fails: with every file readable and a healthy writer,
    a directory that already holds the archive of an earlier run is
    zipped into an archive whose entry for that file is empty, not the
    bytes the file had. *)
Lemma C1_counterexample :
  ~ (forall (env : zipenv) (inPath : string) (w : world) (n : node),
        wf (root w) = true -> valid inPath = true ->
        stat w (Clean inPath) = Some n -> isDir n = true ->
        listable n = true -> readableFiles n = true ->
        noFaults env -> creatable w (dstOf inPath) = true ->
        exists w',
          ZipperGo.Zip env inPath w = (Success (dstOf inPath), w')
          /\ archiveIs w' (resolve w (dstOf inPath))
               (encode env
                  (map (fun rel => (walkedPath inPath rel, dataBelow n rel))
                       (filesBelow n)))).
Proof.
  intros H.
  destruct (H healthy "/proj" wSelf proj eq_refl eq_refl eq_refl eq_refl
              eq_refl eq_refl
              (conj (fun _ => eq_refl) (conj (fun _ => eq_refl) eq_refl))
              eq_refl) as (w' & E & r & wr & Hf).
  vm_compute in E. injection E as <-. vm_compute in Hf. discriminate.
Qed.

(** C2 fails in part_000, by the defect of C8: [Zip] returns an error
    (a source file cannot be opened) and the archive it created, by
    truncating the one of an earlier run, is still there, because its
    removal failed unnoticed.  zipper.go panics on that input. *)
Theorem C2_residue_after_error :
  fst (ZipperGo.Zip healthy "/src" wStuck) = Panicked ErrPermission
  /\ fst (Part000.Zip healthy "/src" wStuck) = Failure ErrPermission
  /\ In (EvCreate (dstOf "/src"))
        (trace (snd (Part000.Zip healthy "/src" wStuck)))
  /\ stat wStuck (dstOf "/src") = Some (File true true (bytes "stale"))
  /\ stat (snd (Part000.Zip healthy "/src" wStuck)) (dstOf "/src")
     = Some (File true true []).
Proof. vm_compute. repeat split. right. right. left. reflexivity. Qed.

(** C3 (as amended): for a directory input, part_000 names the entry of
    every discovered file by the file's path relative to the cleaned
    input, its elements separated by slashes; zipper.go names it by the
    walked path itself, which is the cleaned input followed by that
    relative path. *)
Theorem C3_entry_names (env : zipenv) (inPath : string) (w : world) :
  wf (root w) = true ->
  (forall a w',
      Part000.Zip env inPath w = (Success a, w') ->
      exists n entries,
        stat w (Clean inPath) = Some n
        /\ archiveIs w' (resolve w (dstOf inPath)) (encode env entries)
        /\ (isDir n = true ->
            map fst entries = map (String.concat slash) (filesBelow n)))
  /\ (forall a w',
         ZipperGo.Zip env inPath w = (Success a, w') ->
         closeFails env = false ->
         exists n entries,
           stat w (Clean inPath) = Some n
           /\ archiveIs w' (resolve w (dstOf inPath)) (encode env entries)
           /\ map fst entries = map (walkedPath inPath) (filesBelow n)
           /\ (isDir n = true ->
               map fst entries
               = map (fun rel =>
                        (dirPrefix (Clean inPath)
                         ++ String.concat slash rel)%string)
                     (filesBelow n))).
Proof.
  intros Hwf. split.
  - intros a w' H.
    apply part_Zip_success in H
      as (Hv & _ & n & entries & _ & _ & Hst & _ & _ & Hn & Ha & _);
      [|assumption].
    exists n, entries. repeat split; try assumption.
    intros Hd. rewrite Hn. apply map_ext_in. intros rel Hin.
    now apply (relName_dir n).
  - intros a w' H Hcf.
    apply zipper_Zip_success in H
      as (Hv & _ & n & entries & _ & _ & Hst & _ & _ & Hn & Ha & _);
      [|assumption].
    exists n, entries. repeat split; auto.
    intros Hd. rewrite Hn. apply map_ext_in. intros rel Hin.
    apply walkedPath_concat; [assumption| |now apply (dir_rel_nonempty n)].
    apply (filesBelow_names n); [|assumption]. apply (wf_find _ _ _ Hwf Hst).
Qed.

Lemma C3_witness :
  (exists n entries,
      stat w0 (Clean "/tmp/nested") = Some n
      /\ archiveIs (snd (Part000.Zip healthy "/tmp/nested" w0))
           (resolve w0 (dstOf "/tmp/nested")) (enc entries)
      /\ (isDir n = true ->
          map fst entries = map (String.concat slash) (filesBelow n)))
  /\ (exists n entries,
         stat w0 (Clean "/tmp/nested") = Some n
         /\ archiveIs (snd (ZipperGo.Zip healthy "/tmp/nested" w0))
              (resolve w0 (dstOf "/tmp/nested")) (enc entries)
         /\ map fst entries = map (walkedPath "/tmp/nested") (filesBelow n)
         /\ (isDir n = true ->
             map fst entries
             = map (fun rel =>
                      (dirPrefix (Clean "/tmp/nested")
                       ++ String.concat slash rel)%string)
                   (filesBelow n))).
Proof.
  destruct (C3_entry_names healthy "/tmp/nested" w0 eq_refl) as [Hp Hz].
  split.
  - apply (Hp "nested.zip"). vm_compute. reflexivity.
  - apply (Hz "nested.zip"); vm_compute; reflexivity.
Defined.

(** C3 as stated fails: for an input that is a single file, part_000
    names the entry ["."] and zipper.go names it by the whole input
    path; neither is the bare file name. *)
Lemma C3_counterexample :
  Base (Filepath.Clean "/tmp/single/test.txt") = "test.txt"
  /\ archiveAt ["work"; "test.txt.zip"]
       (Part000.Zip healthy "/tmp/single/test.txt" w0)
     = Some (enc [(".", bytes "test content")])
  /\ archiveAt ["work"; "test.txt.zip"]
       (ZipperGo.Zip healthy "/tmp/single/test.txt" w0)
     = Some (enc [("/tmp/single/test.txt", bytes "test content")])
  /\ enc [(".", bytes "test content")]
     <> enc [("test.txt", bytes "test content")]
  /\ enc [("/tmp/single/test.txt", bytes "test content")]
     <> enc [("test.txt", bytes "test content")].
Proof. vm_compute. repeat split; discriminate. Qed.

(** C4: an input whose cleaned form is empty, ["."] or [".."], or whose
    base name is empty, ["."] or [".."], makes [Zip] return the error
    "invalid path" at once: the state of the file system and the list of
    system calls made are the ones before the call. *)
Theorem C4_invalid_path_rejected (env : zipenv) (inPath : string) (w : world) :
  In (Clean inPath) [""; "."; ".."]
  \/ In (Base (Clean inPath)) [""; "."; ".."] ->
  ZipperGo.Zip env inPath w = (Failure ErrInvalidPath, w)
  /\ Part000.Zip env inPath w = (Failure ErrInvalidPath, w).
Proof.
  intros H.
  assert (Hv : valid inPath = false).
  { unfold valid, invalidBase.
    destruct H as [[H|[H|[H|[]]]]|[H|[H|[H|[]]]]]; rewrite <- H;
      try reflexivity; destruct (_ || _); reflexivity. }
  split; [now apply zipper_Zip_invalid|now apply part_Zip_invalid].
Qed.

Lemma C4_witness :
  ZipperGo.Zip healthy "../.." w0 = (Failure ErrInvalidPath, w0)
  /\ Part000.Zip healthy "../.." w0 = (Failure ErrInvalidPath, w0).
Proof.
  apply (C4_invalid_path_rejected healthy "../.." w0).
  right. right. right. left. reflexivity.
Defined.

(** Unless the cleaned input is the root, a successful [Zip] of either
    version returns the base name with [.zip] and the archive is an
    entry of the working directory. *)
Lemma archive_in_cwd (env : zipenv) (inPath : string) (w w' : world)
      (a : string) :
  wf (root w) = true -> Base (Clean inPath) <> slash ->
  ZipperGo.Zip env inPath w = (Success a, w')
  \/ Part000.Zip env inPath w = (Success a, w') ->
  a = (Base (Clean inPath) ++ ".zip")%string
  /\ resolve w a = cwd w ++ [a].
Proof.
  intros Hwf Hb [H|H].
  - apply zipper_Zip_success in H as (Hv & -> & _); [|assumption].
    split; [reflexivity|now apply resolve_dstOf].
  - apply part_Zip_success in H as (Hv & -> & _); [|assumption].
    split; [reflexivity|now apply resolve_dstOf].
Qed.

(** C5 fails on the root: [Clean "/"] is ["/"] and [Base "/"] is ["/"],
    which passes the validation; the archive ["/.zip"] is made in the
    root directory, and the working directory stays empty. *)
Theorem C5_root_input_leaves_cwd :
  Base (Filepath.Clean "/") = "/"
  /\ cwd wRoot = ["work"]
  /\ fst (ZipperGo.Zip healthy "/" wRoot) = Success "/.zip"
  /\ archiveAt [".zip"] (ZipperGo.Zip healthy "/" wRoot)
     = Some (enc [("/etc/motd", bytes "hi")])
  /\ Fs.find (root (snd (ZipperGo.Zip healthy "/" wRoot))) ["work"]
     = Some (Dir true true [])
  /\ fst (Part000.Zip healthy "/" wRoot) = Success "/.zip"
  /\ archiveAt [".zip"] (Part000.Zip healthy "/" wRoot)
     = Some (enc [("etc/motd", bytes "hi")])
  /\ Fs.find (root (snd (Part000.Zip healthy "/" wRoot))) ["work"]
     = Some (Dir true true []).
Proof. vm_compute. repeat split. Qed.

(** part_000 returns the error of [zipw.Close()]. *)
Lemma part_success_closed (env : zipenv) (inPath : string) (w w' : world)
      (a : string) :
  Part000.Zip env inPath w = (Success a, w') -> closeFails env = false.
Proof.
  assert (HA : forall files zw w1 w2,
             Part000.addFiles env (Clean inPath) files zw w1 = (None, w2) ->
             closeFails env = false).
  { induction files as [|f files IH]; intros zw w1 w2 H.
    - cbn [Part000.addFiles] in H. unfold ArchiveZip.Close in H.
      destruct (closeFails env); [discriminate|reflexivity].
    - cbn [Part000.addFiles] in H.
      destruct (Open f w1) as [[fh|e] w3]; [|discriminate].
      destruct (Rel (Clean inPath) f); [|discriminate].
      destruct (ArchiveZip.Create env s zw); [|discriminate].
      destruct (Copy env a0 fh w3); [|discriminate].
      now apply IH in H. }
  unfold Part000.Zip.
  destruct (_ || _); [discriminate|].
  destruct (invalidBase _); [discriminate|].
  destruct (WalkDir _ _ _ _) as [[[err|] files] w1]; [discriminate|].
  unfold Part000.writeArchive.
  destruct (Os.Create _ w1) as [[zf|e] w2]; [|discriminate].
  destruct (Part000.addFiles _ _ _ _ _) as [[err|] w3] eqn:E.
  - destruct (Os.Remove _ _). discriminate.
  - intros _. now apply HA in E.
Qed.

(** C6 fails in zipper.go: [zipw.Close()] is deferred and its error is
    dropped.  When closing the writer fails, [Zip] returns the name of
    the archive and no error, and the file it leaves holds no archive;
    part_000 returns the error and removes the file. *)
Theorem C6_close_error_dropped :
  closeFails closeFailing = true
  /\ fst (ZipperGo.Zip closeFailing "/tmp/single" w0) = Success "single.zip"
  /\ archiveAt ["work"; "single.zip"]
       (ZipperGo.Zip closeFailing "/tmp/single" w0) = Some []
  /\ fst (Part000.Zip closeFailing "/tmp/single" w0) = Failure ErrIO
  /\ archiveAt ["work"; "single.zip"]
       (Part000.Zip closeFailing "/tmp/single" w0) = None.
Proof. vm_compute. repeat split. Qed.

(** C7: zipping an empty directory that can be listed, when the archive
    can be created and written, succeeds and leaves the archive of no
    entries in the working directory's file of that name. *)
Theorem C7_empty_directory (env : zipenv) (inPath : string) (w : world)
        (wr : bool) :
  wf (root w) = true -> valid inPath = true ->
  stat w (Clean inPath) = Some (Dir true wr []) ->
  noFaults env -> creatable w (dstOf inPath) = true ->
  (exists w',
      ZipperGo.Zip env inPath w = (Success (dstOf inPath), w')
      /\ archiveIs w' (resolve w (dstOf inPath)) (encode env []))
  /\ (exists w',
         Part000.Zip env inPath w = (Success (dstOf inPath), w')
         /\ archiveIs w' (resolve w (dstOf inPath)) (encode env [])).
Proof.
  intros Hwf Hv Hst Hnf Hcr. split.
  - now apply (zipper_Zip_ok env inPath w (Dir true wr [])).
  - now apply (part_Zip_ok env inPath w (Dir true wr [])).
Qed.

Lemma C7_witness :
  (exists w',
      ZipperGo.Zip healthy "/tmp/empty" w0 = (Success "empty.zip", w')
      /\ archiveIs w' ["work"; "empty.zip"] (enc []))
  /\ (exists w',
         Part000.Zip healthy "/tmp/empty" w0 = (Success "empty.zip", w')
         /\ archiveIs w' ["work"; "empty.zip"] (enc [])).
Proof.
  apply (C7_empty_directory healthy "/tmp/empty" w0 true
           eq_refl eq_refl eq_refl
           (conj (fun _ => eq_refl) (conj (fun _ => eq_refl) eq_refl))
           eq_refl).
Defined.

(** C8 fails in part_000: the error of [os.Remove] is dropped.  In a
    working directory that cannot be written, the archive of an earlier
    run is truncated, the copy fails, the removal fails, and [Zip]
    returns the copy error as if the rollback had been done; zipper.go
    panics with the error of the removal. *)
Theorem C8_cleanup_failure_swallowed :
  fst (Part000.Zip copyFailing "/src" wStuck) = Failure ErrIO
  /\ trace (snd (Part000.Zip copyFailing "/src" wStuck))
     = [EvLstat "/src"; EvReadDir "/src"; EvCreate "src.zip";
        EvOpen "/src/notes"; EvClose "/src/notes"; EvClose "src.zip";
        EvRemove "src.zip"]
  /\ fst (Os.Remove "src.zip" wStuck) = Err ErrPermission
  /\ archiveAt ["ro"; "src.zip"] (Part000.Zip copyFailing "/src" wStuck)
     = Some []
  /\ fst (ZipperGo.Zip copyFailing "/src" wStuck) = Panicked ErrPermission.
Proof. vm_compute. repeat split. Qed.

(** C9 (as amended): the walk is over before the archive is created,
    so when no file exists at the place of the archive before the call,
    no entry of the archive names the archive itself. *)
Theorem C9_archive_not_in_itself (env : zipenv) (inPath : string) (w : world) :
  wf (root w) = true -> stat w (dstOf inPath) = None ->
  (forall a w',
      ZipperGo.Zip env inPath w = (Success a, w') ->
      exists n entries walkEvs evs,
        trace w' = trace w ++ EvLstat (Clean inPath) :: walkEvs
                           ++ EvCreate (dstOf inPath) :: evs
        /\ forallb isWalkEvent walkEvs = true
        /\ forallb notWalkEvent evs = true
        /\ map fst entries = map (walkedPath inPath) (filesBelow n)
        /\ (closeFails env = false ->
            archiveIs w' (resolve w (dstOf inPath)) (encode env entries))
        /\ forall name, In name (map fst entries) ->
                        resolve w name <> resolve w (dstOf inPath))
  /\ (forall a w',
         Part000.Zip env inPath w = (Success a, w') ->
         exists n entries walkEvs evs,
           trace w' = trace w ++ EvLstat (Clean inPath) :: walkEvs
                              ++ EvCreate (dstOf inPath) :: evs
           /\ forallb isWalkEvent walkEvs = true
           /\ forallb notWalkEvent evs = true
           /\ map fst entries = map relName (filesBelow n)
           /\ archiveIs w' (resolve w (dstOf inPath)) (encode env entries)
           /\ forall name, In name (map fst entries) ->
                           resolve w (Join (Clean inPath) name)
                           <> resolve w (dstOf inPath)).
Proof.
  intros Hwf Hnone.
  assert (Hfresh : forall n rel,
             valid inPath = true -> stat w (Clean inPath) = Some n ->
             In rel (filesBelow n) ->
             resolve w (walkedPath inPath rel) <> resolve w (dstOf inPath)).
  { intros n rel Hv Hst Hin E.
    destruct (walked_exists w inPath n rel Hwf Hv Hst Hin) as (r & wr & d & Hf).
    unfold stat in Hf, Hnone. rewrite E in Hf. congruence. }
  split.
  - intros a w' H.
    apply zipper_Zip_success in H
      as (Hv & _ & n & entries & wevs & evs & Hst & _ & _ & Hn & Ha
          & Ht & Hw & He); [|assumption].
    exists n, entries, wevs, evs. repeat split; try assumption.
    intros name Hin. rewrite Hn in Hin.
    apply in_map_iff in Hin as (rel & <- & Hin). now apply (Hfresh n).
  - intros a w' H.
    apply part_Zip_success in H
      as (Hv & _ & n & entries & wevs & evs & Hst & _ & _ & Hn & Ha
          & Ht & Hw & He); [|assumption].
    exists n, entries, wevs, evs. repeat split; try assumption.
    intros name Hin. rewrite Hn in Hin.
    apply in_map_iff in Hin as (rel & <- & Hin).
    rewrite Join_relName; [now apply (Hfresh n)|assumption|].
    apply (filesBelow_names n); [|assumption]. apply (wf_find _ _ _ Hwf Hst).
Qed.

Lemma C9_witness :
  (exists n entries walkEvs evs,
      trace (snd (ZipperGo.Zip healthy "/tmp/nested" w0))
      = trace w0 ++ EvLstat (Clean "/tmp/nested") :: walkEvs
                 ++ EvCreate (dstOf "/tmp/nested") :: evs
      /\ forallb isWalkEvent walkEvs = true
      /\ forallb notWalkEvent evs = true
      /\ map fst entries = map (walkedPath "/tmp/nested") (filesBelow n)
      /\ (closeFails healthy = false ->
          archiveIs (snd (ZipperGo.Zip healthy "/tmp/nested" w0))
            (resolve w0 (dstOf "/tmp/nested")) (enc entries))
      /\ forall name, In name (map fst entries) ->
                      resolve w0 name <> resolve w0 (dstOf "/tmp/nested"))
  /\ (exists n entries walkEvs evs,
         trace (snd (Part000.Zip healthy "/tmp/nested" w0))
         = trace w0 ++ EvLstat (Clean "/tmp/nested") :: walkEvs
                    ++ EvCreate (dstOf "/tmp/nested") :: evs
         /\ forallb isWalkEvent walkEvs = true
         /\ forallb notWalkEvent evs = true
         /\ map fst entries = map relName (filesBelow n)
         /\ archiveIs (snd (Part000.Zip healthy "/tmp/nested" w0))
              (resolve w0 (dstOf "/tmp/nested")) (enc entries)
         /\ forall name, In name (map fst entries) ->
                         resolve w0 (Join (Clean "/tmp/nested") name)
                         <> resolve w0 (dstOf "/tmp/nested")).
Proof.
  destruct (C9_archive_not_in_itself healthy "/tmp/nested" w0 eq_refl eq_refl)
    as [Hz Hp].
  split.
  - apply (Hz "nested.zip"). vm_compute. reflexivity.
  - apply (Hp "nested.zip"). vm_compute. reflexivity.
Defined.

(** C9 as stated fails: when the working directory is the directory
    being zipped and holds the archive of an earlier run, the walk
    lists that file, and the new archive has an entry that names the
    archive itself. *)
Lemma C9_counterexample :
  fst (ZipperGo.Zip healthy "/proj" wSelf) = Success "proj.zip"
  /\ archiveAt ["proj"; "proj.zip"] (ZipperGo.Zip healthy "/proj" wSelf)
     = Some (enc [("/proj/a.txt", bytes "alpha"); ("/proj/proj.zip", [])])
  /\ resolve wSelf "/proj/proj.zip" = resolve wSelf (dstOf "/proj")
  /\ fst (Part000.Zip healthy "/proj" wSelf) = Success "proj.zip"
  /\ archiveAt ["proj"; "proj.zip"] (Part000.Zip healthy "/proj" wSelf)
     = Some (enc [("a.txt", bytes "alpha"); ("proj.zip", [])])
  /\ resolve wSelf (Join (Clean "/proj") "proj.zip")
     = resolve wSelf (dstOf "/proj").
Proof. vm_compute. repeat split. Qed.

(** C10: the entries of the archive follow the list of files of the
    tree, which is in the order of the walk: depth first, the entries
    of a directory by name, so that relative paths are strictly
    increasing element by element.  That list depends only on which
    paths are files, so a tree with the same files gives the same
    order, however its directories keep their entries. *)
Theorem C10_entry_order (env : zipenv) (inPath : string) (w : world) :
  wf (root w) = true ->
  (forall a w',
      ZipperGo.Zip env inPath w = (Success a, w') ->
      closeFails env = false ->
      exists n entries,
        stat w (Clean inPath) = Some n
        /\ archiveIs w' (resolve w (dstOf inPath)) (encode env entries)
        /\ map fst entries = map (walkedPath inPath) (filesBelow n)
        /\ StronglySorted lexOrder (filesBelow n)
        /\ forall n', wf n' = true ->
                      (forall rel, isFileAt n rel <-> isFileAt n' rel) ->
                      filesBelow n' = filesBelow n)
  /\ (forall a w',
         Part000.Zip env inPath w = (Success a, w') ->
         exists n entries,
           stat w (Clean inPath) = Some n
           /\ archiveIs w' (resolve w (dstOf inPath)) (encode env entries)
           /\ map fst entries = map relName (filesBelow n)
           /\ StronglySorted lexOrder (filesBelow n)
           /\ forall n', wf n' = true ->
                         (forall rel, isFileAt n rel <-> isFileAt n' rel) ->
                         filesBelow n' = filesBelow n).
Proof.
  intros Hwf. split.
  - intros a w' H Hcf.
    apply zipper_Zip_success in H
      as (Hv & _ & n & entries & _ & _ & Hst & _ & _ & Hn & Ha & _);
      [|assumption].
    assert (Hwfn : wf n = true) by apply (wf_find _ _ _ Hwf Hst).
    exists n, entries. repeat split; auto using filesBelow_sorted.
    intros n' Hwf' Hiff. symmetry. now apply filesBelow_canonical.
  - intros a w' H.
    apply part_Zip_success in H
      as (Hv & _ & n & entries & _ & _ & Hst & _ & _ & Hn & Ha & _);
      [|assumption].
    assert (Hwfn : wf n = true) by apply (wf_find _ _ _ Hwf Hst).
    exists n, entries. repeat split; auto using filesBelow_sorted.
    intros n' Hwf' Hiff. symmetry. now apply filesBelow_canonical.
Qed.

Lemma C10_witness :
  (exists n entries,
      stat w0 (Clean "/tmp/nested") = Some n
      /\ archiveIs (snd (ZipperGo.Zip healthy "/tmp/nested" w0))
           (resolve w0 (dstOf "/tmp/nested")) (enc entries)
      /\ map fst entries = map (walkedPath "/tmp/nested") (filesBelow n)
      /\ StronglySorted lexOrder (filesBelow n)
      /\ forall n', wf n' = true ->
                    (forall rel, isFileAt n rel <-> isFileAt n' rel) ->
                    filesBelow n' = filesBelow n)
  /\ (exists n entries,
         stat w0 (Clean "/tmp/nested") = Some n
         /\ archiveIs (snd (Part000.Zip healthy "/tmp/nested" w0))
              (resolve w0 (dstOf "/tmp/nested")) (enc entries)
         /\ map fst entries = map relName (filesBelow n)
         /\ StronglySorted lexOrder (filesBelow n)
         /\ forall n', wf n' = true ->
                       (forall rel, isFileAt n rel <-> isFileAt n' rel) ->
                       filesBelow n' = filesBelow n).
Proof.
  destruct (C10_entry_order healthy "/tmp/nested" w0 eq_refl) as [Hz Hp].
  split.
  - apply (Hz "nested.zip"); vm_compute; reflexivity.
  - apply (Hp "nested.zip"). vm_compute. reflexivity.
Defined.

(** * Further lemmas *)

(** ** More on [Clean] and [Base] *)

Module PathMore.
Import StrFacts.

Lemma Clean_idem (p : string) : Clean (Clean p) = Clean p.
Proof.
  destruct (Clean_stack p) as (E & Hok). rewrite E.
  destruct (cleanStack (isRooted p) (tokens p)) as [|e st] eqn:Est.
  - destruct (isRooted p); [apply Clean_render; auto|reflexivity].
  - apply Clean_render; [assumption|left; discriminate].
Qed.

Lemma dropSeps_elem (l : list ascii) (c : ascii) :
  IsPathSeparator c = false -> dropSeps (c :: l) = c :: l.
Proof. intros H. cbn [dropSeps]. now rewrite H. Qed.

Lemma takeElement_app (l rest : list ascii) :
  (forall c, In c l -> IsPathSeparator c = false) ->
  rest = [] \/ (exists r, rest = Separator :: r) ->
  takeElement (l ++ rest) = l.
Proof.
  intros Hl Hrest. induction l as [|c l IH]; cbn [app takeElement].
  - destruct Hrest as [->|(r & ->)]; reflexivity.
  - rewrite (Hl c) by now left. f_equal. apply IH. intros x Hx. apply Hl.
    now right.
Qed.

Lemma rev_onto_of_rev (l : list ascii) : Str.rev_onto (Str.of_rev l) [] = l.
Proof.
  unfold Str.of_rev. rewrite rev_onto_app.
  now rewrite list_ascii_of_string_of_list_ascii, app_nil_r, rev_involutive.
Qed.

Lemma Base_buf (e : string) (rest : list ascii) :
  e <> "" -> sepfree e = true ->
  rest = [] \/ (exists r, rest = Separator :: r) ->
  Base (Str.of_rev (Str.rev_onto e rest)) = e.
Proof.
  intros Hne Hs Hrest. unfold Base.
  assert (Hr : (Str.of_rev (Str.rev_onto e rest) =? "")%string = false).
  { apply String.eqb_neq. rewrite of_rev_rev_onto. intros E.
    apply (f_equal String.length) in E. rewrite length_append in E.
    destruct e; [congruence|simpl in E; lia]. }
  rewrite Hr, rev_onto_of_rev, rev_onto_app.
  assert (Hl : forall c, In c (rev (list_ascii_of_string e)) ->
                         IsPathSeparator c = false).
  { intros c Hc. apply in_rev in Hc. now apply (sepfree_In e). }
  destruct (rev (list_ascii_of_string e)) as [|c l] eqn:El.
  - exfalso. apply Hne. apply (f_equal (@List.length _)) in El.
    rewrite length_rev, length_list_of in El. now destruct e.
  - cbn [app]. rewrite dropSeps_elem by (apply Hl; now left).
    change (c :: l ++ rest) with ((c :: l) ++ rest).
    rewrite (takeElement_app (c :: l) rest Hl Hrest).
    rewrite <- El. unfold Str.of_rev. rewrite rev_involutive.
    apply string_of_list_ascii_of_string.
Qed.

(** The last element of a rendered stack is its top. *)
Lemma Base_render (rooted : bool) (e : string) (st : list string) :
  stack_ok rooted (e :: st) = true -> Base (render rooted (e :: st)) = e.
Proof.
  intros Hok. destruct (stack_ok_top _ _ _ Hok) as (Hne & Hs).
  rewrite render_rev by assumption. cbn [bufOf].
  apply Base_buf; [assumption|assumption|].
  destruct st; [|right; eauto].
  destruct rooted; [right; now exists []|now left].
Qed.

(** The cleaned input and its last element, by cases on the stack. *)
Lemma Clean_cases (p : string) :
  (Clean p = "." /\ Base (Clean p) = ".")
  \/ (Clean p = slash /\ Base (Clean p) = slash)
  \/ (exists rooted e st,
         Clean p = render rooted (e :: st)
         /\ stack_ok rooted (e :: st) = true
         /\ Base (Clean p) = e).
Proof.
  destruct (Clean_stack p) as (E & Hok). rewrite E.
  destruct (cleanStack (isRooted p) (tokens p)) as [|e st] eqn:Est.
  - destruct (isRooted p); [right; left|left]; split; reflexivity.
  - right; right. exists (isRooted p), e, st. repeat split; auto.
    now apply Base_render.
Qed.

Lemma render_top_dotdot (rooted : bool) (e : string) (st : list string) :
  stack_ok rooted (e :: st) = true ->
  render rooted (e :: st) = ".." -> e = "..".
Proof.
  intros Hok E. apply (f_equal Base) in E.
  rewrite Base_render in E by assumption. exact E.
Qed.

(** The validation rejects exactly the inputs whose cleaned form is
    the dot marker or ends in the parent marker. *)
Lemma valid_false_iff (p : string) :
  valid p = false <-> Clean p = "." \/ Base (Clean p) = "..".
Proof.
  unfold valid, invalidBase.
  destruct (Clean_cases p) as [(E & B)|[(E & B)|(rooted & e & st & E & Hok & B)]];
    rewrite ?E, ?B in *.
  - split; [now left|reflexivity].
  - split; [discriminate|]. intros [H|H]; discriminate.
  - destruct (stack_ok_top _ _ _ Hok) as (Hne & Hs).
    assert (Hd : render rooted (e :: st) <> ".")
      by (apply render_not_dot; [assumption|left; discriminate]).
    apply String.eqb_neq in Hd. rewrite Hd. cbn [orb].
    destruct (String.eqb_spec e "..") as [->|Hdd].
    + rewrite !orb_true_r, andb_false_r. split; auto.
    + destruct (String.eqb_spec (render rooted (e :: st)) "..") as [Er|_].
      * exfalso. apply Hdd. eapply render_top_dotdot; eassumption.
      * apply String.eqb_neq in Hne. rewrite Hne.
        destruct (String.eqb_spec e ".") as [->|Hdot].
        -- exfalso. cbn [stack_ok] in Hok. vm_compute in Hok. discriminate.
        -- cbn. split; [discriminate|]. intros [H|H]; [|congruence].
           apply String.eqb_neq in Hd. contradiction.
Qed.

End PathMore.

(** ** The errors that [Zip] can return *)

Module ErrFacts.
Import Errors.

Lemma create_err (p : list string) :
  forall n e, create n p = Err e -> fromSystem e = true.
Proof.
  induction p as [|x p IH]; intros n e H; destruct n as [|r w es];
    cbn [create] in H; try (injection H as <-; reflexivity).
  destruct p as [|y p].
  - destruct (lookupEntry x es) as [[fr fw d|dr dw des]|].
    + destruct (fr && fw); [discriminate|injection H as <-; reflexivity].
    + injection H as <-; reflexivity.
    + destruct w; [discriminate|injection H as <-; reflexivity].
  - destruct (lookupEntry x es) as [c|]; [|injection H as <-; reflexivity].
    destruct (create c (y :: p)) as [c'|e'] eqn:Ec; [discriminate|].
    injection H as <-. now apply (IH c).
Qed.

Lemma Create_err (path : string) (w w1 : world) (e : error) :
  Os.Create path w = (Err e, w1) -> fromSystem e = true.
Proof.
  unfold Os.Create. destruct (create (root w) (resolve w path)) eqn:Ec;
    [discriminate|]. intros H. injection H as <- _. now apply create_err in Ec.
Qed.

Lemma Open_err (path : string) (w w1 : world) (e : error) :
  Open path w = (Err e, w1) -> fromSystem e = true.
Proof.
  unfold Open. destruct (stat w path) as [[r ? ?|r ? ?]|];
    try destruct r; intros H; try discriminate; injection H as <- _; reflexivity.
Qed.

Lemma Copy_err (env : zipenv) (zw : Writer) (f : Os.file) (w : world) (e : error) :
  Copy env zw f w = Err e -> fromSystem e = true.
Proof.
  unfold Copy, readAll. destruct (find (root w) (fnode f)) as [[? ? ?|? ? ?]|];
    try destruct (copyFails env (fname f)); intros H; try discriminate;
    injection H as <-; reflexivity.
Qed.

Lemma ZipCreate_err (env : zipenv) (name : string) (zw : Writer) (e : error) :
  ArchiveZip.Create env name zw = Err e -> fromSystem e = true.
Proof.
  unfold ArchiveZip.Create. destruct (createFails env name); intros H;
    [|discriminate]. injection H as <-; reflexivity.
Qed.

Lemma ZipClose_err (env : zipenv) (zw : Writer) (w w' : world) (e : error) :
  ArchiveZip.Close env zw w = (Some e, w') -> fromSystem e = true.
Proof.
  unfold ArchiveZip.Close. destruct (closeFails env); intros H;
    [|discriminate]. injection H as <- _; reflexivity.
Qed.

Lemma zipper_addFiles_err (env : zipenv) (files : list string) :
  forall zw opened w e zw' opened' w',
    ZipperGo.addFiles env files zw opened w = (Some e, zw', opened', w') ->
    fromSystem e = true.
Proof.
  induction files as [|f files IH]; intros zw opened w e zw' opened' w' H;
    cbn [ZipperGo.addFiles] in H; [discriminate|].
  destruct (Open f w) as [[fh|oe] w1] eqn:Eo.
  2:{ injection H as <- _ _ _. eapply Open_err; eassumption. }
  destruct (ArchiveZip.Create env f zw) as [zw1|ce] eqn:Ec.
  2:{ injection H as <- _ _ _. eapply ZipCreate_err; eassumption. }
  destruct (Copy env zw1 fh w1) as [zw2|ce] eqn:Ecp.
  2:{ injection H as <- _ _ _. eapply Copy_err; eassumption. }
  eapply IH; eassumption.
Qed.

(** In part_000 the loop can also end with the error of
    [filepath.Rel], for a file that has no path relative to the
    input. *)
Lemma part_addFiles_err (env : zipenv) (inPath : string) (files : list string) :
  forall zw w e w',
    Part000.addFiles env inPath files zw w = (Some e, w') ->
    fromSystem e = true
    \/ (e = ErrRel /\ exists f u, In f files /\ Rel inPath f = inr u).
Proof.
  induction files as [|f files IH]; intros zw w e w' H;
    cbn [Part000.addFiles] in H.
  - left. eapply ZipClose_err; eassumption.
  - destruct (Open f w) as [[fh|oe] w1] eqn:Eo.
    2:{ injection H as <- _. left. eapply Open_err; eassumption. }
    destruct (Rel inPath f) as [relPath|u] eqn:Er.
    2:{ injection H as <- _. right. split; [reflexivity|].
        exists f, u. split; [now left|assumption]. }
    destruct (ArchiveZip.Create env relPath zw) as [zw1|ce] eqn:Ec.
    2:{ injection H as <- _. left. eapply ZipCreate_err; eassumption. }
    destruct (Copy env zw1 fh w1) as [zw2|ce] eqn:Ecp.
    2:{ injection H as <- _. left. eapply Copy_err; eassumption. }
    apply IH in H as [H|(-> & f' & u & Hin & Hr)]; [now left|].
    right. split; [reflexivity|]. exists f', u. split; [now right|assumption].
Qed.

Lemma walkEntries_err {A : Type} (path : string)
      (dirs : list (string * walker A)) :
  Forall (fun d => forall p acc tr e acc' tr',
              snd d p acc tr = (Some e, acc', tr') -> e = ErrPermission) dirs ->
  forall acc tr e acc' tr',
    walkEntries path dirs acc tr = (Some e, acc', tr') -> e = ErrPermission.
Proof.
  induction 1 as [|[name walk1] dirs Hd Hds IH]; intros acc tr e acc' tr' H;
    cbn [walkEntries] in H; [discriminate|].
  destruct (walk1 (Join path name) acc tr) as [[[err|] acc1] tr1] eqn:E1.
  - destruct (isSkipDir err) eqn:Es; [discriminate|].
    injection H as <- _ _. eapply Hd. exact E1.
  - eapply IH; eassumption.
Qed.

(** The walk of [Zip] fails only at a directory it cannot list. *)
Lemma walkDir_err (n : node) :
  forall name path acc tr e acc' tr',
    walkDir collect name n path acc tr = (Some e, acc', tr') ->
    e = ErrPermission.
Proof.
  induction n as [r w d|r w es IH] using node_ind;
    intros name path acc tr e acc' tr' H.
  - cbn in H. discriminate.
  - cbn [walkDir collect isDir IsDir] in H. destruct r.
    + eapply walkEntries_err; [|exact H]. apply Forall_forall.
      intros [x wk] Hin. apply (proj1 (sort_In _ _)) in Hin.
      apply in_map_iff in Hin as ([y c] & Ey & Hin). injection Ey as <- <-.
      rewrite Forall_forall in IH. cbn [snd fst]. intros p a t.
      apply (IH _ Hin).
    + cbn in H. now injection H as <- _ _.
Qed.

Lemma WalkDir_err (path : string) (w w1 : world) (e : error)
      (files : list string) :
  WalkDir path collect [] w = (Some e, files, w1) ->
  e = ErrNotExist \/ e = ErrPermission.
Proof.
  unfold WalkDir, Lstat. destruct (stat w path) as [n|].
  - destruct (walkDir collect (Base path) n path [] (trace (log (EvLstat path) w)))
      as [[[err|] acc1] tr] eqn:Ewd.
    + apply walkDir_err in Ewd as ->. cbn. intros H. injection H as <- _ _.
      now right.
    + discriminate.
  - cbn. intros H. injection H as <- _ _. now left.
Qed.

(** Past the validation, an error of zipper.go is one of the system
    or of the writer. *)
Lemma zipper_Zip_err (env : zipenv) (inPath : string) (w : world) (e : error) :
  valid inPath = true ->
  fst (ZipperGo.Zip env inPath w) = Failure e -> fromSystem e = true.
Proof.
  intros Hv. rewrite zipper_Zip_valid by assumption.
  destruct (WalkDir (Clean inPath) collect [] w) as [[[err|] files] w1] eqn:Ew.
  { apply WalkDir_err in Ew as [->| ->]; cbn; intros H; now injection H as <-. }
  unfold ZipperGo.writeArchive.
  destruct (Os.Create (dstOf inPath) w1) as [[zf|ce] w2] eqn:Ec.
  2:{ apply Create_err in Ec. cbn. intros H. now injection H as <-. }
  destruct (ZipperGo.addFiles _ _ _ _ _) as [[[aerr zw] opened] w3] eqn:Ea.
  destruct (ArchiveZip.Close _ _ _) as [cerr w5].
  destruct aerr as [aerr|]; [|discriminate].
  apply zipper_addFiles_err in Ea.
  destruct (Os.Remove _ _) as [[|] w7]; cbn; [|discriminate].
  intros H. now injection H as <-.
Qed.

Lemma part_Zip_err (env : zipenv) (inPath : string) (w : world) (e : error) :
  valid inPath = true ->
  fst (Part000.Zip env inPath w) = Failure e ->
  fromSystem e = true
  \/ (e = ErrRel
      /\ exists files w1 f u,
          WalkDir (Clean inPath) collect [] w = (None, files, w1)
          /\ In f files /\ Rel (Clean inPath) f = inr u).
Proof.
  intros Hv. rewrite part_Zip_valid by assumption.
  destruct (WalkDir (Clean inPath) collect [] w) as [[[err|] files] w1] eqn:Ew.
  { apply WalkDir_err in Ew as [->| ->]; cbn; intros H; injection H as <-;
      now left. }
  unfold Part000.writeArchive.
  destruct (Os.Create (dstOf inPath) w1) as [[zf|ce] w2] eqn:Ec.
  2:{ apply Create_err in Ec. cbn. intros H. injection H as <-. now left. }
  destruct (Part000.addFiles _ _ _ _ _) as [[aerr|] w3] eqn:Ea; [|discriminate].
  apply part_addFiles_err in Ea.
  destruct (Os.Remove _ _) as [? w7]; cbn.
  intros H. injection H as <-. destruct Ea as [Ha|(-> & f & u & Hin & Hr)];
    [now left|]. right. split; [reflexivity|]. now exists files, w1, f, u.
Qed.

End ErrFacts.

(** ** What the system calls leave alone *)

Module FrameFacts.
Import Footprint ResidueFacts.

Lemma sameOff_refl (place : list string) (n : node) : sameOff place n n.
Proof. intros q _. reflexivity. Qed.

Lemma sameOff_trans (place : list string) (n1 n2 n3 : node) :
  sameOff place n1 n2 -> sameOff place n2 n3 -> sameOff place n1 n3.
Proof. intros H1 H2 q Hq. now rewrite (H2 q Hq), (H1 q Hq). Qed.

Lemma find_file (r w : bool) (d : list Byte.byte) (q : list string) :
  q <> [] -> find (File r w d) q = None.
Proof. destruct q; [congruence|reflexivity]. Qed.

Lemma isPrefix_nil (q : list string) : isPrefix q [] = false -> q <> [].
Proof. destruct q; discriminate. Qed.

Lemma find_set (r w : bool) (es : list (string * node)) (x y : string)
      (c' : node) (q : list string) :
  find (Dir r w (setEntry x c' es)) (y :: q)
  = if (x =? y)%string then find c' q else find (Dir r w es) (y :: q).
Proof.
  cbn [find]. destruct (String.eqb_spec x y) as [<-|Hxy].
  - now rewrite lookup_set_same.
  - now rewrite lookup_set_other.
Qed.

Lemma create_frame (p : list string) :
  forall n n', create n p = Ok n' -> sameOff p n n'.
Proof.
  induction p as [|x p IH]; intros n n' H q Hq; destruct n as [|r w es];
    cbn [create] in H; try discriminate.
  destruct q as [|y q]; [discriminate|]. cbn [isPrefix] in Hq.
  rewrite String.eqb_sym in Hq.
  destruct (lookupEntry x es) as [c|] eqn:El.
  - assert (Hc : exists c', n' = Dir r w (setEntry x c' es)
                            /\ (isPrefix q p = false -> find c' q = find c q)).
    { destruct p as [|z p].
      - destruct c as [fr fw d|]; [|discriminate].
        destruct (fr && fw); [|discriminate]. injection H as <-.
        eexists; split; [reflexivity|]. intros Hp. apply isPrefix_nil in Hp.
        now rewrite !find_file.
      - destruct (create c (z :: p)) as [c'|] eqn:Ec; [|discriminate].
        injection H as <-. eexists; split; [reflexivity|]. intros Hp.
        now apply (IH c c' Ec). }
    destruct Hc as (c' & -> & Hc). rewrite find_set.
    destruct (String.eqb_spec x y) as [<-|Hxy]; [|reflexivity].
    cbn [andb] in Hq. cbn [find]. rewrite El. now apply Hc.
  - destruct p as [|z p]; [|discriminate]. destruct w; [|discriminate].
    injection H as <-. rewrite find_set.
    destruct (String.eqb_spec x y) as [<-|Hxy]; [|reflexivity].
    cbn [andb] in Hq. apply isPrefix_nil in Hq. cbn [find]. rewrite El.
    now apply find_file.
Qed.

Lemma setData_frame (p : list string) :
  forall n n' data, setData n p data = Some n' -> sameOff p n n'.
Proof.
  induction p as [|x p IH]; intros n n' data H q Hq; destruct n as [fr fw d|r w es];
    cbn [setData] in H; try discriminate.
  - injection H as <-. apply isPrefix_nil in Hq. now rewrite !find_file.
  - destruct q as [|y q]; [discriminate|]. cbn [isPrefix] in Hq.
    rewrite String.eqb_sym in Hq.
    destruct (lookupEntry x es) as [c|] eqn:El; [|discriminate].
    destruct (setData c p data) as [c'|] eqn:Ec; [|discriminate].
    injection H as <-. rewrite find_set.
    destruct (String.eqb_spec x y) as [<-|Hxy]; [|reflexivity].
    cbn [andb] in Hq. cbn [find]. rewrite El. now apply (IH c c' data Ec).
Qed.

Lemma remove_frame (p : list string) :
  forall n n', uniq n = true -> remove n p = Ok n' -> sameOff p n n'.
Proof.
  induction p as [|x p IH]; intros n n' Hu H q Hq; destruct n as [|r w es];
    cbn [remove] in H; try discriminate.
  destruct q as [|y q]; [discriminate|]. cbn [isPrefix] in Hq.
  rewrite String.eqb_sym in Hq.
  destruct (lookupEntry x es) as [c|] eqn:El; [|discriminate].
  destruct p as [|z p].
  - assert (Hn : n' = Dir r w (removeEntry x es)
                 /\ forall q, q <> [] -> find c q = None).
    { destruct c as [fr fw d|dr dw [|e des]]; try discriminate;
        (destruct w; [|discriminate]); injection H as <-;
        (split; [reflexivity|]); intros [|a q'] Hq'; try congruence; reflexivity. }
    destruct Hn as (-> & Hleaf). cbn [find].
    destruct (String.eqb_spec x y) as [<-|Hxy].
    + cbn [andb] in Hq. apply isPrefix_nil in Hq.
      rewrite lookup_remove_same, El; [now rewrite Hleaf|].
      cbn [uniq] in Hu. now apply andb_prop in Hu as [Hu _].
    + now rewrite lookup_remove_other.
  - destruct (remove c (z :: p)) as [c'|] eqn:Ec; [|discriminate].
    injection H as <-. rewrite find_set.
    destruct (String.eqb_spec x y) as [<-|Hxy]; [|reflexivity].
    cbn [andb] in Hq. cbn [find]. rewrite El.
    apply (IH c c'); [|assumption|assumption].
    now apply (uniq_entry _ _ _ _ _ Hu El).
Qed.

Lemma rewritten_sameOff (place : list string) (n n' : node) :
  rewritten place n n' -> sameOff place n n'.
Proof.
  intros [->|(d & E)]; [apply sameOff_refl|]. now apply (setData_frame _ _ _ _ E).
Qed.

Lemma rewritten_file (place : list string) (n n' : node) (r wr : bool)
      (d0 : list Byte.byte) :
  rewritten place n n' -> find n place = Some (File r wr d0) ->
  exists d, find n' place = Some (File r wr d).
Proof.
  intros [->|(d & E)] Hf; [now exists d0|].
  destruct (find_setData_same place n r wr d0 d Hf) as (n2 & E2 & Hf2).
  rewrite E in E2. injection E2 as <-. now exists d.
Qed.

(** The file that [os.Create] opens can be read and written, and is
    empty. *)
Lemma create_file (p : list string) :
  forall n n', create n p = Ok n' -> find n' p = Some (File true true []).
Proof.
  induction p as [|x p IH]; intros n n' H; destruct n as [|r w es];
    cbn [create] in H; try discriminate.
  destruct p as [|y p].
  - destruct (lookupEntry x es) as [[fr fw d|]|].
    + destruct fr, fw; try discriminate. injection H as <-.
      cbn [find]. now rewrite lookup_set_same.
    + discriminate.
    + destruct w; [|discriminate]. injection H as <-.
      cbn [find]. now rewrite lookup_set_same.
  - destruct (lookupEntry x es) as [c|]; [|discriminate].
    destruct (create c (y :: p)) as [c'|] eqn:Ec; [|discriminate].
    injection H as <-. pose proof (IH c c' Ec) as Hf.
    remember (y :: p) as q. cbn [find]. now rewrite lookup_set_same.
Qed.

Lemma rewritten_uniq (place : list string) (n n' : node) :
  rewritten place n n' -> uniq n = true -> uniq n' = true.
Proof.
  intros [->|(d & E)] Hu; [assumption|]. now apply (uniq_setData _ _ _ _ Hu E).
Qed.

(** Closing the archive writer writes to the archive only. *)
Lemma ZipClose_rewritten (env : zipenv) (zw : Writer) (w w' : world)
      (err : option error) :
  ArchiveZip.Close env zw w = (err, w') ->
  rewritten (fnode (dest zw)) (root w) (root w')
  /\ cwd w' = cwd w /\ trace w' = trace w.
Proof.
  unfold ArchiveZip.Close, writeAll. destruct (closeFails env).
  - intros H. injection H as _ <-. repeat split. now left.
  - destruct (setData _ _ _) as [n1|] eqn:E; intros H; injection H as _ <-;
      repeat split; [right; eauto|now left].
Qed.

Lemma part_addFiles_rewritten (env : zipenv) (inPath : string)
      (files : list string) :
  forall zw w err w',
    Part000.addFiles env inPath files zw w = (err, w') ->
    rewritten (fnode (dest zw)) (root w) (root w').
Proof.
  induction files as [|f files IH]; intros zw w err w' H;
    cbn [Part000.addFiles] in H.
  - now apply ZipClose_rewritten in H as (H & _).
  - pose proof (Open_world f w) as Ho.
    destruct (Open f w) as [[fh|oe] w1]; cbn [snd] in Ho; subst w1.
    2:{ injection H as _ <-. now left. }
    destruct (Rel inPath f) as [relPath|]; [|injection H as _ <-; now left].
    unfold ArchiveZip.Create in H.
    destruct (createFails env relPath); [injection H as _ <-; now left|].
    destruct (Copy env _ fh _) as [zw2|ce] eqn:Ecp;
      [|injection H as _ <-; now left].
    apply IH in H. unfold Copy in Ecp.
    destruct (readAll fh _); [|discriminate].
    destruct (copyFails env _); [discriminate|]. injection Ecp as <-.
    exact H.
Qed.

End FrameFacts.

(** ** [Zip], whatever the outcome *)

Module RunFacts.
Import Footprint ResidueFacts FrameFacts.

Lemma Remove_run (path : string) (w : world) :
  match Fs.remove (root w) (resolve w path) with
  | Ok n => Os.Remove path w = (Ok tt, withRoot n (log (EvRemove path) w))
  | Err e => Os.Remove path w = (Err e, log (EvRemove path) w)
  end.
Proof. unfold Os.Remove. now destruct (remove _ _). Qed.

Lemma resolve_cwd (w w' : world) (path : string) :
  cwd w' = cwd w -> resolve w' path = resolve w path.
Proof. intros H. unfold resolve. now rewrite H. Qed.

(** What [Zip] of zipper.go does from [os.Create] on, whatever the
    outcome. *)
Lemma zipper_writeArchive_run (env : zipenv) (dst : string)
      (files : list string) (w1 w' : world) (o : outcome) :
  uniq (root w1) = true ->
  ZipperGo.writeArchive env dst files w1 = (o, w') ->
  cwd w' = cwd w1
  /\ sameOff (resolve w1 dst) (root w1) (root w')
  /\ (forall a, o = Success a ->
      exists d, find (root w') (resolve w1 dst) = Some (File true true d)).
Proof.
  intros Hu H. unfold ZipperGo.writeArchive in H.
  pose proof (Create_run dst w1) as HC.
  destruct (Fs.create (root w1) (resolve w1 dst)) as [n1|ce] eqn:Ec;
    rewrite HC in H.
  2:{ injection H as <- <-. split; [reflexivity|split; [apply sameOff_refl|discriminate]]. }
  destruct (ZipperGo.addFiles _ _ _ _ _) as [[[aerr zw] opened] w3] eqn:Ea.
  apply zipper_addFiles_run in Ea as (Hr3 & Hc3 & Hd3 & _).
  destruct (closeAll_run opened w3) as (Hr4 & Hc4 & _).
  destruct (ArchiveZip.Close env zw (ZipperGo.closeAll opened w3))
    as [cerr w5] eqn:Ez.
  apply ZipClose_rewritten in Ez as (Hrw & Hc5 & _).
  rewrite Hd3, Hr4, Hr3 in Hrw. cbn [NewWriter dest fnode withRoot log root] in Hrw.
  rewrite Hc4, Hc3 in Hc5. cbn [withRoot log cwd] in Hc5.
  assert (Hs5 : sameOff (resolve w1 dst) (root w1) (root w5)).
  { eapply sameOff_trans; [apply (create_frame _ _ _ Ec)|].
    now apply rewritten_sameOff. }
  assert (Hf5 : exists d, find (root w5) (resolve w1 dst)
                          = Some (File true true d)).
  { apply (rewritten_file _ _ _ _ _ _ Hrw (create_file _ _ _ Ec)). }
  assert (Hu5 : uniq (root w5) = true).
  { apply (rewritten_uniq _ _ _ Hrw). apply (uniq_create _ _ _ Hu Ec). }
  destruct aerr as [aerr|].
  - pose proof (Remove_run dst (Os.Close {| fname := dst; fnode := resolve w1 dst |} w5))
      as HR.
    rewrite (resolve_cwd w1 (Os.Close _ w5)) in HR by exact Hc5.
    change (root (Os.Close _ w5)) with (root w5) in HR.
    destruct (remove (root w5) (resolve w1 dst)) as [n7|re] eqn:Er;
      rewrite HR in H; injection H as <- <-; cbn [withRoot log Os.Close root cwd].
    + split; [assumption|split; [|discriminate]].
      eapply sameOff_trans; [exact Hs5|]. now apply (remove_frame _ _ _ Hu5 Er).
    + split; [assumption|split; [assumption|discriminate]].
  - injection H as <- <-. cbn [Os.Close log root cwd]. split; [assumption|split; [assumption|]]. intros; assumption.
Qed.

(** The same for part_000. *)
Lemma part_writeArchive_run (env : zipenv) (inPath dst : string)
      (files : list string) (w1 w' : world) (o : outcome) :
  uniq (root w1) = true ->
  Part000.writeArchive env inPath dst files w1 = (o, w') ->
  cwd w' = cwd w1
  /\ sameOff (resolve w1 dst) (root w1) (root w')
  /\ (forall a, o = Success a ->
      exists d, find (root w') (resolve w1 dst) = Some (File true true d)).
Proof.
  intros Hu H. unfold Part000.writeArchive in H.
  pose proof (Create_run dst w1) as HC.
  destruct (Fs.create (root w1) (resolve w1 dst)) as [n1|ce] eqn:Ec;
    rewrite HC in H.
  2:{ injection H as <- <-. split; [reflexivity|split; [apply sameOff_refl|discriminate]]. }
  destruct (Part000.addFiles _ _ _ _ _) as [aerr w3] eqn:Ea.
  pose proof (part_addFiles_rewritten _ _ _ _ _ _ _ Ea) as Hrw.
  apply part_addFiles_run in Ea as (Hc3 & _).
  cbn [NewWriter dest fnode withRoot log root cwd] in Hrw, Hc3.
  assert (Hs3 : sameOff (resolve w1 dst) (root w1) (root w3)).
  { eapply sameOff_trans; [apply (create_frame _ _ _ Ec)|].
    now apply rewritten_sameOff. }
  assert (Hf3 : exists d, find (root w3) (resolve w1 dst)
                          = Some (File true true d)).
  { apply (rewritten_file _ _ _ _ _ _ Hrw (create_file _ _ _ Ec)). }
  assert (Hu3 : uniq (root w3) = true).
  { apply (rewritten_uniq _ _ _ Hrw). apply (uniq_create _ _ _ Hu Ec). }
  destruct aerr as [aerr|].
  - pose proof (Remove_run dst (Os.Close {| fname := dst; fnode := resolve w1 dst |} w3))
      as HR.
    rewrite (resolve_cwd w1 (Os.Close _ w3)) in HR by exact Hc3.
    change (root (Os.Close _ w3)) with (root w3) in HR.
    destruct (remove (root w3) (resolve w1 dst)) as [n7|re] eqn:Er;
      rewrite HR in H; injection H as <- <-; cbn [withRoot log Os.Close root cwd].
    + split; [assumption|split; [|discriminate]].
      eapply sameOff_trans; [exact Hs3|]. now apply (remove_frame _ _ _ Hu3 Er).
    + split; [assumption|split; [assumption|discriminate]].
  - injection H as <- <-. cbn [Os.Close log root cwd]. split; [assumption|split; [assumption|]]. intros; assumption.
Qed.

Lemma zipper_Zip_run (env : zipenv) (inPath : string) (w w' : world)
      (o : outcome) :
  uniq (root w) = true ->
  ZipperGo.Zip env inPath w = (o, w') ->
  cwd w' = cwd w
  /\ sameOff (resolve w (dstOf inPath)) (root w) (root w')
  /\ (forall a, o = Success a ->
      exists d,
        find (root w') (resolve w (dstOf inPath)) = Some (File true true d)).
Proof.
  intros Hu H. destruct (valid inPath) eqn:Hv.
  2:{ rewrite zipper_Zip_invalid in H by assumption. injection H as <- <-.
      split; [reflexivity|split; [apply sameOff_refl|discriminate]]. }
  rewrite zipper_Zip_valid in H by assumption.
  destruct (WalkDir (Clean inPath) collect [] w) as [[err files] w1] eqn:Ew.
  apply WalkDir_same_disk in Ew as [Hr1 Hc1].
  destruct err as [err|].
  { injection H as <- <-. rewrite Hr1, Hc1.
    split; [reflexivity|split; [apply sameOff_refl|discriminate]]. }
  apply zipper_writeArchive_run in H; [|now rewrite Hr1].
  rewrite (resolve_cwd _ _ _ Hc1), Hr1, Hc1 in H. exact H.
Qed.

Lemma part_Zip_run (env : zipenv) (inPath : string) (w w' : world)
      (o : outcome) :
  uniq (root w) = true ->
  Part000.Zip env inPath w = (o, w') ->
  cwd w' = cwd w
  /\ sameOff (resolve w (dstOf inPath)) (root w) (root w')
  /\ (forall a, o = Success a ->
      exists d,
        find (root w') (resolve w (dstOf inPath)) = Some (File true true d)).
Proof.
  intros Hu H. destruct (valid inPath) eqn:Hv.
  2:{ rewrite part_Zip_invalid in H by assumption. injection H as <- <-.
      split; [reflexivity|split; [apply sameOff_refl|discriminate]]. }
  rewrite part_Zip_valid in H by assumption.
  destruct (WalkDir (Clean inPath) collect [] w) as [[err files] w1] eqn:Ew.
  apply WalkDir_same_disk in Ew as [Hr1 Hc1].
  destruct err as [err|].
  { injection H as <- <-. rewrite Hr1, Hc1.
    split; [reflexivity|split; [apply sameOff_refl|discriminate]]. }
  apply part_writeArchive_run in H; [|now rewrite Hr1].
  rewrite (resolve_cwd _ _ _ Hc1), Hr1, Hc1 in H. exact H.
Qed.

End RunFacts.

(** ** Files that cannot be read *)

Module ReadFacts.
Import Footprint ResidueFacts FrameFacts RunFacts.

Lemma Open_ok (path : string) (w w1 : world) (fh : Os.file) :
  Open path w = (Ok fh, w1) ->
  fh = {| fname := path; fnode := resolve w path |}
  /\ w1 = log (EvOpen path) w
  /\ (readableAt w path = true
      \/ exists r wr es, stat w path = Some (Dir r wr es)).
Proof.
  unfold Open, readableAt. destruct (stat w path) as [[r wr d|r wr es]|];
    [destruct r|destruct r|]; intros H; try discriminate;
    injection H as <- <-; repeat split; eauto.
Qed.

Lemma Copy_dir (env : zipenv) (zw : Writer) (path : string) (w w1 : world)
      (r wr : bool) (es : list (string * node)) :
  root w1 = root w -> stat w path = Some (Dir r wr es) ->
  Copy env zw {| fname := path; fnode := resolve w path |} w1 = Err ErrIsDir.
Proof.
  intros Hr Hs. unfold Copy, readAll. cbn [fnode]. rewrite Hr.
  unfold stat in Hs. now rewrite Hs.
Qed.

(** A file that cannot be read stops the loop of zipper.go. *)
Lemma zipper_addFiles_unreadable (env : zipenv) (f : string)
      (files : list string) :
  In f files ->
  forall zw opened w err zw' opened' w',
    readableAt w f = false ->
    ZipperGo.addFiles env files zw opened w = (err, zw', opened', w') ->
    err <> None.
Proof.
  induction files as [|f0 files IH]; intros Hin zw opened w err zw' opened' w' Hr H;
    [contradiction|]. cbn [ZipperGo.addFiles] in H.
  destruct (Open f0 w) as [[fh|oe] w1] eqn:Eo.
  2:{ injection H as <- _ _ _. discriminate. }
  apply Open_ok in Eo as (-> & -> & Hk).
  destruct (ArchiveZip.Create env f0 zw) as [zw1|ce].
  2:{ injection H as <- _ _ _. discriminate. }
  destruct (Copy env zw1 _ _) as [zw2|ce] eqn:Ecp.
  2:{ injection H as <- _ _ _. discriminate. }
  destruct Hin as [->|Hin].
  - destruct Hk as [Hk|(r & wr & es & Hk)]; [congruence|].
    rewrite (Copy_dir env zw1 f w _ r wr es) in Ecp by (reflexivity || assumption).
    discriminate.
  - apply (IH Hin _ _ _ _ _ _ _) in H; [assumption|].
    now rewrite readableAt_log.
Qed.

(** And the loop of part_000. *)
Lemma part_addFiles_unreadable (env : zipenv) (inPath f : string)
      (files : list string) :
  In f files ->
  forall zw w err w',
    readableAt w f = false ->
    Part000.addFiles env inPath files zw w = (err, w') ->
    err <> None.
Proof.
  induction files as [|f0 files IH]; intros Hin zw w err w' Hr H;
    [contradiction|]. cbn [Part000.addFiles] in H.
  destruct (Open f0 w) as [[fh|oe] w1] eqn:Eo.
  2:{ injection H as <- _. discriminate. }
  apply Open_ok in Eo as (-> & -> & Hk).
  destruct (Rel inPath f0) as [relPath|]; [|injection H as <- _; discriminate].
  destruct (ArchiveZip.Create env relPath zw) as [zw1|ce].
  2:{ injection H as <- _. discriminate. }
  destruct (Copy env zw1 _ _) as [zw2|ce] eqn:Ecp.
  2:{ injection H as <- _. discriminate. }
  destruct Hin as [->|Hin].
  - destruct Hk as [Hk|(r & wr & es & Hk)]; [congruence|].
    rewrite (Copy_dir env zw1 f w _ r wr es) in Ecp by (reflexivity || assumption).
    discriminate.
  - apply (IH Hin _ _ _ _) in H; [assumption|].
    unfold Os.Close. now rewrite !readableAt_log.
Qed.

(** [os.Create] opens an existing file only if it can be read. *)
Lemma create_existing (p : list string) :
  forall n n' fr fw d,
    create n p = Ok n' -> find n p = Some (File fr fw d) -> fr = true.
Proof.
  induction p as [|x p IH]; intros n n' fr fw d H Hf; destruct n as [|r w es];
    cbn [create] in H; try discriminate.
  cbn [find] in Hf. destruct (lookupEntry x es) as [c|]; [|discriminate].
  destruct p as [|y p].
  - cbn [find] in Hf. injection Hf as ->.
    destruct fr; [reflexivity|discriminate].
  - destruct (create c (y :: p)) as [c'|] eqn:Ec; [|discriminate].
    now apply (IH c c' fr fw d).
Qed.

Lemma forallb_false {X : Type} (P : X -> bool) (l : list X) :
  forallb P l = false -> exists x, In x l /\ P x = false.
Proof.
  induction l as [|x l IH]; [discriminate|]. cbn [forallb].
  destruct (P x) eqn:E; cbn [andb].
  - intros H. destruct (IH H) as (y & Hy & Py). exists y. split; [now right|assumption].
  - intros _. exists x. split; [now left|assumption].
Qed.

(** A tree that is not readable throughout holds a file that cannot
    be read. *)
Lemma unreadable_file (n : node) :
  uniq n = true -> readableFiles n = false ->
  exists rel wr d, find n rel = Some (File false wr d).
Proof.
  induction n as [r w d|r w es IH] using node_ind; intros Hu Hr.
  - cbn in Hr. subst r. now exists [], w, d.
  - cbn [readableFiles] in Hr. apply forallb_false in Hr as ([x c] & Hin & Hc).
    cbn [snd] in Hc. rewrite Forall_forall in IH.
    cbn [uniq] in Hu. apply andb_prop in Hu as [Hun Hall].
    rewrite forallb_forall in Hall.
    destruct (IH _ Hin (Hall _ Hin) Hc) as (rel & wr & d & Hf).
    exists (x :: rel), wr, d. cbn [find].
    now rewrite (In_lookup _ _ _ Hun Hin).
Qed.

(** The file at [rel] below the input cannot be read after the archive
    was created either. *)
Lemma unreadable_after_create (w : world) (inPath : string) (n n1 : node)
      (rel : list string) (wr : bool) (d : list Byte.byte) (e : event) :
  wf (root w) = true -> valid inPath = true ->
  stat w (Clean inPath) = Some n ->
  find n rel = Some (File false wr d) ->
  Fs.create (root w) (resolve w (dstOf inPath)) = Ok n1 ->
  readableAt (withRoot n1 (log e w)) (walkedPath inPath rel) = false.
Proof.
  intros Hwf Hv Hst Hf Ec.
  assert (Hwfn : wf n = true) by apply (wf_find _ _ _ Hwf Hst).
  pose proof (wf_find_names _ _ _ Hwfn Hf) as Hnames.
  unfold readableAt, stat. cbn [withRoot root].
  rewrite (resolve_cwd w) by reflexivity.
  rewrite resolve_walked by assumption.
  assert (Hfull : find (root w) (resolve w (Clean inPath) ++ rel)
                  = Some (File false wr d)).
  { unfold stat in Hst. now rewrite (find_app _ _ _ _ Hst). }
  destruct (list_eq_dec string_dec (resolve w (Clean inPath) ++ rel)
              (resolve w (dstOf inPath))) as [E|E].
  - rewrite E in Hfull. now apply (create_existing _ _ _ _ _ _ Ec) in Hfull.
  - now rewrite (find_create_other _ _ _ _ _ _ _ Ec Hfull E).
Qed.

Lemma zipper_unreadable (env : zipenv) (inPath : string) (w : world) (n : node) :
  wf (root w) = true -> valid inPath = true ->
  stat w (Clean inPath) = Some n -> readableFiles n = false ->
  forall a w', ZipperGo.Zip env inPath w <> (Success a, w').
Proof.
  intros Hwf Hv Hst Hr a w' H.
  assert (Hwfn : wf n = true) by apply (wf_find _ _ _ Hwf Hst).
  destruct (unreadable_file n (wf_uniq _ Hwfn) Hr) as (rel & wr & d & Hf).
  assert (Hin : In rel (filesBelow n)).
  { apply (filesBelow_spec n Hwfn). now exists false, wr, d. }
  rewrite zipper_Zip_valid in H by assumption.
  destruct (WalkDir_found w inPath n Hwf Hv Hst)
    as (files & wevs & Ew & Hwev & Hfiles).
  rewrite Ew in H. destruct (listable n) eqn:Hl; [|discriminate].
  cbn [walkErr] in H. rewrite (Hfiles eq_refl) in H.
  unfold ZipperGo.writeArchive in H.
  set (w1 := withTrace _ w) in *.
  pose proof (Create_run (dstOf inPath) w1) as HC.
  destruct (Fs.create (root w1) (resolve w1 (dstOf inPath))) as [n1|ce] eqn:Ec;
    rewrite HC in H; [|discriminate].
  destruct (ZipperGo.addFiles _ _ _ _ _) as [[[aerr zw] opened] w3] eqn:Ea.
  apply (zipper_addFiles_unreadable env (walkedPath inPath rel)) in Ea.
  - destruct (ArchiveZip.Close _ _ _) as [cerr w5].
    destruct aerr as [aerr|]; [|congruence].
    destruct (Os.Remove _ _) as [[|] w7]; discriminate.
  - now apply in_map.
  - apply (unreadable_after_create w inPath n n1 rel wr d (EvCreate (dstOf inPath)))
      in Ec; assumption.
Qed.

Lemma part_unreadable (env : zipenv) (inPath : string) (w : world) (n : node) :
  wf (root w) = true -> valid inPath = true ->
  stat w (Clean inPath) = Some n -> readableFiles n = false ->
  forall a w', Part000.Zip env inPath w <> (Success a, w').
Proof.
  intros Hwf Hv Hst Hr a w' H.
  assert (Hwfn : wf n = true) by apply (wf_find _ _ _ Hwf Hst).
  destruct (unreadable_file n (wf_uniq _ Hwfn) Hr) as (rel & wr & d & Hf).
  assert (Hin : In rel (filesBelow n)).
  { apply (filesBelow_spec n Hwfn). now exists false, wr, d. }
  rewrite part_Zip_valid in H by assumption.
  destruct (WalkDir_found w inPath n Hwf Hv Hst)
    as (files & wevs & Ew & Hwev & Hfiles).
  rewrite Ew in H. destruct (listable n) eqn:Hl; [|discriminate].
  cbn [walkErr] in H. rewrite (Hfiles eq_refl) in H.
  unfold Part000.writeArchive in H.
  set (w1 := withTrace _ w) in *.
  pose proof (Create_run (dstOf inPath) w1) as HC.
  destruct (Fs.create (root w1) (resolve w1 (dstOf inPath))) as [n1|ce] eqn:Ec;
    rewrite HC in H; [|discriminate].
  destruct (Part000.addFiles _ _ _ _ _) as [aerr w3] eqn:Ea.
  apply (part_addFiles_unreadable env _ (walkedPath inPath rel)) in Ea.
  - destruct aerr as [aerr|]; [|congruence].
    destruct (Os.Remove _ _) as [? w7]; discriminate.
  - now apply in_map.
  - apply (unreadable_after_create w inPath n n1 rel wr d (EvCreate (dstOf inPath)))
      in Ec; assumption.
Qed.

End ReadFacts.

(** ** The system calls of the loop and of the deferred calls *)

Module TraceFacts.
Import Footprint ResidueFacts FrameFacts RunFacts ReadFacts.

(** The loop of zipper.go opens the files in turn and closes none. *)
Lemma zipper_addFiles_trace (env : zipenv) (files : list string) :
  forall zw opened w zw' opened' w',
    ZipperGo.addFiles env files zw opened w = (None, zw', opened', w') ->
    trace w' = trace w ++ map EvOpen files
    /\ map fname opened' = rev files ++ map fname opened.
Proof.
  induction files as [|f files IH]; intros zw opened w zw' opened' w' H;
    cbn [ZipperGo.addFiles] in H.
  - injection H as _ <- <-. now rewrite app_nil_r.
  - destruct (Open f w) as [[fh|oe] w1] eqn:Eo; [|discriminate].
    apply Open_ok in Eo as (-> & -> & _).
    destruct (ArchiveZip.Create env f zw) as [zw1|ce]; [|discriminate].
    destruct (Copy env zw1 _ _) as [zw2|ce]; [|discriminate].
    apply IH in H as (-> & ->). cbn [log trace map fname rev].
    now rewrite <- !app_assoc.
Qed.

Lemma closeAll_trace (opened : list Os.file) :
  forall w, trace (ZipperGo.closeAll opened w)
            = trace w ++ map EvClose (map fname opened).
Proof.
  unfold ZipperGo.closeAll.
  induction opened as [|f opened IH]; intros w; cbn [fold_left map].
  - now rewrite app_nil_r.
  - rewrite IH. cbn [Os.Close log trace]. now rewrite <- app_assoc.
Qed.

(** The loop of part_000 closes every file before it opens the next. *)
Lemma part_addFiles_trace (env : zipenv) (inPath : string)
      (files : list string) :
  forall zw w w',
    Part000.addFiles env inPath files zw w = (None, w') ->
    trace w' = trace w ++ flat_map (fun f => [EvOpen f; EvClose f]) files.
Proof.
  induction files as [|f files IH]; intros zw w w' H;
    cbn [Part000.addFiles] in H.
  - apply ZipClose_rewritten in H as (_ & _ & ->). now rewrite app_nil_r.
  - destruct (Open f w) as [[fh|oe] w1] eqn:Eo; [|discriminate].
    apply Open_ok in Eo as (-> & -> & _).
    destruct (Rel inPath f) as [relPath|]; [|discriminate].
    destruct (ArchiveZip.Create env relPath zw) as [zw1|ce]; [|discriminate].
    destruct (Copy env zw1 _ _) as [zw2|ce]; [|discriminate].
    apply IH in H as ->. cbn [Os.Close log trace flat_map fname app].
    now rewrite <- !app_assoc.
Qed.

Lemma zipper_writeArchive_trace (env : zipenv) (dst : string)
      (files : list string) (w1 w' : world) (a : string) :
  ZipperGo.writeArchive env dst files w1 = (Success a, w') ->
  trace w' = trace w1 ++ EvCreate dst :: map EvOpen files
                      ++ map EvClose (rev files) ++ [EvClose dst].
Proof.
  intros H. unfold ZipperGo.writeArchive in H.
  pose proof (Create_run dst w1) as HC.
  destruct (Fs.create (root w1) (resolve w1 dst)) as [n1|ce] eqn:Ec;
    rewrite HC in H; [|discriminate].
  destruct (ZipperGo.addFiles _ _ _ _ _) as [[[aerr zw] opened] w3] eqn:Ea.
  destruct (ArchiveZip.Close env zw (ZipperGo.closeAll opened w3))
    as [cerr w5] eqn:Ez.
  destruct aerr as [aerr|].
  { destruct (Os.Remove _ _) as [[|] ?]; discriminate. }
  injection H as _ <-.
  apply zipper_addFiles_trace in Ea as (Ht3 & Ho).
  apply ZipClose_rewritten in Ez as (_ & _ & Ht5).
  cbn [Os.Close log trace fname]. rewrite Ht5, closeAll_trace, Ho, Ht3.
  cbn [withRoot log trace map]. rewrite app_nil_r, <- !app_assoc. reflexivity.
Qed.

Lemma part_writeArchive_trace (env : zipenv) (inPath dst : string)
      (files : list string) (w1 w' : world) (a : string) :
  Part000.writeArchive env inPath dst files w1 = (Success a, w') ->
  trace w' = trace w1 ++ EvCreate dst
                      :: flat_map (fun f => [EvOpen f; EvClose f]) files
                      ++ [EvClose dst].
Proof.
  intros H. unfold Part000.writeArchive in H.
  pose proof (Create_run dst w1) as HC.
  destruct (Fs.create (root w1) (resolve w1 dst)) as [n1|ce] eqn:Ec;
    rewrite HC in H; [|discriminate].
  destruct (Part000.addFiles _ _ _ _ _) as [aerr w3] eqn:Ea.
  destruct aerr as [aerr|].
  { destruct (Os.Remove _ _) as [? ?]; discriminate. }
  injection H as _ <-.
  apply part_addFiles_trace in Ea as Ht3.
  cbn [Os.Close log trace fname]. rewrite Ht3.
  cbn [withRoot log trace]. rewrite <- !app_assoc. reflexivity.
Qed.

(** A call of zipper.go that got as far as [os.Create] and does not
    succeed: either the file could not be created, or it is closed and
    then removed, and that is the last the call does. *)
Lemma zipper_writeArchive_failed (env : zipenv) (dst : string)
      (files : list string) (w1 w' : world) (o : outcome) :
  ZipperGo.writeArchive env dst files w1 = (o, w') ->
  (forall a, o <> Success a) ->
  (creatable w1 dst = false /\ trace w' = trace w1 ++ [EvCreate dst])
  \/ (creatable w1 dst = true
      /\ exists evs,
          forallb notWalkEvent evs = true
          /\ trace w' = trace w1 ++ EvCreate dst
                                 :: evs ++ [EvClose dst; EvRemove dst]).
Proof.
  intros H Hns. unfold ZipperGo.writeArchive in H. unfold creatable.
  pose proof (Create_run dst w1) as HC.
  destruct (Fs.create (root w1) (resolve w1 dst)) as [n1|ce] eqn:Ec;
    rewrite HC in H.
  2:{ injection H as _ <-. left. split; reflexivity. }
  right. split; [reflexivity|].
  destruct (ZipperGo.addFiles _ _ _ _ _) as [[[aerr zw] opened] w3] eqn:Ea.
  apply zipper_addFiles_run in Ea as (_ & _ & _ & (evs1 & Ht3 & Hev1) & _).
  destruct (closeAll_run opened w3) as (_ & _ & evs2 & Ht4 & Hev2).
  destruct (ArchiveZip.Close env zw (ZipperGo.closeAll opened w3))
    as [cerr w5] eqn:Ez.
  apply ZipClose_rewritten in Ez as (_ & _ & Ht5).
  destruct aerr as [aerr|].
  2:{ injection H as <- _. exfalso. now apply (Hns dst). }
  exists (evs1 ++ evs2). split; [now rewrite forallb_app, Hev1, Hev2|].
  assert (Ht : trace w' = trace w5 ++ [EvClose dst; EvRemove dst]).
  { unfold Os.Remove in H. destruct (remove _ _); injection H as _ <-;
      cbn [withRoot log Os.Close trace fname]; now rewrite <- app_assoc. }
  rewrite Ht, Ht5, Ht4, Ht3. cbn [withRoot log trace].
  rewrite <- !app_assoc. reflexivity.
Qed.

(** The same for part_000. *)
Lemma part_writeArchive_failed (env : zipenv) (inPath dst : string)
      (files : list string) (w1 w' : world) (o : outcome) :
  Part000.writeArchive env inPath dst files w1 = (o, w') ->
  (forall a, o <> Success a) ->
  (creatable w1 dst = false /\ trace w' = trace w1 ++ [EvCreate dst])
  \/ (creatable w1 dst = true
      /\ exists evs,
          forallb notWalkEvent evs = true
          /\ trace w' = trace w1 ++ EvCreate dst
                                 :: evs ++ [EvClose dst; EvRemove dst]).
Proof.
  intros H Hns. unfold Part000.writeArchive in H. unfold creatable.
  pose proof (Create_run dst w1) as HC.
  destruct (Fs.create (root w1) (resolve w1 dst)) as [n1|ce] eqn:Ec;
    rewrite HC in H.
  2:{ injection H as _ <-. left. split; reflexivity. }
  right. split; [reflexivity|].
  destruct (Part000.addFiles _ _ _ _ _) as [aerr w3] eqn:Ea.
  apply part_addFiles_run in Ea as (_ & (evs1 & Ht3 & Hev1) & _).
  destruct aerr as [aerr|].
  2:{ injection H as <- _. exfalso. now apply (Hns dst). }
  exists evs1. split; [assumption|].
  assert (Ht : trace w' = trace w3 ++ [EvClose dst; EvRemove dst]).
  { unfold Os.Remove in H. destruct (remove _ _); injection H as _ <-;
      cbn [withRoot log Os.Close trace fname]; now rewrite <- app_assoc. }
  rewrite Ht, Ht3. cbn [withRoot log trace].
  rewrite <- !app_assoc. reflexivity.
Qed.

End TraceFacts.

(** ** The test helper [verifyZipContents] *)

Module VerifyFacts.
Import Footprint ResidueFacts FrameFacts RunFacts ReadFacts ZipperTest.

Lemma ReadFile_file (path : string) (w : world) (wr : bool)
      (d : list Byte.byte) :
  stat w path = Some (File true wr d) -> ReadFile path w = Ok d.
Proof.
  intros Hs. unfold ReadFile, Open. rewrite Hs. unfold readAll.
  cbn [fnode log root]. unfold stat in Hs. now rewrite Hs.
Qed.

Lemma walkEntries_gather (w : world) (c : string -> list Byte.byte)
      (path : string) (l : list (string * node)) :
  Forall (fun e =>
            forall name path accC tr err accC' tr' accG,
              walkDir collect name (snd e) path accC tr = (err, accC', tr') ->
              exists new,
                accC' = accC ++ new
                /\ ((forall f, In f new -> ReadFile f w = Ok (c f)) ->
                    walkDir (gather w) name (snd e) path accG tr
                    = (err, fold_left (put c) new accG, tr'))) l ->
  forall accC tr err accC' tr' accG,
    walkEntries path
      (map (fun e => (fst e, walkDir collect (fst e) (snd e))) l) accC tr
    = (err, accC', tr') ->
    exists new,
      accC' = accC ++ new
      /\ ((forall f, In f new -> ReadFile f w = Ok (c f)) ->
          walkEntries path
            (map (fun e => (fst e, walkDir (gather w) (fst e) (snd e))) l)
            accG tr
          = (err, fold_left (put c) new accG, tr')).
Proof.
  induction 1 as [|[x ch] l Hc Hl IH]; intros accC tr err accC' tr' accG H;
    cbn [map walkEntries fst snd] in H |- *.
  - injection H as <- <- <-. exists []. rewrite app_nil_r. auto.
  - cbn [snd] in Hc.
    destruct (walkDir collect x ch (Join path x) accC tr) as [[e1 a1] t1] eqn:E1.
    destruct (Hc _ _ _ _ _ _ _ accG E1) as (new1 & -> & G1).
    destruct e1 as [e1|].
    + exists new1. split.
      * destruct (isSkipDir e1); now injection H as _ <- _.
      * intros Hread. rewrite (G1 Hread).
        destruct (isSkipDir e1); injection H as <- _ <-; reflexivity.
    + destruct (IH _ _ _ _ _ (fold_left (put c) new1 accG) H) as (new2 & -> & G2).
      exists (new1 ++ new2). split; [now rewrite app_assoc|].
      intros Hread. rewrite G1 by (intros f Hf; apply Hread, in_or_app; now left).
      rewrite G2 by (intros f Hf; apply Hread, in_or_app; now right).
      now rewrite fold_left_app.
Qed.

(** The walk of the test helper visits what the walk of [Zip] visits;
    where it can read the files, it ends as that one does. *)
Lemma walkDir_gather (w : world) (c : string -> list Byte.byte) (n : node) :
  forall name path accC tr err accC' tr' accG,
    walkDir collect name n path accC tr = (err, accC', tr') ->
    exists new,
      accC' = accC ++ new
      /\ ((forall f, In f new -> ReadFile f w = Ok (c f)) ->
          walkDir (gather w) name n path accG tr
          = (err, fold_left (put c) new accG, tr')).
Proof.
  induction n as [r wr d|r wr es IH] using node_ind;
    intros name path accC tr err accC' tr' accG H.
  - cbn in H. injection H as <- <- <-. exists [path]. split; [reflexivity|].
    intros Hread. cbn. rewrite (Hread path) by now left. reflexivity.
  - cbn [walkDir collect gather isDir IsDir] in H |- *. destruct r.
    + rewrite (sort_map (fun e => walkDir collect (fst e) (snd e))) in H.
      rewrite (sort_map (fun e => walkDir (gather w) (fst e) (snd e))).
      apply (walkEntries_gather w c path (sortByName es)); [|exact H].
      apply Forall_forall. intros e He. apply (proj1 (sort_In _ _)) in He.
      rewrite Forall_forall in IH. intros name0 path0. now apply IH.
    + cbn in H |- *. injection H as <- <- <-. exists [].
      rewrite app_nil_r. auto.
Qed.

Lemma WalkDir_gather (w : world) (c : string -> list Byte.byte)
      (path : string) (err : option error) (files : list string)
      (w1 : world) :
  WalkDir path collect [] w = (err, files, w1) ->
  (forall f, In f files -> ReadFile f w = Ok (c f)) ->
  WalkDir path (gather w) [] w = (err, fold_left (put c) files [], w1).
Proof.
  unfold WalkDir, Lstat. destruct (stat w path) as [n|].
  - destruct (walkDir collect (Base path) n path [] (trace (log (EvLstat path) w)))
      as [[e1 a1] t1] eqn:E1.
    destruct (walkDir_gather w c n _ _ _ _ _ _ _ [] E1) as (new & -> & G).
    cbn [app]. intros H Hread.
    assert (Hf : files = new).
    { destruct e1 as [e1|]; [destruct (isSkipDir e1 || isSkipAll e1)|];
        now injection H as _ <- _. }
    subst new. rewrite (G Hread).
    destruct e1 as [e1|]; [destruct (isSkipDir e1 || isSkipAll e1)|];
      injection H as <- <-; reflexivity.
  - cbn. intros H _. injection H as <- <- <-. reflexivity.
Qed.

Lemma lookup_absent {X : Type} (k : string) (l : list (string * X)) :
  ~ In k (map fst l) -> lookupEntry k l = None.
Proof.
  induction l as [|[k' v] l IH]; [reflexivity|]. cbn [map fst In lookupEntry].
  intros Hn. destruct (String.eqb_spec k' k) as [->|_]; [tauto|]. apply IH. tauto.
Qed.

Lemma setEntry_fresh {X : Type} (k : string) (v : X) (l : list (string * X)) :
  ~ In k (map fst l) -> setEntry k v l = l ++ [(k, v)].
Proof.
  induction l as [|[k' v'] l IH]; [reflexivity|]. cbn [map fst In setEntry app].
  intros Hn. destruct (String.eqb_spec k' k) as [->|_]; [tauto|].
  rewrite IH by tauto. reflexivity.
Qed.

(** Distinct files make distinct keys: the map is the list of them. *)
Lemma put_all (c : string -> list Byte.byte) (files : list string) :
  forall acc,
    NoDup (map fst acc ++ files) ->
    fold_left (put c) files acc = acc ++ map (fun f => (f, c f)) files.
Proof.
  induction files as [|f files IH]; intros acc Hnd; cbn [fold_left map].
  - now rewrite app_nil_r.
  - unfold put at 2. rewrite setEntry_fresh.
    + rewrite IH; [now rewrite <- app_assoc|].
      rewrite map_app, <- app_assoc. exact Hnd.
    + apply NoDup_remove_2 in Hnd. intros Hin. apply Hnd, in_or_app. now left.
Qed.

Lemma sameBytes_refl (a : list Byte.byte) : sameBytes a a = true.
Proof. unfold sameBytes. now destruct (list_eq_dec _ a a). Qed.

(** An archive that holds what is on disk passes. *)
Lemma checkEntries_same (l : list entry) : checkEntries l l = ([], []).
Proof.
  induction l as [|[k v] l IH]; [reflexivity|].
  cbn [checkEntries lookupEntry removeEntry]. rewrite String.eqb_refl.
  now rewrite sameBytes_refl, IH.
Qed.

(** An archive none of whose names is a file on disk. *)
Lemma checkEntries_strange (orig : list (string * list Byte.byte))
      (l : list entry) :
  (forall e, In e l -> lookupEntry (fst e) orig = None) ->
  checkEntries l orig = (map (fun e => Unexpected (fst e)) l, orig).
Proof.
  induction l as [|[k v] l IH]; intros H; [reflexivity|].
  pose proof (H (k, v) (or_introl eq_refl)) as Hk. cbn [fst] in Hk.
  cbn [checkEntries map fst]. rewrite Hk.
  rewrite IH by (intros e He; apply H; now right). reflexivity.
Qed.

Lemma isPrefix_app (a b : list string) : isPrefix a (a ++ b) = true.
Proof.
  induction a as [|x a IH]; [reflexivity|]. cbn [app isPrefix].
  now rewrite String.eqb_refl, IH.
Qed.

(** An archive outside the input is none of the files below it. *)
Lemma outside_not_among (w : world) (inPath : string) (n : node) :
  isPrefix (resolve w (Clean inPath)) (resolve w (dstOf inPath)) = false ->
  destAmong w inPath n = false.
Proof.
  intros Hp. unfold destAmong. destruct (existsb _ _) eqn:E; [|reflexivity].
  apply existsb_exists in E as (rel & _ & Hs). unfold samePlace in Hs.
  destruct (list_eq_dec string_dec _ _) as [Eq|]; [|discriminate].
  rewrite <- Eq, isPrefix_app in Hp. discriminate.
Qed.

Lemma WalkDir_at (w : world) (inPath : string) (n : node) :
  wf n = true -> valid inPath = true ->
  stat w (Clean inPath) = Some n ->
  exists files evs,
    WalkDir (Clean inPath) collect [] w
    = (walkErr (listable n), files,
       withTrace (trace w ++ EvLstat (Clean inPath) :: evs) w)
    /\ forallb isWalkEvent evs = true
    /\ (listable n = true ->
        files = map (walkedPath inPath) (filesBelow n)).
Proof.
  intros Hwfn Hv Hst. destruct (valid_Clean _ Hv) as (E & Hok & Hne).
  destruct (walkDir_collect n Hwfn (Base (Clean inPath)) _ _ []
              (trace w ++ [EvLstat (Clean inPath)]) Hok Hne)
    as (files & evs & Ew & Hev & Hfiles).
  exists files, evs. unfold WalkDir, Lstat. rewrite Hst.
  rewrite <- E in Ew. cbn [log trace]. rewrite Ew.
  split; [|split; [assumption|]].
  - rewrite <- app_assoc. cbn [app].
    destruct (listable n); reflexivity.
  - intros Hl. rewrite (Hfiles Hl). cbn [app]. apply map_ext_in.
    intros rel Hrel. symmetry. apply walkedPath_below; [assumption|].
    now apply (filesBelow_names n).
Qed.

Lemma walked_NoDup (w : world) (inPath : string) (n : node) :
  wf n = true -> valid inPath = true ->
  NoDup (map (walkedPath inPath) (filesBelow n)).
Proof.
  intros Hwfn Hv. pose proof (filesBelow_NoDup n Hwfn) as Hnd.
  assert (Hnames : forall rel, In rel (filesBelow n) ->
                               forallb is_name rel = true)
    by (intros rel; apply filesBelow_names; assumption).
  induction (filesBelow n) as [|rel l IH]; [constructor|].
  cbn [map]. inversion Hnd as [|? ? Hnotin Hnd']; subst. constructor.
  - intros Hin. apply in_map_iff in Hin as (rel' & E & Hin').
    apply (f_equal (resolve w)) in E.
    rewrite !resolve_walked in E by (try assumption; apply Hnames; simpl; auto).
    apply app_inv_head in E. subst rel'. contradiction.
  - apply IH; [assumption|]. intros r Hr. apply Hnames. now right.
Qed.

(** The test helper reads the files below the input as they are on
    disk, in a state in which the input is the tree [n]. *)
Lemma gather_files (w : world) (inPath : string) (n : node) :
  wf n = true -> valid inPath = true ->
  stat w (Clean inPath) = Some n ->
  listable n = true -> readableFiles n = true ->
  exists w1,
    WalkDir (Clean inPath) (gather w) [] w
    = (None,
       map (fun rel => (walkedPath inPath rel, dataBelow n rel)) (filesBelow n),
       w1).
Proof.
  intros Hwfn Hv Hst Hl Hr.
  destruct (WalkDir_at w inPath n Hwfn Hv Hst) as (files & evs & Ew & _ & Hfiles).
  rewrite Hl in Ew. cbn [walkErr] in Ew. rewrite (Hfiles Hl) in Ew.
  eexists.
  assert (Hdata : forall rel, In rel (filesBelow n) ->
            exists wr, stat w (walkedPath inPath rel)
                       = Some (File true wr (dataBelow n rel))).
  { intros rel Hin. pose proof (filesBelow_names n rel Hwfn Hin) as Hnames.
    apply (filesBelow_spec n Hwfn) in Hin as (r & wr & d & Hf).
    pose proof (readableFiles_find _ _ _ _ _ Hr Hf) as ->.
    exists wr. unfold stat. rewrite resolve_walked by assumption.
    unfold stat in Hst. rewrite (find_app _ _ _ _ Hst).
    unfold dataBelow. now rewrite Hf. }
  rewrite (WalkDir_gather w (dataAt w) _ _ _ _ Ew).
  - rewrite put_all by (cbn [map app]; now apply (walked_NoDup w)).
    cbn [app]. rewrite map_map. f_equal. f_equal. apply map_ext_in. intros rel Hin.
    destruct (Hdata rel Hin) as (wr & Hs). unfold dataAt. now rewrite Hs.
  - intros f Hf. apply in_map_iff in Hf as (rel & <- & Hin).
    destruct (Hdata rel Hin) as (wr & Hs).
    rewrite (ReadFile_file _ _ _ _ Hs). unfold dataAt. now rewrite Hs.
Qed.

(** What the helper reports, in a state in which the input is the tree
    [n] and the archive file can be read and decoded. *)
Lemma verify_run (rd : zipreader) (zipPath inPath : string) (w : world)
      (n : node) (wr : bool) (data : list Byte.byte) (files : list entry) :
  wf n = true -> valid inPath = true -> Clean inPath = inPath ->
  stat w inPath = Some n -> listable n = true -> readableFiles n = true ->
  stat w zipPath = Some (File true wr data) ->
  decode rd data = Some files ->
  verifyZipContents rd zipPath inPath w
  = Errors
      (fst (checkEntries files
              (map (fun rel => (walkedPath inPath rel, dataBelow n rel))
                   (filesBelow n)))
       ++ map (fun e => NotFound (fst e))
            (snd (checkEntries files
                    (map (fun rel => (walkedPath inPath rel, dataBelow n rel))
                         (filesBelow n))))).
Proof.
  intros Hwfn Hv Hc Hst Hl Hr Hz Hd. unfold verifyZipContents.
  rewrite (ReadFile_file _ _ _ _ Hz), Hd.
  rewrite <- Hc in Hst.
  destruct (gather_files w inPath n Hwfn Hv Hst Hl Hr) as (w1 & Eg).
  rewrite Hc in Eg. rewrite Eg.
  now destruct (checkEntries _ _).
Qed.

(** The input is the same tree after a call whose archive is not in
    or below it. *)
Lemma input_untouched (w w' : world) (inPath : string) (place : list string) :
  cwd w' = cwd w -> sameOff place (root w) (root w') ->
  isPrefix (resolve w inPath) place = false ->
  stat w' inPath = stat w inPath.
Proof.
  intros Hc Hs Hp. unfold stat. rewrite (resolve_cwd _ _ _ Hc). now apply Hs.
Qed.

(** A walked path under a rooted input is rooted; an entry name of
    part_000 is not. *)
Lemma isRooted_walked (inPath : string) (rel : list string) :
  valid inPath = true -> forallb is_name rel = true ->
  isRooted (walkedPath inPath rel) = isRooted inPath.
Proof.
  intros Hv Hn. rewrite walkedPath_below by assumption.
  destruct (valid_Clean _ Hv) as (_ & Hok & Hne). unfold pathBelow.
  apply isRooted_render.
  - apply stack_ok_names; [|assumption].
    rewrite forallb_forall in *. intros x Hx. apply Hn. now apply in_rev.
  - destruct Hne as [Hne|Hr]; [left|now right].
    intros E. apply app_eq_nil in E as [_ E]. contradiction.
Qed.

Lemma isRooted_relName (rel : list string) :
  forallb is_name rel = true -> isRooted (relName rel) = false.
Proof.
  destruct rel as [|x rel]; [reflexivity|]. cbn [forallb]. intros H.
  apply andb_prop in H as [Hx _]. unfold relName.
  destruct (concat_elem_rest x rel) as (rest & -> & _).
  apply is_name_inv in Hx as (Hne & _ & _ & Hs).
  destruct x as [|c s]; [congruence|]. rewrite sepfree_cons in Hs.
  apply andb_prop in Hs as [Hc _]. cbn. now apply negb_true_iff.
Qed.

End VerifyFacts.

(** ** The removal of an archive that the call created *)

Module CleanupFacts.
Import Footprint ResidueFacts FrameFacts RunFacts.

(** A file that [os.Create] made where none was can be removed. *)
Lemma create_fresh_removable (p : list string) :
  forall n n1, create n p = Ok n1 -> find n p = None ->
  exists n', remove n1 p = Ok n'.
Proof.
  induction p as [|x p IH]; intros n n1 H Hf; destruct n as [|r w es];
    cbn [create] in H; try discriminate.
  cbn [find] in Hf. destruct p as [|y p].
  - destruct (lookupEntry x es) as [[fr fw d|]|]; try discriminate.
    destruct w; [|discriminate]. injection H as <-.
    cbn [remove]. rewrite lookup_set_same. eauto.
  - destruct (lookupEntry x es) as [c|]; [|discriminate].
    destruct (create c (y :: p)) as [c'|] eqn:Ec; [|discriminate].
    injection H as <-. destruct (IH c c' Ec Hf) as (c'' & Hr).
    remember (y :: p) as q eqn:Eq. cbn [remove]. rewrite lookup_set_same, Hr.
    subst q. eauto.
Qed.

(** Writing to a file does not make it harder to remove. *)
Lemma setData_removable (p : list string) :
  forall n n' d, setData n p d = Some n' ->
  (exists m, remove n p = Ok m) -> exists m', remove n' p = Ok m'.
Proof.
  induction p as [|x p IH]; intros n n' d H (m & Hm);
    destruct n as [fr fw d0|r w es]; cbn [setData] in H; try discriminate.
  destruct (lookupEntry x es) as [c|] eqn:El; [|discriminate].
  destruct (setData c p d) as [c'|] eqn:Es; [|discriminate].
  injection H as <-. destruct p as [|y p].
  - cbn [remove] in Hm |- *. rewrite El in Hm. rewrite lookup_set_same.
    destruct c as [cr cw cd|]; [|discriminate]. cbn in Es.
    injection Es as <-. destruct w; [eauto|discriminate].
  - remember (y :: p) as q eqn:Eq. cbn [remove] in Hm |- *.
    rewrite El in Hm. rewrite lookup_set_same.
    destruct (remove c q) as [c2|] eqn:Er; [|subst q; discriminate].
    destruct (IH c c' d Es (ex_intro _ c2 Er)) as (m' & Hm').
    rewrite Hm'. subst q. eauto.
Qed.

Lemma rewritten_removable (place : list string) (n n' : node) :
  rewritten place n n' ->
  (exists m, remove n place = Ok m) -> exists m', remove n' place = Ok m'.
Proof.
  intros [->|(d & E)] H; [assumption|]. now apply (setData_removable _ _ _ _ E).
Qed.

(** zipper.go, where no file was at the place of the archive: a call
    that does not succeed fails without a panic and leaves none. *)
Lemma zipper_writeArchive_fresh (env : zipenv) (dst : string)
      (files : list string) (w1 w' : world) (o : outcome) :
  uniq (root w1) = true -> find (root w1) (resolve w1 dst) = None ->
  ZipperGo.writeArchive env dst files w1 = (o, w') ->
  (forall a, o <> Success a) ->
  (exists e, o = Failure e) /\ find (root w') (resolve w1 dst) = None.
Proof.
  intros Hu Hnone H Hns. unfold ZipperGo.writeArchive in H.
  pose proof (Create_run dst w1) as HC.
  destruct (Fs.create (root w1) (resolve w1 dst)) as [n1|ce] eqn:Ec;
    rewrite HC in H.
  2:{ injection H as <- <-. split; [eauto|exact Hnone]. }
  destruct (ZipperGo.addFiles _ _ _ _ _) as [[[aerr zw] opened] w3] eqn:Ea.
  apply zipper_addFiles_run in Ea as (Hr3 & Hc3 & Hd3 & _).
  destruct (closeAll_run opened w3) as (Hr4 & Hc4 & _).
  destruct (ArchiveZip.Close env zw (ZipperGo.closeAll opened w3))
    as [cerr w5] eqn:Ez.
  apply ZipClose_rewritten in Ez as (Hrw & Hc5 & _).
  rewrite Hd3, Hr4, Hr3 in Hrw. cbn [NewWriter dest fnode withRoot log root] in Hrw.
  rewrite Hc4, Hc3 in Hc5. cbn [withRoot log cwd] in Hc5.
  assert (Hu5 : uniq (root w5) = true).
  { apply (rewritten_uniq _ _ _ Hrw). apply (uniq_create _ _ _ Hu Ec). }
  destruct aerr as [aerr|].
  2:{ injection H as <- _. exfalso. now apply (Hns dst). }
  pose proof (Remove_run dst (Os.Close {| fname := dst; fnode := resolve w1 dst |} w5))
    as HR.
  rewrite (resolve_cwd w1 (Os.Close _ w5)) in HR by exact Hc5.
  change (root (Os.Close _ w5)) with (root w5) in HR.
  destruct (rewritten_removable _ _ _ Hrw (create_fresh_removable _ _ _ Ec Hnone))
    as (n7 & Er).
  rewrite Er in HR. rewrite HR in H. injection H as <- <-.
  split; [eauto|]. cbn [withRoot root].
  now apply (find_remove_uniq _ _ _ Hu5 Er).
Qed.

(** The same for part_000, which cannot panic. *)
Lemma part_writeArchive_fresh (env : zipenv) (inPath dst : string)
      (files : list string) (w1 w' : world) (o : outcome) :
  uniq (root w1) = true -> find (root w1) (resolve w1 dst) = None ->
  Part000.writeArchive env inPath dst files w1 = (o, w') ->
  (forall a, o <> Success a) ->
  (exists e, o = Failure e) /\ find (root w') (resolve w1 dst) = None.
Proof.
  intros Hu Hnone H Hns. unfold Part000.writeArchive in H.
  pose proof (Create_run dst w1) as HC.
  destruct (Fs.create (root w1) (resolve w1 dst)) as [n1|ce] eqn:Ec;
    rewrite HC in H.
  2:{ injection H as <- <-. split; [eauto|exact Hnone]. }
  destruct (Part000.addFiles _ _ _ _ _) as [aerr w3] eqn:Ea.
  pose proof (part_addFiles_rewritten _ _ _ _ _ _ _ Ea) as Hrw.
  apply part_addFiles_run in Ea as (Hc3 & _).
  cbn [NewWriter dest fnode withRoot log root cwd] in Hrw, Hc3.
  assert (Hu3 : uniq (root w3) = true).
  { apply (rewritten_uniq _ _ _ Hrw). apply (uniq_create _ _ _ Hu Ec). }
  destruct aerr as [aerr|].
  2:{ injection H as <- _. exfalso. now apply (Hns dst). }
  pose proof (Remove_run dst (Os.Close {| fname := dst; fnode := resolve w1 dst |} w3))
    as HR.
  rewrite (resolve_cwd w1 (Os.Close _ w3)) in HR by exact Hc3.
  change (root (Os.Close _ w3)) with (root w3) in HR.
  destruct (rewritten_removable _ _ _ Hrw (create_fresh_removable _ _ _ Ec Hnone))
    as (n7 & Er).
  rewrite Er in HR. rewrite HR in H. injection H as <- <-.
  split; [eauto|]. cbn [withRoot root].
  now apply (find_remove_uniq _ _ _ Hu3 Er).
Qed.

Lemma zipper_Zip_fresh (env : zipenv) (inPath : string) (w w' : world)
      (o : outcome) :
  uniq (root w) = true -> stat w (dstOf inPath) = None ->
  ZipperGo.Zip env inPath w = (o, w') ->
  (forall a, o <> Success a) ->
  (exists e, o = Failure e) /\ stat w' (dstOf inPath) = None.
Proof.
  intros Hu Hnone H Hns. destruct (valid inPath) eqn:Hv.
  2:{ rewrite zipper_Zip_invalid in H by assumption. injection H as <- <-.
      split; [eauto|assumption]. }
  rewrite zipper_Zip_valid in H by assumption.
  destruct (WalkDir (Clean inPath) collect [] w) as [[err files] w1] eqn:Ew.
  apply WalkDir_same_disk in Ew as [Hr1 Hc1].
  destruct err as [err|].
  { injection H as <- <-. split; [eauto|]. unfold stat in *.
    now rewrite Hr1, (resolve_cwd _ _ _ Hc1). }
  pose proof H as Hrun. apply zipper_writeArchive_run in Hrun as (Hc & _);
    [|now rewrite Hr1].
  apply zipper_writeArchive_fresh in H; try assumption.
  - destruct H as [He Hf]. split; [assumption|]. unfold stat.
    rewrite (resolve_cwd w1 w') by assumption. exact Hf.
  - now rewrite Hr1.
  - unfold stat in Hnone. now rewrite Hr1, (resolve_cwd _ _ _ Hc1).
Qed.

Lemma part_Zip_fresh (env : zipenv) (inPath : string) (w w' : world)
      (o : outcome) :
  uniq (root w) = true -> stat w (dstOf inPath) = None ->
  Part000.Zip env inPath w = (o, w') ->
  (forall a, o <> Success a) ->
  (exists e, o = Failure e) /\ stat w' (dstOf inPath) = None.
Proof.
  intros Hu Hnone H Hns. destruct (valid inPath) eqn:Hv.
  2:{ rewrite part_Zip_invalid in H by assumption. injection H as <- <-.
      split; [eauto|assumption]. }
  rewrite part_Zip_valid in H by assumption.
  destruct (WalkDir (Clean inPath) collect [] w) as [[err files] w1] eqn:Ew.
  apply WalkDir_same_disk in Ew as [Hr1 Hc1].
  destruct err as [err|].
  { injection H as <- <-. split; [eauto|]. unfold stat in *.
    now rewrite Hr1, (resolve_cwd _ _ _ Hc1). }
  pose proof H as Hrun. apply part_writeArchive_run in Hrun as (Hc & _);
    [|now rewrite Hr1].
  apply part_writeArchive_fresh in H; try assumption.
  - destruct H as [He Hf]. split; [assumption|]. unfold stat.
    rewrite (resolve_cwd w1 w') by assumption. exact Hf.
  - now rewrite Hr1.
  - unfold stat in Hnone. now rewrite Hr1, (resolve_cwd _ _ _ Hc1).
Qed.

End CleanupFacts.

(** ** Inputs that end in a file name *)

Module NameFacts.
Import PathMore StrFacts ErrFacts Errors.

Lemma isRooted_name (name : string) : is_name name = true -> isRooted name = false.
Proof.
  intros Hn. apply is_name_inv in Hn as (Hne & _ & _ & Hs).
  destruct name as [|c s]; [reflexivity|]. rewrite sepfree_cons in Hs.
  apply andb_prop in Hs as [Hc _]. cbn [isRooted]. now apply negb_true_iff.
Qed.

(** A file name is its own base name. *)
Lemma Base_name (name : string) : is_name name = true -> Base name = name.
Proof.
  intros Hn. apply is_name_inv in Hn as (Hne & _ & _ & Hs).
  pose proof (Base_buf name [] Hne Hs (or_introl eq_refl)) as H.
  rewrite of_rev_rev_onto in H. exact H.
Qed.

(** The cleaned form of a path that ends in a file name ends in it. *)
Lemma Clean_last (p name : string) :
  is_name name = true -> (p = name \/ exists dir, p = (dir ++ slash ++ name)%string) ->
  exists st, Clean p = render (isRooted p) (name :: st)
             /\ stack_ok (isRooted p) (name :: st) = true.
Proof.
  intros Hn Hp. destruct (Clean_stack p) as (E & Hok).
  pose proof (is_name_inv _ Hn) as (_ & _ & _ & Hs).
  assert (Hst : exists st, cleanStack (isRooted p) (tokens p) = name :: st).
  { unfold cleanStack. destruct Hp as [->|(dir & ->)].
    - rewrite (tokens_elem _ Hs). cbn [fold_left].
      rewrite (eltStep_name _ _ _ Hn). eauto.
    - change (dir ++ slash ++ name)%string
        with (dir ++ String Separator name)%string.
      rewrite tokens_app_sep, (tokens_elem _ Hs), fold_left_app.
      cbn [fold_left]. rewrite (eltStep_name _ _ _ Hn). eauto. }
  destruct Hst as (st & Est). rewrite Est in E, Hok. eauto.
Qed.

Lemma dstOf_last (p name : string) :
  is_name name = true -> (p = name \/ exists dir, p = (dir ++ slash ++ name)%string) ->
  valid p = true /\ dstOf p = (name ++ ".zip")%string
  /\ Base (Clean p) <> slash.
Proof.
  intros Hn Hp. destruct (Clean_last p name Hn Hp) as (st & E & Hok).
  pose proof (is_name_inv _ Hn) as (Hne & Hnd & Hndd & Hs).
  assert (Hb : Base (Clean p) = name) by (rewrite E; now apply Base_render).
  split; [|split].
  - destruct (valid p) eqn:Hv; [reflexivity|].
    apply valid_false_iff in Hv as [Hv|Hv]; [|congruence].
    rewrite E in Hv. exfalso. revert Hv. apply render_not_dot; [assumption|].
    left. discriminate.
  - unfold dstOf. now rewrite Hb.
  - rewrite Hb. intros ->. vm_compute in Hs. discriminate.
Qed.

End NameFacts.

(** ** [filepath.Rel] in part_000 *)

Module RelFacts.
Import PathMore ErrFacts Errors.

(** [filepath.Rel] does not fail on what the walk of part_000 lists. *)
Lemma part_Zip_norel (env : zipenv) (inPath : string) (w : world) :
  wf (root w) = true ->
  fst (Part000.Zip env inPath w) <> Failure ErrRel.
Proof.
  intros Hwf H. destruct (valid inPath) eqn:Hv.
  2:{ rewrite part_Zip_invalid in H by assumption. discriminate. }
  apply part_Zip_err in H; [|assumption].
  destruct H as [H|(_ & files & w1 & f & u & Ew & Hin & Hr)]; [discriminate|].
  destruct (stat w (Clean inPath)) as [n|] eqn:Hst.
  2:{ rewrite WalkDir_missing in Ew by assumption. discriminate. }
  destruct (WalkDir_found w inPath n Hwf Hv Hst) as (files' & evs & Ew' & _ & Hf).
  rewrite Ew in Ew'. destruct (listable n); [|discriminate].
  injection Ew' as -> _. rewrite (Hf eq_refl) in Hin.
  apply in_map_iff in Hin as (rel & <- & Hin).
  rewrite Rel_walked in Hr; [discriminate|assumption|].
  apply (filesBelow_names n); [|assumption]. apply (wf_find _ _ _ Hwf Hst).
Qed.

End RelFacts.

(** ** The archive after a call that succeeded *)

Module SuccessFacts.
Import Footprint ResidueFacts FrameFacts RunFacts.

Lemma zipper_success_file (env : zipenv) (inPath : string) (w w' : world)
      (a : string) :
  wf (root w) = true ->
  ZipperGo.Zip env inPath w = (Success a, w') ->
  a = dstOf inPath /\ cwd w' = cwd w
  /\ exists d, stat w' a = Some (File true true d).
Proof.
  intros Hwf H.
  pose proof (zipper_Zip_success _ _ _ _ _ Hwf H) as (_ & -> & _).
  split; [reflexivity|].
  apply zipper_Zip_run in H as (Hc & _ & Hf); [|now apply wf_uniq].
  split; [assumption|].
  unfold stat. rewrite (resolve_cwd _ _ _ Hc). now apply (Hf (dstOf inPath)).
Qed.

Lemma part_success_file (env : zipenv) (inPath : string) (w w' : world)
      (a : string) :
  wf (root w) = true ->
  Part000.Zip env inPath w = (Success a, w') ->
  a = dstOf inPath /\ cwd w' = cwd w
  /\ exists d, stat w' a = Some (File true true d).
Proof.
  intros Hwf H.
  pose proof (part_Zip_success _ _ _ _ _ Hwf H) as (_ & -> & _).
  split; [reflexivity|].
  apply part_Zip_run in H as (Hc & _ & Hf); [|now apply wf_uniq].
  split; [assumption|].
  unfold stat. rewrite (resolve_cwd _ _ _ Hc). now apply (Hf (dstOf inPath)).
Qed.

End SuccessFacts.

(** ** The tree after a call that succeeded *)

Module AgainFacts.
Import Footprint ResidueFacts FrameFacts RunFacts PathMore NameFacts.

Lemma wf_set (r w : bool) (es : list (string * node)) (x : string) (c : node) :
  wf (Dir r w es) = true -> is_name x = true -> wf c = true ->
  wf (Dir r w (setEntry x c es)) = true.
Proof.
  cbn [wf]. intros H Hx Hc. apply andb_prop in H as [Hall Hu].
  rewrite (uniqueNames_set _ _ _ Hu), andb_true_r. clear Hu.
  induction es as [|[k v] es IH]; cbn [setEntry forallb fst snd].
  - now rewrite Hx, Hc.
  - cbn [forallb fst snd] in Hall. apply andb_prop in Hall as [Hk Hall].
    destruct (String.eqb_spec k x) as [->|_]; cbn [forallb fst snd].
    + now rewrite Hx, Hc, Hall.
    + now rewrite Hk, (IH Hall).
Qed.

(** A file created under a file name leaves the tree well formed. *)
Lemma wf_create (p : list string) :
  forall n n', wf n = true -> is_name (last p "") = true ->
  create n p = Ok n' -> wf n' = true.
Proof.
  induction p as [|x p IH]; intros n n' Hwf Hl H; destruct n as [|r w es];
    cbn [create] in H; try discriminate.
  destruct p as [|y p].
  - cbn [last] in Hl.
    destruct (lookupEntry x es) as [[fr fw d|]|]; try discriminate.
    + destruct (fr && fw); [|discriminate]. injection H as <-.
      now apply wf_set.
    + destruct w; [|discriminate]. injection H as <-. now apply wf_set.
  - destruct (lookupEntry x es) as [c|] eqn:El; [|discriminate].
    destruct (create c (y :: p)) as [c'|] eqn:Ec; [|discriminate].
    injection H as <-. apply lookup_In in El.
    destruct (wf_entry _ _ _ _ Hwf El) as [Hx Hc]. cbn [fst snd] in Hx, Hc.
    apply wf_set; [assumption|assumption|]. now apply (IH c c').
Qed.

Lemma wf_setData (p : list string) :
  forall n n' d, wf n = true -> setData n p d = Some n' -> wf n' = true.
Proof.
  induction p as [|x p IH]; intros n n' d Hwf H; destruct n as [fr fw d0|r w es];
    cbn [setData] in H; try discriminate.
  - now injection H as <-.
  - destruct (lookupEntry x es) as [c|] eqn:El; [|discriminate].
    destruct (setData c p d) as [c'|] eqn:Es; [|discriminate].
    injection H as <-. apply lookup_In in El.
    destruct (wf_entry _ _ _ _ Hwf El) as [Hx Hc]. cbn [fst snd] in Hx, Hc.
    apply wf_set; [assumption|assumption|]. now apply (IH c c' d).
Qed.

Lemma rewritten_wf (place : list string) (n n' : node) :
  rewritten place n n' -> wf n = true -> wf n' = true.
Proof.
  intros [->|(d & E)] Hwf; [assumption|]. now apply (wf_setData _ _ _ _ Hwf E).
Qed.

(** The archive is created under a file name. *)
Lemma place_last_name (w : world) (inPath : string) :
  valid inPath = true ->
  is_name (last (resolve w (dstOf inPath)) "") = true.
Proof.
  intros Hv. destruct (string_dec (Base (Clean inPath)) slash) as [E|Hb].
  - unfold dstOf. rewrite E. reflexivity.
  - rewrite (resolve_dstOf w _ Hv Hb), last_last. now apply dstOf_name.
Qed.

(** A file that can be read and written is opened by [os.Create]. *)
Lemma create_existing_ok (p : list string) :
  forall n d, find n p = Some (File true true d) -> p <> [] ->
  exists n', create n p = Ok n'.
Proof.
  induction p as [|x p IH]; intros n d Hf Hne; [congruence|].
  destruct n as [|r w es]; [discriminate|]. cbn [find] in Hf.
  destruct (lookupEntry x es) as [c|] eqn:El; [|discriminate].
  destruct p as [|y p].
  - cbn [find] in Hf. injection Hf as ->. cbn [create]. rewrite El. cbn. eauto.
  - destruct (IH c d Hf) as (c' & Ec); [discriminate|].
    remember (y :: p) as q. cbn [create]. rewrite El. subst q.
    rewrite Ec. eauto.
Qed.

Lemma zipper_writeArchive_root (env : zipenv) (dst : string)
      (files : list string) (w1 w' : world) (a : string) :
  ZipperGo.writeArchive env dst files w1 = (Success a, w') ->
  exists n1, create (root w1) (resolve w1 dst) = Ok n1
             /\ rewritten (resolve w1 dst) n1 (root w').
Proof.
  intros H. unfold ZipperGo.writeArchive in H.
  pose proof (Create_run dst w1) as HC.
  destruct (Fs.create (root w1) (resolve w1 dst)) as [n1|ce] eqn:Ec;
    rewrite HC in H; [|discriminate].
  destruct (ZipperGo.addFiles _ _ _ _ _) as [[[aerr zw] opened] w3] eqn:Ea.
  apply zipper_addFiles_run in Ea as (Hr3 & Hc3 & Hd3 & _).
  destruct (closeAll_run opened w3) as (Hr4 & Hc4 & _).
  destruct (ArchiveZip.Close env zw (ZipperGo.closeAll opened w3))
    as [cerr w5] eqn:Ez.
  apply ZipClose_rewritten in Ez as (Hrw & _).
  rewrite Hd3, Hr4, Hr3 in Hrw. cbn [NewWriter dest fnode withRoot log root] in Hrw.
  destruct aerr as [aerr|].
  { destruct (Os.Remove _ _) as [[|] ?]; discriminate. }
  injection H as _ <-. exists n1. split; [reflexivity|exact Hrw].
Qed.

Lemma part_writeArchive_root (env : zipenv) (inPath dst : string)
      (files : list string) (w1 w' : world) (a : string) :
  Part000.writeArchive env inPath dst files w1 = (Success a, w') ->
  exists n1, create (root w1) (resolve w1 dst) = Ok n1
             /\ rewritten (resolve w1 dst) n1 (root w').
Proof.
  intros H. unfold Part000.writeArchive in H.
  pose proof (Create_run dst w1) as HC.
  destruct (Fs.create (root w1) (resolve w1 dst)) as [n1|ce] eqn:Ec;
    rewrite HC in H; [|discriminate].
  destruct (Part000.addFiles _ _ _ _ _) as [aerr w3] eqn:Ea.
  pose proof (part_addFiles_rewritten _ _ _ _ _ _ _ Ea) as Hrw.
  cbn [NewWriter dest fnode withRoot log root cwd] in Hrw.
  destruct aerr as [aerr|].
  { destruct (Os.Remove _ _) as [? ?]; discriminate. }
  injection H as _ <-. exists n1. split; [reflexivity|exact Hrw].
Qed.

Lemma last_nonempty (p : list string) :
  is_name (last p "") = true -> p <> [].
Proof. intros H ->. discriminate. Qed.

(** After a call that succeeded the tree is well formed and the
    archive can be created again. *)
Lemma zipper_Zip_again (env : zipenv) (inPath : string) (w w' : world)
      (a : string) :
  wf (root w) = true ->
  ZipperGo.Zip env inPath w = (Success a, w') ->
  wf (root w') = true /\ creatable w' (dstOf inPath) = true.
Proof.
  intros Hwf H. pose proof H as Hrun.
  apply zipper_Zip_run in Hrun as (Hc & _ & Hf); [|now apply wf_uniq].
  destruct (Hf a eq_refl) as (d & Hfile).
  destruct (valid inPath) eqn:Hv.
  2:{ rewrite zipper_Zip_invalid in H by assumption. discriminate. }
  pose proof (place_last_name w inPath Hv) as Hl.
  split.
  - rewrite zipper_Zip_valid in H by assumption.
    destruct (WalkDir (Clean inPath) collect [] w) as [[err files] w1] eqn:Ew.
    apply WalkDir_same_disk in Ew as [Hr1 Hc1].
    destruct err as [err|]; [discriminate|].
    apply zipper_writeArchive_root in H as (n1 & Ec & Hrw).
    apply (rewritten_wf _ _ _ Hrw).
    rewrite Hr1, (resolve_cwd _ _ _ Hc1) in Ec.
    now apply (wf_create _ _ _ Hwf Hl Ec).
  - unfold creatable. rewrite (resolve_cwd _ _ _ Hc).
    destruct (create_existing_ok _ _ _ Hfile (last_nonempty _ Hl)) as (n' & ->).
    reflexivity.
Qed.

Lemma part_Zip_again (env : zipenv) (inPath : string) (w w' : world)
      (a : string) :
  wf (root w) = true ->
  Part000.Zip env inPath w = (Success a, w') ->
  wf (root w') = true /\ creatable w' (dstOf inPath) = true.
Proof.
  intros Hwf H. pose proof H as Hrun.
  apply part_Zip_run in Hrun as (Hc & _ & Hf); [|now apply wf_uniq].
  destruct (Hf a eq_refl) as (d & Hfile).
  destruct (valid inPath) eqn:Hv.
  2:{ rewrite part_Zip_invalid in H by assumption. discriminate. }
  pose proof (place_last_name w inPath Hv) as Hl.
  split.
  - rewrite part_Zip_valid in H by assumption.
    destruct (WalkDir (Clean inPath) collect [] w) as [[err files] w1] eqn:Ew.
    apply WalkDir_same_disk in Ew as [Hr1 Hc1].
    destruct err as [err|]; [discriminate|].
    apply part_writeArchive_root in H as (n1 & Ec & Hrw).
    apply (rewritten_wf _ _ _ Hrw).
    rewrite Hr1, (resolve_cwd _ _ _ Hc1) in Ec.
    now apply (wf_create _ _ _ Hwf Hl Ec).
  - unfold creatable. rewrite (resolve_cwd _ _ _ Hc).
    destruct (create_existing_ok _ _ _ Hfile (last_nonempty _ Hl)) as (n' & ->).
    reflexivity.
Qed.

End AgainFacts.

(** ** An input that is a file *)

Module FileFacts.
Import Footprint PathMore NameFacts.

(** The cleaned input resolves to a path that ends in its base name. *)
Lemma resolve_Clean_last (w : world) (inPath : string) :
  valid inPath = true -> Base (Clean inPath) <> slash ->
  exists pre, resolve w (Clean inPath) = pre ++ [Base (Clean inPath)].
Proof.
  intros Hv Hb. destruct (valid_Clean _ Hv) as (E & Hok & Hne).
  destruct (stackOf inPath) as [|e st] eqn:Est.
  - destruct Hne as [Hne|Hr]; [congruence|]. rewrite Hr in E.
    exfalso. apply Hb. now rewrite E.
  - assert (Hbase : Base (Clean inPath) = e) by (rewrite E; now apply Base_render).
    assert (Hn : is_name e = true).
    { cbn [stack_ok] in Hok. apply orb_prop in Hok as [H|H].
      - now apply andb_prop in H as [H _].
      - apply andb_prop in H as [H _]. apply andb_prop in H as [H _].
        apply String.eqb_eq in H. subst e.
        assert (Hf : valid inPath = false)
          by (apply valid_false_iff; now right). congruence. }
    rewrite Hbase, E, resolve_render by (assumption || (left; discriminate)).
    cbn [rev]. rewrite fold_left_app.
    rewrite (nameiStep_names [e]) by (cbn; now rewrite Hn).
    cbn [rev app]. eauto.
Qed.

(** A file is not the archive made of it. *)
Lemma file_not_among (w : world) (inPath : string) (r wr : bool)
      (d : list Byte.byte) :
  valid inPath = true -> Base (Clean inPath) <> slash ->
  destAmong w inPath (File r wr d) = false.
Proof.
  intros Hv Hb. unfold destAmong. cbn [filesBelow existsb]. rewrite orb_false_r.
  unfold samePlace. destruct (list_eq_dec string_dec _ _) as [E|]; [|reflexivity].
  destruct (resolve_Clean_last w inPath Hv Hb) as (pre & Hp).
  rewrite app_nil_r, Hp, (resolve_dstOf w _ Hv Hb) in E.
  apply app_inj_tail in E as [_ E]. unfold dstOf in E.
  apply (f_equal String.length) in E. rewrite StrFacts.length_append in E.
  cbn in E. lia.
Qed.

End FileFacts.

Import Footprint Errors Cmd ZipperTest MoreData.
Import PathMore ErrFacts FrameFacts RunFacts ReadFacts TraceFacts VerifyFacts.
Import CleanupFacts NameFacts RelFacts SuccessFacts AgainFacts FileFacts.
Import ResidueFacts.

(** * Further properties of the code *)

(** X1: [filepath.Clean], the first thing both versions do, maps its
    own results to themselves; so [Zip] gives for the cleaned form of a
    path what it gives for the path itself, outcome and effects
    alike. *)
Theorem X1_cleaned_input (env : zipenv) (inPath : string) (w : world) :
  Clean (Clean inPath) = Clean inPath
  /\ ZipperGo.Zip env (Clean inPath) w = ZipperGo.Zip env inPath w
  /\ Part000.Zip env (Clean inPath) w = Part000.Zip env inPath w.
Proof.
  pose proof (Clean_idem inPath) as H. split; [exact H|].
  unfold ZipperGo.Zip, Part000.Zip. rewrite H. split; reflexivity.
Qed.

(** X2: both versions return the error of the validation exactly for
    the inputs whose cleaned form is [.] or has [..] as its last
    element; no later step returns that error. *)
Theorem X2_invalid_path_exactly (env : zipenv) (inPath : string) (w : world) :
  (fst (ZipperGo.Zip env inPath w) = Failure ErrInvalidPath
   <-> Clean inPath = "." \/ Base (Clean inPath) = "..")
  /\ (fst (Part000.Zip env inPath w) = Failure ErrInvalidPath
      <-> Clean inPath = "." \/ Base (Clean inPath) = "..").
Proof.
  split; (split; [intros H|intros H; apply valid_false_iff in H]).
  - apply valid_false_iff. destruct (valid inPath) eqn:Hv; [|reflexivity].
    apply (zipper_Zip_err _ _ _ _ Hv) in H. discriminate.
  - now rewrite zipper_Zip_invalid.
  - apply valid_false_iff. destruct (valid inPath) eqn:Hv; [|reflexivity].
    apply (part_Zip_err _ _ _ _ Hv) in H.
    destruct H as [H|[H _]]; discriminate.
  - now rewrite part_Zip_invalid.
Qed.

(** X3: of the three tests on [dstPath], the base name of the cleaned
    input, only the one for [..] can decide: the base name is never
    empty, and it is [.] only when the cleaned input is [.], which the
    test before has rejected. *)
Theorem X3_base_guards (inPath : string) :
  Base (Clean inPath) <> ""
  /\ (Base (Clean inPath) = "." <-> Clean inPath = ".").
Proof.
  destruct (Clean_cases inPath)
    as [(E & B)|[(E & B)|(rooted & e & st & E & Hok & B)]]; rewrite ?B, ?E.
  - split; [discriminate|tauto].
  - split; [discriminate|]. split; discriminate.
  - destruct (stack_ok_top _ _ _ Hok) as (Hne & Hs). split; [assumption|].
    split.
    + intros ->. vm_compute in Hok. discriminate.
    + intros Hr. exfalso. revert Hr. apply render_not_dot; [assumption|].
      left. discriminate.
Qed.

(** X4: for an input that ends in a file name, whatever directory
    comes before it, the archive is that name with [.zip]; this is its
    own base name, as TestZipFileNaming checks, and it names an entry
    of the working directory. *)
Theorem X4_archive_name (dir name : string) (w : world) :
  is_name name = true ->
  dstOf (dir ++ slash ++ name) = (name ++ ".zip")%string
  /\ dstOf name = (name ++ ".zip")%string
  /\ Base (name ++ ".zip") = (name ++ ".zip")%string
  /\ resolve w (name ++ ".zip") = cwd w ++ [(name ++ ".zip")%string].
Proof.
  intros Hn.
  destruct (dstOf_last (dir ++ slash ++ name) name Hn) as (_ & Hd & _);
    [right; eauto|].
  destruct (dstOf_last name name Hn) as (Hv & Hd' & Hb); [now left|].
  pose proof (dstOf_name _ Hv Hb) as Hz. rewrite Hd' in Hz.
  pose proof (resolve_dstOf w _ Hv Hb) as Hr. rewrite Hd' in Hr.
  repeat split; try assumption. now apply Base_name.
Qed.

Lemma X4_witness :
  dstOf ("/tmp/T1" ++ slash ++ "myfile.txt") = "myfile.txt.zip"
  /\ dstOf "myfile.txt" = "myfile.txt.zip"
  /\ Base "myfile.txt.zip" = "myfile.txt.zip"
  /\ resolve w0 "myfile.txt.zip" = ["work"; "myfile.txt.zip"].
Proof. apply (X4_archive_name "/tmp/T1" "myfile.txt" w0). reflexivity. Defined.



(** X6: when a directory in or below the input cannot be listed, both
    versions fail with the error of [ReadDir] after the walk alone:
    the tree is as before and no archive was created. *)
Theorem X6_unlistable_directory (env : zipenv) (inPath : string) (w : world)
        (n : node) :
  wf (root w) = true -> valid inPath = true ->
  stat w (Clean inPath) = Some n -> listable n = false ->
  exists evs,
    forallb isWalkEvent evs = true
    /\ ZipperGo.Zip env inPath w
       = (Failure ErrPermission,
          withTrace (trace w ++ EvLstat (Clean inPath) :: evs) w)
    /\ Part000.Zip env inPath w
       = (Failure ErrPermission,
          withTrace (trace w ++ EvLstat (Clean inPath) :: evs) w).
Proof.
  intros Hwf Hv Hst Hl.
  destruct (WalkDir_found w inPath n Hwf Hv Hst) as (files & evs & Ew & Hev & _).
  rewrite Hl in Ew. exists evs. split; [assumption|].
  rewrite zipper_Zip_valid, part_Zip_valid by assumption.
  rewrite Ew. split; reflexivity.
Qed.

Lemma X6_witness :
  exists evs,
    forallb isWalkEvent evs = true
    /\ ZipperGo.Zip healthy "/vault" wLocked
       = (Failure ErrPermission,
          withTrace (trace wLocked ++ EvLstat (Clean "/vault") :: evs) wLocked)
    /\ Part000.Zip healthy "/vault" wLocked
       = (Failure ErrPermission,
          withTrace (trace wLocked ++ EvLstat (Clean "/vault") :: evs) wLocked).
Proof.
  apply (X6_unlistable_directory healthy "/vault" wLocked
           (Dir true true
              [ ("open.txt", file "o");
                ("sealed", Dir false true [("x", file "x")]) ]));
    reflexivity.
Defined.

(** X7: whatever the outcome, a call changes the tree only on the way
    to the archive: every path that is neither the place of the archive
    nor a directory above it holds after the call what it held before,
    and the working directory is the same. *)
Theorem X7_only_the_archive_changes (env : zipenv) (inPath : string)
        (w : world) :
  wf (root w) = true ->
  (sameOff (resolve w (dstOf inPath)) (root w)
     (root (snd (ZipperGo.Zip env inPath w)))
   /\ cwd (snd (ZipperGo.Zip env inPath w)) = cwd w)
  /\ (sameOff (resolve w (dstOf inPath)) (root w)
        (root (snd (Part000.Zip env inPath w)))
      /\ cwd (snd (Part000.Zip env inPath w)) = cwd w).
Proof.
  intros Hwf. apply wf_uniq in Hwf. split.
  - destruct (ZipperGo.Zip env inPath w) as [o w'] eqn:E.
    apply zipper_Zip_run in E as (Hc & Hs & _); auto.
  - destruct (Part000.Zip env inPath w) as [o w'] eqn:E.
    apply part_Zip_run in E as (Hc & Hs & _); auto.
Qed.

Lemma X7_witness :
  (sameOff (resolve wStuck (dstOf "/src")) (root wStuck)
     (root (snd (ZipperGo.Zip copyFailing "/src" wStuck)))
   /\ cwd (snd (ZipperGo.Zip copyFailing "/src" wStuck)) = cwd wStuck)
  /\ (sameOff (resolve wStuck (dstOf "/src")) (root wStuck)
        (root (snd (Part000.Zip copyFailing "/src" wStuck)))
      /\ cwd (snd (Part000.Zip copyFailing "/src" wStuck)) = cwd wStuck).
Proof.
  apply (X7_only_the_archive_changes copyFailing "/src" wStuck). reflexivity.
Defined.

(** X8: when a call succeeds, the path it returns is the name of the
    archive and names a file that can be read and written, as the second part of
    TestZipCleanupOnError checks; this holds in zipper.go also when
    closing the writer failed. *)
Theorem X8_success_keeps_archive (env : zipenv) (inPath : string) (w : world) :
  wf (root w) = true ->
  (forall a w',
      ZipperGo.Zip env inPath w = (Success a, w') ->
      a = dstOf inPath
      /\ exists d, stat w' a = Some (File true true d))
  /\ (forall a w',
         Part000.Zip env inPath w = (Success a, w') ->
         a = dstOf inPath
         /\ exists d, stat w' a = Some (File true true d)).
Proof.
  intros Hwf. split; intros a w' H.
  - destruct (zipper_success_file _ _ _ _ _ Hwf H) as (Ha & _ & Hf). auto.
  - destruct (part_success_file _ _ _ _ _ Hwf H) as (Ha & _ & Hf). auto.
Qed.

Lemma X8_witness :
  ("single.zip" = dstOf "/tmp/single"
   /\ exists d,
       stat (snd (ZipperGo.Zip closeFailing "/tmp/single" w0)) "single.zip"
       = Some (File true true d))
  /\ ("single.zip" = dstOf "/tmp/single"
      /\ exists d,
          stat (snd (Part000.Zip healthy "/tmp/single" w0)) "single.zip"
          = Some (File true true d)).
Proof.
  split.
  - destruct (X8_success_keeps_archive closeFailing "/tmp/single" w0 eq_refl)
      as [Hz _].
    apply (Hz "single.zip"). vm_compute. reflexivity.
  - destruct (X8_success_keeps_archive healthy "/tmp/single" w0 eq_refl)
      as [_ Hp].
    apply (Hp "single.zip"). vm_compute. reflexivity.
Defined.

(** X9: when nothing was at the place of the archive before the call,
    a call that does not succeed leaves nothing there, and zipper.go
    does not panic: the file it created can be removed. *)
Theorem X9_fresh_archive_cleaned_up (env : zipenv) (inPath : string)
        (w : world) :
  wf (root w) = true -> stat w (dstOf inPath) = None ->
  match fst (ZipperGo.Zip env inPath w) with
  | Success _ => True
  | Failure _ => stat (snd (ZipperGo.Zip env inPath w)) (dstOf inPath) = None
  | Panicked _ => False
  end
  /\ match fst (Part000.Zip env inPath w) with
     | Success _ => True
     | Failure _ => stat (snd (Part000.Zip env inPath w)) (dstOf inPath) = None
     | Panicked _ => False
     end.
Proof.
  intros Hwf Hnone. apply wf_uniq in Hwf. split.
  - destruct (ZipperGo.Zip env inPath w) as [o w'] eqn:E. cbn [fst snd].
    destruct o as [a|e|e]; [exact I| |];
      destruct (zipper_Zip_fresh _ _ _ _ _ Hwf Hnone E) as ((e' & He) & Hs);
      try discriminate; assumption.
  - destruct (Part000.Zip env inPath w) as [o w'] eqn:E. cbn [fst snd].
    destruct o as [a|e|e]; [exact I| |];
      destruct (part_Zip_fresh _ _ _ _ _ Hwf Hnone E) as ((e' & He) & Hs);
      try discriminate; assumption.
Qed.

Lemma X9_witness :
  stat (snd (ZipperGo.Zip copyFailing "/tmp/single" w0)) (dstOf "/tmp/single")
  = None
  /\ stat (snd (Part000.Zip copyFailing "/tmp/single" w0)) (dstOf "/tmp/single")
     = None.
Proof.
  exact (X9_fresh_archive_cleaned_up copyFailing "/tmp/single" w0
           eq_refl eq_refl).
Defined.

(** X10: a successful call of zipper.go opens every file below the
    input in the order of the walk and closes none of them before the
    last is copied: the deferred calls then close them last opened
    first, and the archive after them.  As many files are open at once
    as the input holds. *)
Theorem X10_zipper_keeps_sources_open (env : zipenv) (inPath : string)
        (w w' : world) (a : string) :
  wf (root w) = true ->
  ZipperGo.Zip env inPath w = (Success a, w') ->
  exists n walkEvs,
    stat w (Clean inPath) = Some n
    /\ forallb isWalkEvent walkEvs = true
    /\ trace w'
       = trace w ++ EvLstat (Clean inPath) :: walkEvs
                 ++ EvCreate (dstOf inPath)
                 :: map EvOpen (map (walkedPath inPath) (filesBelow n))
                 ++ map EvClose (rev (map (walkedPath inPath) (filesBelow n)))
                 ++ [EvClose (dstOf inPath)].
Proof.
  intros Hwf H. destruct (valid inPath) eqn:Hv.
  2:{ rewrite zipper_Zip_invalid in H by assumption. discriminate. }
  rewrite zipper_Zip_valid in H by assumption.
  destruct (stat w (Clean inPath)) as [n|] eqn:Hst.
  2:{ rewrite WalkDir_missing in H by assumption. discriminate. }
  destruct (WalkDir_found w inPath n Hwf Hv Hst)
    as (files & wevs & Ew & Hwev & Hfiles).
  rewrite Ew in H. destruct (listable n) eqn:Hl; [|discriminate].
  cbn [walkErr] in H. rewrite (Hfiles eq_refl) in H.
  apply zipper_writeArchive_trace in H. exists n, wevs.
  split; [reflexivity|]. split; [assumption|]. rewrite H.
  cbn [withTrace trace]. now rewrite <- app_assoc.
Qed.

Lemma X10_witness :
  exists n walkEvs,
    stat w0 (Clean "/tmp/nested") = Some n
    /\ forallb isWalkEvent walkEvs = true
    /\ trace (snd (ZipperGo.Zip healthy "/tmp/nested" w0))
       = trace w0 ++ EvLstat (Clean "/tmp/nested") :: walkEvs
                  ++ EvCreate (dstOf "/tmp/nested")
                  :: map EvOpen (map (walkedPath "/tmp/nested") (filesBelow n))
                  ++ map EvClose
                       (rev (map (walkedPath "/tmp/nested") (filesBelow n)))
                  ++ [EvClose (dstOf "/tmp/nested")].
Proof.
  apply (X10_zipper_keeps_sources_open healthy "/tmp/nested" w0 _ "nested.zip");
    [reflexivity|]. vm_compute. reflexivity.
Defined.

(** X11: a successful call of part_000 closes every file before it
    opens the next: one source file is open at a time. *)
Theorem X11_part000_one_source_at_a_time (env : zipenv) (inPath : string)
        (w w' : world) (a : string) :
  wf (root w) = true ->
  Part000.Zip env inPath w = (Success a, w') ->
  exists n walkEvs,
    stat w (Clean inPath) = Some n
    /\ forallb isWalkEvent walkEvs = true
    /\ trace w'
       = trace w ++ EvLstat (Clean inPath) :: walkEvs
                 ++ EvCreate (dstOf inPath)
                 :: flat_map (fun f => [EvOpen f; EvClose f])
                      (map (walkedPath inPath) (filesBelow n))
                 ++ [EvClose (dstOf inPath)].
Proof.
  intros Hwf H. destruct (valid inPath) eqn:Hv.
  2:{ rewrite part_Zip_invalid in H by assumption. discriminate. }
  rewrite part_Zip_valid in H by assumption.
  destruct (stat w (Clean inPath)) as [n|] eqn:Hst.
  2:{ rewrite WalkDir_missing in H by assumption. discriminate. }
  destruct (WalkDir_found w inPath n Hwf Hv Hst)
    as (files & wevs & Ew & Hwev & Hfiles).
  rewrite Ew in H. destruct (listable n) eqn:Hl; [|discriminate].
  cbn [walkErr] in H. rewrite (Hfiles eq_refl) in H.
  apply part_writeArchive_trace in H. exists n, wevs.
  split; [reflexivity|]. split; [assumption|]. rewrite H.
  cbn [withTrace trace]. now rewrite <- app_assoc.
Qed.

Lemma X11_witness :
  exists n walkEvs,
    stat w0 (Clean "/tmp/nested") = Some n
    /\ forallb isWalkEvent walkEvs = true
    /\ trace (snd (Part000.Zip healthy "/tmp/nested" w0))
       = trace w0 ++ EvLstat (Clean "/tmp/nested") :: walkEvs
                  ++ EvCreate (dstOf "/tmp/nested")
                  :: flat_map (fun f => [EvOpen f; EvClose f])
                       (map (walkedPath "/tmp/nested") (filesBelow n))
                  ++ [EvClose (dstOf "/tmp/nested")].
Proof.
  apply (X11_part000_one_source_at_a_time healthy "/tmp/nested" w0 _
           "nested.zip"); [reflexivity|]. vm_compute. reflexivity.
Defined.

(** X12: when a file below the input cannot be read, neither version
    succeeds, whatever else is on disk. *)
Theorem X12_unreadable_file_no_success (env : zipenv) (inPath : string)
        (w : world) (n : node) :
  wf (root w) = true -> valid inPath = true ->
  stat w (Clean inPath) = Some n -> readableFiles n = false ->
  (forall a, fst (ZipperGo.Zip env inPath w) <> Success a)
  /\ (forall a, fst (Part000.Zip env inPath w) <> Success a).
Proof.
  intros Hwf Hv Hst Hr. split; intros a H.
  - destruct (ZipperGo.Zip env inPath w) as [o w'] eqn:E. cbn [fst] in H.
    subst o. now apply (zipper_unreadable env inPath w n Hwf Hv Hst Hr a w').
  - destruct (Part000.Zip env inPath w) as [o w'] eqn:E. cbn [fst] in H.
    subst o. now apply (part_unreadable env inPath w n Hwf Hv Hst Hr a w').
Qed.

Lemma X12_witness :
  (forall a, fst (ZipperGo.Zip healthy "/src" wStuck) <> Success a)
  /\ (forall a, fst (Part000.Zip healthy "/src" wStuck) <> Success a).
Proof.
  apply (X12_unreadable_file_no_success healthy "/src" wStuck
           (Dir true true
              [ ("notes", file "n"); ("secret", File false true (bytes "s")) ]));
    reflexivity.
Defined.

(** X13: for every file below the input, the entry name that part_000
    computes with [filepath.Rel], joined to the cleaned input, is the
    path the walk reported; [Rel] does not fail there, so that [Zip] of
    part_000 never returns its error. *)
Theorem X13_part000_rel_round_trip (env : zipenv) (inPath : string)
        (w : world) :
  wf (root w) = true ->
  (forall n rel,
      valid inPath = true -> stat w (Clean inPath) = Some n ->
      In rel (filesBelow n) ->
      Rel (Clean inPath) (walkedPath inPath rel) = inl (relName rel)
      /\ Join (Clean inPath) (relName rel) = walkedPath inPath rel)
  /\ fst (Part000.Zip env inPath w) <> Failure ErrRel.
Proof.
  intros Hwf. split; [|now apply part_Zip_norel].
  intros n rel Hv Hst Hin.
  assert (Hnames : forallb is_name rel = true).
  { apply (filesBelow_names n); [|assumption]. apply (wf_find _ _ _ Hwf Hst). }
  split; [now apply Rel_walked|now apply Join_relName].
Qed.

Lemma X13_witness :
  (Rel (Clean "/tmp/nested") (walkedPath "/tmp/nested" ["subdir"; "nested.txt"])
   = inl (relName ["subdir"; "nested.txt"])
   /\ Join (Clean "/tmp/nested") (relName ["subdir"; "nested.txt"])
      = walkedPath "/tmp/nested" ["subdir"; "nested.txt"])
  /\ fst (Part000.Zip healthy "/tmp/nested" w0) <> Failure ErrRel.
Proof.
  destruct (X13_part000_rel_round_trip healthy "/tmp/nested" w0 eq_refl)
    as [Hr Hz].
  split; [|exact Hz].
  apply (Hr (Dir true true
               [ ("subdir", Dir true true [("nested.txt", file "nested")]);
                 ("root.txt", file "root") ]));
    [reflexivity|reflexivity|]. right. left. reflexivity.
Defined.



(** X15: when the command exits with status 1, it printed nothing to
    standard output, and either the tree is as it was or no file is at
    the place of the archive: a failure it reports leaves no archive
    of its making. *)
Theorem X15_main_exit_one (env : zipenv) (cenv : cmdenv) (path : string)
        (w : world) :
  wf (root w) = true ->
  status (fst (main env cenv path w)) = 1 ->
  stdout (fst (main env cenv path w)) = ""
  /\ (root (snd (main env cenv path w)) = root w
      \/ stat (snd (main env cenv path w)) (dstOf path) = None).
Proof.
  intros Hwf. unfold main. destruct (path =? "")%string.
  { intros _. cbn. auto. }
  destruct (ZipperGo.Zip env path w) as [[a|e|e] w'] eqn:E; cbn [fst snd status];
    try discriminate. intros _. split; [reflexivity|].
  now apply (zipper_no_residue env path w w' e).
Qed.

Lemma X15_witness :
  stdout (fst (main copyFailing texts "/tmp/single" w0)) = ""
  /\ (root (snd (main copyFailing texts "/tmp/single" w0)) = root w0
      \/ stat (snd (main copyFailing texts "/tmp/single" w0))
           (dstOf "/tmp/single") = None).
Proof.
  apply (X15_main_exit_one copyFailing texts "/tmp/single" w0); reflexivity.
Defined.

(** X16: the archive that zipper.go makes passes [verifyZipContents],
    the check of its own tests: for a cleaned input whose directories
    can be listed and whose files can be read, with an archive that
    lies outside the input and that the reader decodes to the entries
    written, [Zip] succeeds and the helper reports no failure. *)
Theorem X16_test_accepts_zipper (env : zipenv) (rd : zipreader)
        (inPath : string) (w : world) (n : node) :
  wf (root w) = true -> valid inPath = true -> Clean inPath = inPath ->
  stat w inPath = Some n -> listable n = true -> readableFiles n = true ->
  noFaults env -> creatable w (dstOf inPath) = true ->
  isPrefix (resolve w inPath) (resolve w (dstOf inPath)) = false ->
  decode rd
    (encode env
       (map (fun rel => (walkedPath inPath rel, dataBelow n rel)) (filesBelow n)))
  = Some (map (fun rel => (walkedPath inPath rel, dataBelow n rel))
              (filesBelow n)) ->
  exists w',
    ZipperGo.Zip env inPath w = (Success (dstOf inPath), w')
    /\ verifyZipContents rd (dstOf inPath) inPath w' = Errors [].
Proof.
  intros Hwf Hv Hc Hst Hl Hr Hnf Hcr Hout Hdec.
  assert (Hst' : stat w (Clean inPath) = Some n) by now rewrite Hc.
  assert (Hnot : destAmong w inPath n = false)
    by (apply outside_not_among; now rewrite Hc).
  destruct (zipper_Zip_ok env inPath w n Hwf Hv Hst' Hl Hr Hnf Hcr Hnot)
    as (w' & E & r0 & wr0 & Harch).
  exists w'. split; [exact E|].
  apply zipper_Zip_run in E as (Hcw & Hs & Hf); [|now apply wf_uniq].
  destruct (Hf _ eq_refl) as (d & Hfind).
  rewrite Harch in Hfind. injection Hfind as -> -> <-.
  rewrite (verify_run rd (dstOf inPath) inPath w' n true _ _
             (wf_find _ _ _ Hwf Hst) Hv Hc
             (eq_trans (input_untouched w w' inPath _ Hcw Hs Hout) Hst) Hl Hr
             (eq_trans (f_equal (find (root w')) (resolve_cwd _ _ _ Hcw)) Harch)
             Hdec).
  now rewrite checkEntries_same.
Qed.

Lemma X16_witness :
  exists w',
    ZipperGo.Zip Framed.writer "/tmp/nested" w0
    = (Success (dstOf "/tmp/nested"), w')
    /\ verifyZipContents Framed.reader (dstOf "/tmp/nested") "/tmp/nested" w'
       = Errors [].
Proof.
  apply (X16_test_accepts_zipper Framed.writer Framed.reader "/tmp/nested" w0
           (Dir true true
              [ ("subdir", Dir true true [("nested.txt", file "nested")]);
                ("root.txt", file "root") ]));
    try reflexivity; repeat split.
Defined.

(** X17: the archive that part_000 makes of a rooted input does not
    pass that check: under the same conditions [Zip] succeeds, and the
    helper reports every entry as unexpected and every file below the
    input as not found, since it looks the entry names up among the
    walked paths. *)
Theorem X17_test_rejects_part000 (env : zipenv) (rd : zipreader)
        (inPath : string) (w : world) (n : node) :
  wf (root w) = true -> valid inPath = true -> Clean inPath = inPath ->
  isRooted inPath = true ->
  stat w inPath = Some n -> listable n = true -> readableFiles n = true ->
  noFaults env -> creatable w (dstOf inPath) = true ->
  isPrefix (resolve w inPath) (resolve w (dstOf inPath)) = false ->
  decode rd
    (encode env
       (map (fun rel => (relName rel, dataBelow n rel)) (filesBelow n)))
  = Some (map (fun rel => (relName rel, dataBelow n rel)) (filesBelow n)) ->
  exists w',
    Part000.Zip env inPath w = (Success (dstOf inPath), w')
    /\ verifyZipContents rd (dstOf inPath) inPath w'
       = Errors (map (fun rel => Unexpected (relName rel)) (filesBelow n)
                 ++ map (fun rel => NotFound (walkedPath inPath rel))
                      (filesBelow n)).
Proof.
  intros Hwf Hv Hc Hroot Hst Hl Hr Hnf Hcr Hout Hdec.
  assert (Hst' : stat w (Clean inPath) = Some n) by now rewrite Hc.
  assert (Hnot : destAmong w inPath n = false)
    by (apply outside_not_among; now rewrite Hc).
  assert (Hwfn : wf n = true) by apply (wf_find _ _ _ Hwf Hst).
  destruct (part_Zip_ok env inPath w n Hwf Hv Hst' Hl Hr Hnf Hcr Hnot)
    as (w' & E & r0 & wr0 & Harch).
  exists w'. split; [exact E|].
  apply part_Zip_run in E as (Hcw & Hs & Hf); [|now apply wf_uniq].
  destruct (Hf _ eq_refl) as (d & Hfind).
  rewrite Harch in Hfind. injection Hfind as -> -> <-.
  rewrite (verify_run rd (dstOf inPath) inPath w' n true _ _ Hwfn Hv Hc
             (eq_trans (input_untouched w w' inPath _ Hcw Hs Hout) Hst) Hl Hr
             (eq_trans (f_equal (find (root w')) (resolve_cwd _ _ _ Hcw)) Harch)
             Hdec).
  rewrite checkEntries_strange.
  - cbn [fst snd]. now rewrite !map_map.
  - intros e He. apply in_map_iff in He as (rel & <- & Hin). cbn [fst].
      apply lookup_absent. rewrite map_map. cbn [fst]. intros Hk.
      apply in_map_iff in Hk as (rel' & Ek & Hin').
      apply (f_equal isRooted) in Ek.
      rewrite isRooted_walked, isRooted_relName, Hroot in Ek;
        try assumption; try (now apply (filesBelow_names n)). discriminate.
Qed.

Lemma X17_witness :
  exists w',
    Part000.Zip Framed.writer "/tmp/nested" w0
    = (Success (dstOf "/tmp/nested"), w')
    /\ verifyZipContents Framed.reader (dstOf "/tmp/nested") "/tmp/nested" w'
       = Errors [ Unexpected "root.txt"; Unexpected "subdir/nested.txt";
                  NotFound "/tmp/nested/root.txt";
                  NotFound "/tmp/nested/subdir/nested.txt" ].
Proof.
  apply (X17_test_rejects_part000 Framed.writer Framed.reader "/tmp/nested" w0
           (Dir true true
              [ ("subdir", Dir true true [("nested.txt", file "nested")]);
                ("root.txt", file "root") ]));
    try reflexivity; repeat split.
Defined.

(** X18: what a call that does not succeed has done when it returns,
    in either version: the walk alone; or the walk and an [os.Create]
    that failed; or, once the archive file was created, a run that ends
    with the archive closed and then removed.  No system call follows
    the removal, and the file is closed before it is removed. *)
Theorem X18_failure_protocol (env : zipenv) (inPath : string)
        (w w' : world) (o : outcome) :
  wf (root w) = true ->
  ZipperGo.Zip env inPath w = (o, w') \/ Part000.Zip env inPath w = (o, w') ->
  (forall a, o <> Success a) ->
  exists walkEvs,
    forallb isWalkEvent walkEvs = true
    /\ (trace w' = trace w ++ walkEvs
        \/ (creatable w (dstOf inPath) = false
            /\ trace w' = trace w ++ walkEvs ++ [EvCreate (dstOf inPath)])
        \/ (creatable w (dstOf inPath) = true
            /\ exists evs,
                forallb notWalkEvent evs = true
                /\ trace w'
                   = trace w ++ walkEvs
                             ++ EvCreate (dstOf inPath)
                             :: evs ++ [EvClose (dstOf inPath);
                                        EvRemove (dstOf inPath)])).
Proof.
  intros Hwf H Hns. destruct (valid inPath) eqn:Hv.
  2:{ rewrite zipper_Zip_invalid, part_Zip_invalid in H by assumption.
      exists []. split; [reflexivity|]. left.
      destruct H as [H|H]; injection H as _ <-; now rewrite app_nil_r. }
  rewrite zipper_Zip_valid, part_Zip_valid in H by assumption.
  destruct (stat w (Clean inPath)) as [n|] eqn:Hst.
  2:{ rewrite WalkDir_missing in H by assumption.
      exists [EvLstat (Clean inPath)]. split; [reflexivity|]. left.
      destruct H as [H|H]; injection H as _ <-; reflexivity. }
  destruct (WalkDir_found w inPath n Hwf Hv Hst)
    as (files & wevs & Ew & Hwev & _).
  rewrite Ew in H. exists (EvLstat (Clean inPath) :: wevs).
  split; [exact Hwev|].
  destruct (listable n); cbn [walkErr] in H.
  2:{ left. destruct H as [H|H]; injection H as _ <-; reflexivity. }
  right.
  assert (Hstep :
    (creatable (withTrace (trace w ++ EvLstat (Clean inPath) :: wevs) w)
       (dstOf inPath) = false
     /\ trace w' = (trace w ++ EvLstat (Clean inPath) :: wevs)
                   ++ [EvCreate (dstOf inPath)])
    \/ (creatable (withTrace (trace w ++ EvLstat (Clean inPath) :: wevs) w)
          (dstOf inPath) = true
        /\ exists evs,
            forallb notWalkEvent evs = true
            /\ trace w' = (trace w ++ EvLstat (Clean inPath) :: wevs)
                          ++ EvCreate (dstOf inPath)
                          :: evs ++ [EvClose (dstOf inPath);
                                     EvRemove (dstOf inPath)])).
  { destruct H as [H|H].
    - exact (zipper_writeArchive_failed _ _ _ _ _ _ H Hns).
    - exact (part_writeArchive_failed _ _ _ _ _ _ _ H Hns). }
  destruct Hstep as [(Hc & Ht)|(Hc & evs & Hev & Ht)]; [left|right];
    (split; [exact Hc|]).
  - rewrite Ht. now rewrite <- app_assoc.
  - exists evs. split; [assumption|]. rewrite Ht. now rewrite <- app_assoc.
Qed.

Lemma X18_witness :
  exists walkEvs,
    forallb isWalkEvent walkEvs = true
    /\ (trace (snd (Part000.Zip copyFailing "/tmp/single" w0))
        = trace w0 ++ walkEvs
        \/ (creatable w0 (dstOf "/tmp/single") = false
            /\ trace (snd (Part000.Zip copyFailing "/tmp/single" w0))
               = trace w0 ++ walkEvs ++ [EvCreate (dstOf "/tmp/single")])
        \/ (creatable w0 (dstOf "/tmp/single") = true
            /\ exists evs,
                forallb notWalkEvent evs = true
                /\ trace (snd (Part000.Zip copyFailing "/tmp/single" w0))
                   = trace w0 ++ walkEvs
                              ++ EvCreate (dstOf "/tmp/single")
                              :: evs ++ [EvClose (dstOf "/tmp/single");
                                         EvRemove (dstOf "/tmp/single")])).
Proof.
  apply (X18_failure_protocol copyFailing "/tmp/single" w0 _ (Failure ErrIO));
    [reflexivity| |discriminate].
  right. vm_compute. reflexivity.
Defined.

(** X19: a call can be repeated.  Where a first call succeeds on an
    input that does not hold the archive, a second call on the same
    input succeeds as well, truncates the archive of the first and
    writes the same entries. *)
Theorem X19_zip_again (env : zipenv) (inPath : string) (w : world) (n : node) :
  wf (root w) = true -> valid inPath = true ->
  stat w (Clean inPath) = Some n ->
  listable n = true -> readableFiles n = true ->
  noFaults env -> creatable w (dstOf inPath) = true ->
  isPrefix (resolve w (Clean inPath)) (resolve w (dstOf inPath)) = false ->
  (exists w1 w2,
      ZipperGo.Zip env inPath w = (Success (dstOf inPath), w1)
      /\ ZipperGo.Zip env inPath w1 = (Success (dstOf inPath), w2)
      /\ archiveIs w2 (resolve w (dstOf inPath))
           (encode env
              (map (fun rel => (walkedPath inPath rel, dataBelow n rel))
                   (filesBelow n))))
  /\ (exists w1 w2,
         Part000.Zip env inPath w = (Success (dstOf inPath), w1)
         /\ Part000.Zip env inPath w1 = (Success (dstOf inPath), w2)
         /\ archiveIs w2 (resolve w (dstOf inPath))
              (encode env
                 (map (fun rel => (relName rel, dataBelow n rel))
                      (filesBelow n)))).
Proof.
  intros Hwf Hv Hst Hl Hr Hnf Hcr Hout.
  pose proof (outside_not_among w inPath n Hout) as Hnot.
  split.
  - destruct (zipper_Zip_ok env inPath w n Hwf Hv Hst Hl Hr Hnf Hcr Hnot)
      as (w1 & E1 & _).
    destruct (zipper_Zip_again _ _ _ _ _ Hwf E1) as (Hwf1 & Hcr1).
    pose proof E1 as Hrun.
    apply zipper_Zip_run in Hrun as (Hc & Hs & _); [|now apply wf_uniq].
    assert (Hst1 : stat w1 (Clean inPath) = Some n)
      by (rewrite (input_untouched w w1 _ _ Hc Hs Hout); exact Hst).
    assert (Hnot1 : destAmong w1 inPath n = false)
      by (apply outside_not_among; now rewrite !(resolve_cwd _ _ _ Hc)).
    destruct (zipper_Zip_ok env inPath w1 n Hwf1 Hv Hst1 Hl Hr Hnf Hcr1 Hnot1)
      as (w2 & E2 & Harch).
    rewrite (resolve_cwd _ _ _ Hc) in Harch. now exists w1, w2.
  - destruct (part_Zip_ok env inPath w n Hwf Hv Hst Hl Hr Hnf Hcr Hnot)
      as (w1 & E1 & _).
    destruct (part_Zip_again _ _ _ _ _ Hwf E1) as (Hwf1 & Hcr1).
    pose proof E1 as Hrun.
    apply part_Zip_run in Hrun as (Hc & Hs & _); [|now apply wf_uniq].
    assert (Hst1 : stat w1 (Clean inPath) = Some n)
      by (rewrite (input_untouched w w1 _ _ Hc Hs Hout); exact Hst).
    assert (Hnot1 : destAmong w1 inPath n = false)
      by (apply outside_not_among; now rewrite !(resolve_cwd _ _ _ Hc)).
    destruct (part_Zip_ok env inPath w1 n Hwf1 Hv Hst1 Hl Hr Hnf Hcr1 Hnot1)
      as (w2 & E2 & Harch).
    rewrite (resolve_cwd _ _ _ Hc) in Harch. now exists w1, w2.
Qed.

Lemma X19_witness :
  (exists w1 w2,
      ZipperGo.Zip healthy "/tmp/nested" w0 = (Success "nested.zip", w1)
      /\ ZipperGo.Zip healthy "/tmp/nested" w1 = (Success "nested.zip", w2)
      /\ archiveIs w2 ["work"; "nested.zip"]
           (enc [("/tmp/nested/root.txt", bytes "root");
                 ("/tmp/nested/subdir/nested.txt", bytes "nested")]))
  /\ (exists w1 w2,
         Part000.Zip healthy "/tmp/nested" w0 = (Success "nested.zip", w1)
         /\ Part000.Zip healthy "/tmp/nested" w1 = (Success "nested.zip", w2)
         /\ archiveIs w2 ["work"; "nested.zip"]
              (enc [("root.txt", bytes "root");
                    ("subdir/nested.txt", bytes "nested")])).
Proof.
  exact (X19_zip_again healthy "/tmp/nested" w0
           (Dir true true
              [ ("subdir", Dir true true [("nested.txt", file "nested")]);
                ("root.txt", file "root") ])
           eq_refl eq_refl eq_refl eq_refl eq_refl
           (conj (fun _ => eq_refl) (conj (fun _ => eq_refl) eq_refl))
           eq_refl eq_refl).
Defined.

(** X20: for an input that is a single file which can be read, both
    versions succeed where the archive can be created, with one entry
    that holds the bytes of the file: zipper.go names it by the cleaned
    input path, part_000 by a dot.  A file is never the archive made of
    it. *)
Theorem X20_file_input (env : zipenv) (inPath : string) (w : world)
        (wr : bool) (d : list Byte.byte) :
  wf (root w) = true -> valid inPath = true ->
  stat w (Clean inPath) = Some (File true wr d) ->
  noFaults env -> creatable w (dstOf inPath) = true ->
  (exists w',
      ZipperGo.Zip env inPath w = (Success (dstOf inPath), w')
      /\ archiveIs w' (resolve w (dstOf inPath))
           (encode env [(Clean inPath, d)]))
  /\ (exists w',
         Part000.Zip env inPath w = (Success (dstOf inPath), w')
         /\ archiveIs w' (resolve w (dstOf inPath)) (encode env [(".", d)])).
Proof.
  intros Hwf Hv Hst Hnf Hcr.
  assert (Hb : Base (Clean inPath) <> slash).
  { intros Hb. destruct (Clean_cases inPath)
      as [(E & B)|[(E & B)|(rooted & e & st & E & Hok & B)]].
    - rewrite B in Hb. discriminate.
    - rewrite E in Hst. unfold creatable in Hcr. cbn in Hst.
      injection Hst as Hroot. rewrite Hroot in Hcr.
      destruct (resolve w (dstOf inPath)); discriminate.
    - rewrite B in Hb. subst e.
      destruct (stack_ok_top _ _ _ Hok) as (_ & Hs). discriminate. }
  pose proof (file_not_among w inPath true wr d Hv Hb) as Hnot.
  split.
  - destruct (zipper_Zip_ok env inPath w _ Hwf Hv Hst eq_refl eq_refl Hnf Hcr Hnot)
      as (w' & E & Harch).
    exists w'. split; [assumption|]. exact Harch.
  - destruct (part_Zip_ok env inPath w _ Hwf Hv Hst eq_refl eq_refl Hnf Hcr Hnot)
      as (w' & E & Harch).
    exists w'. split; [assumption|]. exact Harch.
Qed.

Lemma X20_witness :
  (exists w',
      ZipperGo.Zip healthy "/tmp/single/test.txt" w0
      = (Success (dstOf "/tmp/single/test.txt"), w')
      /\ archiveIs w' (resolve w0 (dstOf "/tmp/single/test.txt"))
           (enc [(Clean "/tmp/single/test.txt", bytes "test content")]))
  /\ (exists w',
         Part000.Zip healthy "/tmp/single/test.txt" w0
         = (Success (dstOf "/tmp/single/test.txt"), w')
         /\ archiveIs w' (resolve w0 (dstOf "/tmp/single/test.txt"))
              (enc [(".", bytes "test content")])).
Proof.
  exact (X20_file_input healthy "/tmp/single/test.txt" w0 true
           (bytes "test content") eq_refl eq_refl eq_refl
           (conj (fun _ => eq_refl) (conj (fun _ => eq_refl) eq_refl))
           eq_refl).
Defined.
